(** * Frame descriptor tables of the multicore OCaml runtime

    A shallow embedding of [runtime/frame_descriptors.c]: the record
    parser [next_frame_descr], the index builder
    [build_frame_descriptors], the versioned table manager
    ([caml_init_frame_descriptors], [caml_register_frametable],
    [caml_get_frame_descrs]) and the lookup [caml_find_frame_descr].

    Target: a 64-bit little-endian machine (amd64, arm64), the only
    targets of the multicore native-code runtime.  Machine integers are
    [Z] with their wrap-around written out; pointers are addresses in
    [Z], [0] is [NULL]. *)

From stdpp Require Import base numbers option list gmap.

Local Open Scope Z_scope.

(** ** Machine integers *)

Definition word_modulus : Z := 2 ^ 64.

(** [uintnat]: unsigned machine word, arithmetic modulo [2^64]. *)
Definition uintnat (z : Z) : Z := z mod word_modulus.

(** [intnat]: signed machine word, two's complement. *)
Definition intnat (z : Z) : Z := (z + 2 ^ 63) mod word_modulus - 2 ^ 63.

Definition sizeof_uint32 : Z := 4.
Definition sizeof_ptr : Z := 8.
Definition NULL : Z := 0.

(** ** Raw memory holding the generated frame tables

    The tables emitted by ocamlopt are read-only data; the runtime only
    reads them.  A memory maps an address to the byte stored there. *)

Definition memory := Z -> Z.

Definition load_u8 (m : memory) (a : Z) : Z := m (uintnat a) mod 256.

Definition load_u16 (m : memory) (a : Z) : Z :=
  load_u8 m a + 256 * load_u8 m (a + 1).

Fixpoint load_le (m : memory) (n : nat) (a : Z) : Z :=
  match n with
  | O => 0
  | S n' => load_u8 m a + 256 * load_le m n' (a + 1)
  end.

Definition load_uintnat (m : memory) (a : Z) : Z := load_le m 8 a.
Definition load_intnat (m : memory) (a : Z) : Z := intnat (load_le m 8 a).

(** A memory image: [bytes] laid out from address [base], zero elsewhere. *)
Definition mem_of_bytes (base : Z) (bytes : list Z) : memory :=
  fun a => if (a <? base) then 0 else default 0 (bytes !! Z.to_nat (a - base)).

(** ** The frame descriptor record *)

(** Modelled from the spec: [struct frame_descr] is declared in
    caml/frame_descriptors.h, which is not among the sources.  Its layout
    is the one of the binary record format: a word-sized [retaddr], the
    16-bit [frame_size] and [num_live], then [num_live] 16-bit
    [live_ofs]. *)
Definition offsetof_frame_size : Z := 8.
Definition offsetof_num_live : Z := 10.
Definition offsetof_live_ofs : Z := 12.

Definition retaddr (m : memory) (d : Z) : Z := load_uintnat m d.
Definition frame_size (m : memory) (d : Z) : Z :=
  load_u16 m (d + offsetof_frame_size).
Definition num_live (m : memory) (d : Z) : Z :=
  load_u16 m (d + offsetof_num_live).

(** Modelled from the spec: the macro [Align_to(p, ty)] comes from the
    same missing header; it aligns [p] up to the size of [ty], a power of
    two, by adding [size - 1] and masking with [-size] in unsigned word
    arithmetic. *)
Definition Align_to (p size : Z) : Z :=
  Z.land (uintnat (p + size - 1)) (uintnat (- size)).

(** [(unsigned short)-1] *)
Definition ushort_minus_one : Z := 65535.

(** ** Record parser: [next_frame_descr] *)

Definition next_frame_descr (m : memory) (d : Z) : Z :=
  let num_allocs := 0 in
  (* Skip to end of live_ofs *)
  let p := uintnat (d + offsetof_live_ofs + 2 * num_live m d) in
  (* Skip alloc_lengths if present *)
  let '(num_allocs, p) :=
    if negb (Z.land (frame_size m d) 2 =? 0)
    then let n := load_u8 m p in (n, uintnat (p + (n + 1)))
    else (num_allocs, p) in
  (* Skip debug info if present *)
  let p :=
    if negb (Z.land (frame_size m d) 1 =? 0)
       && negb (frame_size m d =? ushort_minus_one)
    then
      let p := Align_to p sizeof_uint32 in
      uintnat (p + sizeof_uint32 *
                   (if negb (Z.land (frame_size m d) 2 =? 0)
                    then num_allocs else 1))
    else p in
  (* Align to word size *)
  Align_to p sizeof_ptr.

(** The record parser as the specification words it: flag bits tested
    one by one, alignment as rounding up to a multiple. *)

Definition align_up (p n : Z) : Z := (p + n - 1) / n * n.

Definition spec_next_record (m : memory) (d : Z) : Z :=
  let flags := frame_size m d in
  let debug_present := Z.testbit flags 0 in
  let alloc_table_present := Z.testbit flags 1 in
  let sentinel := flags =? 2 ^ 16 - 1 in
  (* 1. fixed header and the live offsets *)
  let cursor := d + (8 + 2 + 2) + 2 * num_live m d in
  (* 2. allocation-length table *)
  let num_allocs := load_u8 m cursor in
  let cursor :=
    if alloc_table_present then cursor + 1 + num_allocs else cursor in
  (* 3. debug words *)
  let cursor :=
    if debug_present && negb sentinel
    then align_up cursor 4
         + 4 * (if alloc_table_present then num_allocs else 1)
    else cursor in
  (* 4. pointer-width alignment *)
  align_up cursor 8.

(** ** The runtime's own heap and global state *)

(** Modelled from the spec: [caml_frame_descrs] is declared in the
    missing header caml/frame_descriptors.h; the spec gives the index
    handed to the stack walker as an array of descriptor pointers, here
    its address, plus a mask [2^k - 1]. *)
Record caml_frame_descrs := mk_frame_descrs {
  descriptors : Z;
  mask : Z
}.

(** [struct frametable_version] *)
Record frametable_version := mk_version {
  table : caml_frame_descrs;
  free_prev_after_cycle : Z;
  prev : Z
}.

Definition No_need_to_free : Z := uintnat (-1).

(** Blocks obtained from [caml_stat_alloc]: a [link] node, an array of
    descriptor pointers, or a [frametable_version]. *)
Inductive block :=
| Link (frametable : Z)
| Descrs (slots : list Z)
| Version (v : frametable_version).

(** The globals of the file, the heap of [caml_stat_alloc] and the
    collector's counter.  [frametables] is the chain of [link] nodes as the
    list of their [frametable] fields, head first: nodes are never
    modified after [cons].  [avail] is the number of allocations that
    will still succeed: quantifying over it makes any allocation fail. *)
Record state := mk_state {
  heap : gmap Z block;
  avail : nat;
  frametables : list Z;
  current_frametable : Z;
  caml_major_cycles_completed : Z
}.

Definition with_heap (h : gmap Z block) (st : state) : state :=
  mk_state h (avail st) (frametables st) (current_frametable st)
    (caml_major_cycles_completed st).

Definition with_frametables (l : list Z) (st : state) : state :=
  mk_state (heap st) (avail st) l (current_frametable st)
    (caml_major_cycles_completed st).

Definition with_current (p : Z) (st : state) : state :=
  mk_state (heap st) (avail st) (frametables st) p
    (caml_major_cycles_completed st).

Definition with_cycles (c : Z) (st : state) : state :=
  mk_state (heap st) (avail st) (frametables st) (current_frametable st) c.

(** Outcome of a run: a result and the new state; [Fatal]: an allocation
    failed and the process stops in the state given; [Fault]: an invalid
    memory access (out of bounds, dangling pointer, double free);
    [Diverge]: a loop ran out of fuel. *)
Inductive outcome (A : Type) :=
| Ok (a : A) (st : state)
| Fatal (st : state)
| Fault
| Diverge.
Arguments Ok {A} a st.
Arguments Fatal {A} st.
Arguments Fault {A}.
Arguments Diverge {A}.

Definition M (A : Type) : Type := state -> outcome A.

Definition ret {A} (a : A) : M A := fun st => Ok a st.

Definition bind {A B} (c : M A) (k : A -> M B) : M B :=
  fun st =>
    match c st with
    | Ok a st' => k a st'
    | Fatal st' => Fatal st'
    | Fault => Fault
    | Diverge => Diverge
    end.

Notation "'let*' x ':=' c 'in' k" := (bind c (fun x => k))
  (at level 10, x name, c at level 100, k at level 200, only parsing).
Notation "c1 ;; c2" := (bind c1 (fun _ => c2))
  (at level 100, c2 at level 200, right associativity, only parsing).

Definition get_state : M state := fun st => Ok st st.
Definition modify (f : state -> state) : M unit := fun st => Ok tt (f st).
Definition fault {A} : M A := fun _ => Fault.
Definition diverge {A} : M A := fun _ => Diverge.

(** Content of memory that was allocated and not yet written. *)
Definition uninit : Z := 0xD7D7D7D7D7D7D7D7.

Definition uninit_version : frametable_version :=
  mk_version (mk_frame_descrs uninit uninit) uninit uninit.

(** The address the next allocation returns: some address that is
    neither [NULL] nor in use. *)
Definition alloc_addr (st : state) : Z := fresh (dom (heap st) ∪ {[NULL]}).

(** Modelled from the spec: [caml_stat_alloc] is defined in memory.c,
    which is not among the sources.  An allocation returns a non-null
    address that is not in use, with the block in it; its failure is
    fatal. *)
Definition caml_stat_alloc (b : block) : M Z :=
  fun st =>
    match avail st with
    | O => Fatal st
    | S n =>
        let p := alloc_addr st in
        Ok p (mk_state (<[p := b]> (heap st)) n (frametables st)
                (current_frametable st) (caml_major_cycles_completed st))
    end.

(** Modelled from the spec: [caml_stat_free], of memory.c as well,
    releases the block; freeing [NULL] does nothing. *)
Definition caml_stat_free (p : Z) : M unit :=
  fun st =>
    if p =? NULL then Ok tt st
    else match heap st !! p with
         | Some _ => Ok tt (with_heap (delete p (heap st)) st)
         | None => Fault
         end.

(** Reads and writes through pointers into the heap. *)
Definition load_slot (a h : Z) : M Z :=
  fun st =>
    match heap st !! a with
    | Some (Descrs l) =>
        if 0 <=? h
        then match l !! Z.to_nat h with
             | Some v => Ok v st
             | None => Fault
             end
        else Fault
    | _ => Fault
    end.

Definition store_slot (a h v : Z) : M unit :=
  fun st =>
    match heap st !! a with
    | Some (Descrs l) =>
        if (0 <=? h) && (h <? Z.of_nat (length l))
        then Ok tt (with_heap (<[a := Descrs (<[Z.to_nat h := v]> l)]> (heap st)) st)
        else Fault
    | _ => Fault
    end.

Definition load_version (p : Z) : M frametable_version :=
  fun st =>
    match heap st !! p with
    | Some (Version v) => Ok v st
    | _ => Fault
    end.

Definition store_version (p : Z) (f : frametable_version -> frametable_version)
  : M unit :=
  fun st =>
    match heap st !! p with
    | Some (Version v) => Ok tt (with_heap (<[p := Version (f v)]> (heap st)) st)
    | _ => Fault
    end.

Definition set_table (t : caml_frame_descrs) (v : frametable_version) :=
  mk_version t (free_prev_after_cycle v) (prev v).
Definition set_free_prev_after_cycle (c : Z) (v : frametable_version) :=
  mk_version (table v) c (prev v).
Definition set_prev (p : Z) (v : frametable_version) :=
  mk_version (table v) (free_prev_after_cycle v) p.

(** ** Index builder: [build_frame_descriptors] *)

(** Modelled from the spec: the macro [Hash_retaddr(addr, mask)] is in the
    missing header; the spec gives it as [hash(addr) & mask] without
    fixing [hash], which is a parameter here. *)
Definition Hash_retaddr (hash : Z -> Z) (addr mask : Z) : Z :=
  Z.land (hash addr) mask.

(** [iter_list(frametables,lnk) num_descr += *lnk->frametable;] *)
Fixpoint count_descrs (m : memory) (chain : list Z) (num_descr : Z) : Z :=
  match chain with
  | [] => num_descr
  | tbl :: rest => count_descrs m rest (intnat (num_descr + load_intnat m tbl))
  end.

(** [while (tblsize < 2 * num_descr) tblsize *= 2;] *)
Fixpoint grow_tblsize (fuel : nat) (tblsize num_descr : Z) : option Z :=
  match fuel with
  | O => None
  | S fuel' =>
      if tblsize <? intnat (2 * num_descr)
      then grow_tblsize fuel' (intnat (tblsize * 2)) num_descr
      else Some tblsize
  end.

(** [for (i = 0; i < tblsize; i++) table.descriptors[i] = NULL;] with
    [n] iterations left. *)
Fixpoint clear_slots (n : nat) (a i : Z) : M unit :=
  match n with
  | O => ret tt
  | S n' => store_slot a i NULL ;; clear_slots n' a (i + 1)
  end.

(** [while (table.descriptors[h] != NULL) h = (h+1) & table.mask;] *)
Fixpoint probe_empty (fuel : nat) (t : caml_frame_descrs) (h : Z) : M Z :=
  match fuel with
  | O => diverge
  | S fuel' =>
      let* v := load_slot (descriptors t) h in
      if negb (v =? NULL)
      then probe_empty fuel' t (Z.land (uintnat (h + 1)) (mask t))
      else ret h
  end.

(** Body of the loop over the records of one table. *)
Definition insert_descr (hash : Z -> Z) (m : memory) (fuel : nat)
    (t : caml_frame_descrs) (tblsize d : Z) : M unit :=
  let h := Hash_retaddr hash (retaddr m d) (tblsize - 1) in
  let* h := probe_empty fuel t h in
  store_slot (descriptors t) h d.

(** [for (j = 0; j < len; j++) { ...; d = next_frame_descr(d); }] with
    [n] iterations left. *)
Fixpoint fill_table (hash : Z -> Z) (m : memory) (fuel : nat)
    (t : caml_frame_descrs) (tblsize : Z) (n : nat) (d : Z) : M unit :=
  match n with
  | O => ret tt
  | S n' =>
      insert_descr hash m fuel t tblsize d ;;
      fill_table hash m fuel t tblsize n' (next_frame_descr m d)
  end.

Fixpoint fill_chain (hash : Z -> Z) (m : memory) (fuel : nat)
    (t : caml_frame_descrs) (tblsize : Z) (chain : list Z) : M unit :=
  match chain with
  | [] => ret tt
  | tbl :: rest =>
      let len := load_intnat m tbl in
      let d := uintnat (tbl + sizeof_ptr) in
      fill_table hash m fuel t tblsize (Z.to_nat len) d ;;
      fill_chain hash m fuel t tblsize rest
  end.

Definition build_frame_descriptors (hash : Z -> Z) (m : memory) (fuel : nat)
    (frametables : list Z) : M caml_frame_descrs :=
  (* Count the frame descriptors *)
  let num_descr := count_descrs m frametables 0 in
  match grow_tblsize fuel 4 num_descr with
  | None => diverge
  | Some tblsize =>
      (* Allocate the hash table *)
      let size := uintnat (tblsize * sizeof_ptr) in
      let* a := caml_stat_alloc
                  (Descrs (replicate (Z.to_nat (size / sizeof_ptr)) uninit)) in
      let t := mk_frame_descrs a (tblsize - 1) in
      clear_slots (Z.to_nat tblsize) a 0 ;;
      (* Fill the hash table *)
      fill_chain hash m fuel t tblsize frametables ;;
      ret t
  end.

(** ** Versioned table manager

    The mutex [descr_mutex] serialises the writers; runs are sequential
    here, so taking and releasing it changes nothing.  [CAMLassert] is
    compiled away in the release runtime and is left out. *)

Definition cons (frametable : Z) : M unit :=
  let* _ := caml_stat_alloc (Link frametable) in
  modify (fun st => with_frametables (frametable :: frametables st) st).

(** [for (i = 0; caml_frametable[i] != 0; i++) frametables = cons(...)]
    over the null-terminated array [caml_frametable] generated by
    ocamlopt. *)
Fixpoint cons_static (caml_frametable : list Z) : M unit :=
  match caml_frametable with
  | [] => fault
  | tbl :: rest =>
      if negb (tbl =? 0) then cons tbl ;; cons_static rest else ret tt
  end.

Definition caml_init_frame_descriptors (hash : Z -> Z) (m : memory)
    (fuel : nat) (caml_frametable : list Z) : M unit :=
  cons_static caml_frametable ;;
  let* ft := caml_stat_alloc (Version uninit_version) in
  let* st := get_state in
  let* t := build_frame_descriptors hash m fuel (frametables st) in
  store_version ft (set_table t) ;;
  store_version ft (set_free_prev_after_cycle No_need_to_free) ;;
  store_version ft (set_prev 0) ;;
  modify (with_current ft).

Definition caml_register_frametable (hash : Z -> Z) (m : memory)
    (fuel : nat) (table : Z) : M unit :=
  cons table ;;
  let* st := get_state in
  let old := current_frametable st in
  let* ft := caml_stat_alloc (Version uninit_version) in
  let* t := build_frame_descriptors hash m fuel (frametables st) in
  store_version ft (set_table t) ;;
  let* st := get_state in
  store_version ft (set_free_prev_after_cycle (caml_major_cycles_completed st)) ;;
  store_version ft (set_prev old) ;;
  modify (with_current ft).

Definition caml_get_frame_descrs : M caml_frame_descrs :=
  let* st := get_state in
  let ft := current_frametable st in
  let* v := load_version ft in
  let* st := get_state in
  (if free_prev_after_cycle v <? caml_major_cycles_completed st
   then
     (* it's now safe to free the old table *)
     let* v := load_version ft in
     if negb (prev v =? NULL)
     then
       let* pv := load_version (prev v) in
       caml_stat_free (descriptors (table pv)) ;;
       caml_stat_free (prev v) ;;
       store_version ft (set_prev NULL) ;;
       store_version ft (set_free_prev_after_cycle No_need_to_free)
     else ret tt
   else ret tt) ;;
  let* v := load_version ft in
  ret (table v).

(** ** Lookup: [caml_find_frame_descr] *)

Fixpoint find_loop (m : memory) (fuel : nat) (fds : caml_frame_descrs)
    (pc h : Z) : M Z :=
  match fuel with
  | O => diverge
  | S fuel' =>
      let* d := load_slot (descriptors fds) h in
      if d =? 0 then ret NULL
      else if retaddr m d =? pc then ret d
      else find_loop m fuel' fds pc (Z.land (uintnat (h + 1)) (mask fds))
  end.

Definition caml_find_frame_descr (hash : Z -> Z) (m : memory) (fuel : nat)
    (fds : caml_frame_descrs) (pc : Z) : M Z :=
  find_loop m fuel fds pc (Hash_retaddr hash pc (mask fds)).

(** ** The records of the registered tables *)

(** The addresses the builder visits in one table: [n] records from [d]. *)
Fixpoint table_records (m : memory) (n : nat) (d : Z) : list Z :=
  match n with
  | O => []
  | S n' => d :: table_records m n' (next_frame_descr m d)
  end.

Definition records_of (m : memory) (tbl : Z) : list Z :=
  table_records m (Z.to_nat (load_intnat m tbl)) (uintnat (tbl + sizeof_ptr)).

(** All records of a chain, in insertion order. *)
Fixpoint chain_records (m : memory) (chain : list Z) : list Z :=
  match chain with
  | [] => []
  | tbl :: rest => records_of m tbl ++ chain_records m rest
  end.

(** The contract of the code generator on the registered tables: no
    negative count, fewer than [2^59] records in all, and no record at
    [NULL]. *)
Definition wf_tables (m : memory) (chain : list Z) : bool :=
  forallb (fun tbl => 0 <=? load_intnat m tbl) chain
  && (Z.of_nat (length (chain_records m chain)) <? 2 ^ 59)
  && forallb (fun d => negb (d =? NULL)) (chain_records m chain).

(** ... and no two records with the same return address. *)
Definition unique_retaddrs (m : memory) (chain : list Z) : bool :=
  bool_decide (NoDup (map (retaddr m) (chain_records m chain))).

(** ** The index as a plain array

    The loops of the builder and of the lookup, run on the contents of
    the array alone; the runs on the heap are related to them below. *)

Definition slot_at (slots : list Z) (h : Z) : option Z :=
  if 0 <=? h then slots !! Z.to_nat h else None.

Fixpoint slots_probe_empty (fuel : nat) (slots : list Z) (mask h : Z)
  : option Z :=
  match fuel with
  | O => None
  | S fuel' =>
      match slot_at slots h with
      | Some v =>
          if negb (v =? NULL)
          then slots_probe_empty fuel' slots mask (Z.land (uintnat (h + 1)) mask)
          else Some h
      | None => None
      end
  end.

Definition slots_insert (hash : Z -> Z) (m : memory) (fuel : nat)
    (mask : Z) (slots : list Z) (d : Z) : option (list Z) :=
  match slots_probe_empty fuel slots mask
          (Hash_retaddr hash (retaddr m d) mask) with
  | Some h => Some (<[Z.to_nat h := d]> slots)
  | None => None
  end.

Fixpoint slots_fill (hash : Z -> Z) (m : memory) (fuel : nat)
    (mask : Z) (slots : list Z) (records : list Z) : option (list Z) :=
  match records with
  | [] => Some slots
  | d :: rest =>
      match slots_insert hash m fuel mask slots d with
      | Some slots' => slots_fill hash m fuel mask slots' rest
      | None => None
      end
  end.

Fixpoint slots_find (m : memory) (fuel : nat) (slots : list Z)
    (mask pc h : Z) : option Z :=
  match fuel with
  | O => None
  | S fuel' =>
      match slot_at slots h with
      | Some d =>
          if d =? 0 then Some NULL
          else if retaddr m d =? pc then Some d
          else slots_find m fuel' slots mask pc (Z.land (uintnat (h + 1)) mask)
      | None => None
      end
  end.

(** Number of non-null slots. *)
Definition occupied (slots : list Z) : nat :=
  length (filter (fun v => v ≠ NULL) slots).

(** ** Runs of the table manager *)

(** Modelled from the spec: the counter [caml_major_cycles_completed]
    belongs to major_gc.c, which is not among the sources.  The collector
    counts its completed major cycles upwards, one at a time; the count
    stays below the word [No_need_to_free] that the manager reserves. *)
Definition major_cycle_completes (st st' : state) : Prop :=
  caml_major_cycles_completed st + 1 < No_need_to_free
  /\ st' = with_cycles (caml_major_cycles_completed st + 1) st.

(** What happens to the manager after initialisation: a table is
    registered, some thread fetches the current table, or the collector
    completes a major cycle. *)
Inductive op :=
| Register (table : Z)
| Get_frame_descrs
| Major_cycle.

Definition step (hash : Z -> Z) (m : memory) (fuel : nat) (o : op)
    (st st' : state) : Prop :=
  match o with
  | Register tbl => caml_register_frametable hash m fuel tbl st = Ok tt st'
  | Get_frame_descrs => exists fds, caml_get_frame_descrs st = Ok fds st'
  | Major_cycle => major_cycle_completes st st'
  end.

Fixpoint steps (hash : Z -> Z) (m : memory) (fuel : nat) (ops : list op)
    (st st' : state) : Prop :=
  match ops with
  | [] => st' = st
  | o :: rest =>
      exists st1, step hash m fuel o st st1 /\ steps hash m fuel rest st1 st'
  end.

(** The state of the process before [caml_init_frame_descriptors]. *)
Definition initial_state (avail : nat) : state :=
  mk_state ∅ avail [] NULL 0.

Definition reachable (hash : Z -> Z) (m : memory) (fuel : nat) (st : state)
  : Prop :=
  exists (avail : nat) (caml_frametable : list Z) (ops : list op) (st0 : state),
    caml_init_frame_descriptors hash m fuel caml_frametable
      (initial_state avail) = Ok tt st0
    /\ steps hash m fuel ops st0 st.

Definition is_register (o : op) : bool :=
  match o with Register _ => true | _ => false end.

(** One step of linear probing, and [j] steps. *)
Definition next_slot (mask h : Z) : Z := Z.land (uintnat (h + 1)) mask.

Definition walk (mask : Z) (j : nat) (h : Z) : Z :=
  Nat.iter j (next_slot mask) h.

(** A slot holds a non-null pointer. *)
Definition busy (slots : list Z) (h : Z) : Prop :=
  exists v, slot_at slots h = Some v /\ v <> NULL.

(** [d] sits [j] probes after its hash, behind busy slots only. *)
Definition placed (hash : Z -> Z) (m : memory) (mask : Z) (slots : list Z)
    (d : Z) : Prop :=
  exists j : nat,
    (j < length slots)%nat
    /\ slot_at slots (walk mask j (Hash_retaddr hash (retaddr m d) mask)) = Some d
    /\ forall i : nat, (i < j)%nat ->
         busy slots (walk mask i (Hash_retaddr hash (retaddr m d) mask)).

(** The open-addressing invariant of an array of [2^k] slots holding
    the records [recs]. *)
Record index_inv (hash : Z -> Z) (m : memory) (k : Z) (slots : list Z)
    (recs : list Z) : Prop := mk_index_inv {
  inv_size : Z.of_nat (length slots) = 2 ^ k;
  inv_k : 0 <= k < 62;
  inv_placed : forall d, d ∈ recs -> placed hash m (2 ^ k - 1) slots d;
  inv_sound : forall (i : nat) v, slots !! i = Some v -> v <> NULL -> v ∈ recs;
  inv_nonnull : forall d, d ∈ recs -> d <> NULL;
  inv_occupied : occupied slots = length recs
}.

(** The state in which the array at [a] holds [l]. *)
Definition set_array (a : Z) (l : list Z) (st : state) : state :=
  with_heap (<[a := Descrs l]> (heap st)) st.

(** ** States the operations end in *)

(** After a successful allocation of [b]. *)
Definition alloc_state (b : block) (st : state) : state :=
  mk_state (<[alloc_addr st := b]> (heap st)) (pred (avail st))
    (frametables st) (current_frametable st) (caml_major_cycles_completed st).

(** After [frametables = cons(tbl, frametables)]. *)
Definition consed (tbl : Z) (st : state) : state :=
  with_frametables (tbl :: frametables st) (alloc_state (Link tbl) st).

(** After the version node [ft] got its three fields and was published. *)
Definition published (ft : Z) (v : frametable_version) (st : state) : state :=
  with_current ft (with_heap (<[ft := Version v]> (heap st)) st).

(** After a registration of [tbl] that built the index [l] with mask
    [msk]. *)
Definition registered (tbl msk : Z) (l : list Z) (st : state) : state :=
  let st1 := consed tbl st in
  let st2 := alloc_state (Version uninit_version) st1 in
  let st3 := alloc_state (Descrs l) st2 in
  published (alloc_addr st1)
    (mk_version (mk_frame_descrs (alloc_addr st2) msk)
       (caml_major_cycles_completed st) (current_frametable st))
    st3.

(** After the predecessor of the current version was freed. *)
Definition reclaimed (st : state) : state :=
  match heap st !! current_frametable st with
  | Some (Version v) =>
      match heap st !! prev v with
      | Some (Version w) =>
          with_heap
            (<[current_frametable st :=
                 Version (mk_version (table v) No_need_to_free NULL)]>
               (delete (prev v) (delete (descriptors (table w)) (heap st))))
            st
      | _ => st
      end
  | _ => st
  end.

(** The invariant of the version chain: [NULL] is not allocated; the
    counter is below [No_need_to_free]; a version has the marker
    [No_need_to_free] exactly when it has no predecessor; the current
    version and its index are allocated, and so are its predecessor, if
    any, and the index of the predecessor, all distinct. *)
Record manager_inv (st : state) : Prop := mk_manager_inv {
  minv_null : heap st !! NULL = None;
  minv_cycles :
    0 <= caml_major_cycles_completed st < No_need_to_free;
  minv_marker : forall p v,
    heap st !! p = Some (Version v) ->
    (free_prev_after_cycle v = No_need_to_free <-> prev v = NULL);
  minv_current : exists v l,
    heap st !! current_frametable st = Some (Version v)
    /\ heap st !! descriptors (table v) = Some (Descrs l)
    /\ (prev v <> NULL ->
        prev v <> current_frametable st
        /\ exists w lw,
             heap st !! prev v = Some (Version w)
             /\ heap st !! descriptors (table w) = Some (Descrs lw)
             /\ descriptors (table w) <> descriptors (table v))
}.

(** The part of the invariant that does not mention the current
    version. *)
Record versions_inv (st : state) : Prop := mk_versions_inv {
  vinv_null : heap st !! NULL = None;
  vinv_cycles :
    0 <= caml_major_cycles_completed st < No_need_to_free;
  vinv_marker : forall p v,
    heap st !! p = Some (Version v) ->
    (free_prev_after_cycle v = No_need_to_free <-> prev v = NULL)
}.

(** The links between the versions that are allocated: a predecessor
    link leads to an allocated version; no two versions have the same
    predecessor, or the same index; no link leads to the version [cur];
    the index of a version is allocated. *)
Record chain_ok (h : gmap Z block) (cur : Z) : Prop := mk_chain_ok {
  chain_linked : forall p v,
    h !! p = Some (Version v) -> prev v <> NULL ->
    exists w, h !! prev v = Some (Version w);
  chain_prev_inj : forall p1 v1 p2 v2,
    h !! p1 = Some (Version v1) -> h !! p2 = Some (Version v2) ->
    prev v1 <> NULL -> prev v1 = prev v2 -> p1 = p2;
  chain_head : forall p v, h !! p = Some (Version v) -> prev v <> cur;
  chain_index : forall p v,
    h !! p = Some (Version v) ->
    exists l, h !! descriptors (table v) = Some (Descrs l);
  chain_index_inj : forall p1 v1 p2 v2,
    h !! p1 = Some (Version v1) -> h !! p2 = Some (Version v2) ->
    descriptors (table v1) = descriptors (table v2) -> p1 = p2
}.

(** The version [v0] at [q] and its index [l0] are allocated and
    untouched, [q] is not the current version, and every version whose
    predecessor is [q] has the marker [c]. *)
Definition awaiting (q : Z) (v0 : frametable_version) (l0 : list Z) (c : Z)
    (st : state) : Prop :=
  heap st !! q = Some (Version v0)
  /\ heap st !! descriptors (table v0) = Some (Descrs l0)
  /\ current_frametable st <> q
  /\ forall p v, heap st !! p = Some (Version v) -> prev v = q ->
                 free_prev_after_cycle v = c.

(** The index of the current version is the index of the chain: it
    satisfies the probing invariant for the records of all registered
    tables, and has room left. *)
Definition indexed (hash : Z -> Z) (m : memory) (st : state) : Prop :=
  exists v k l,
    heap st !! current_frametable st = Some (Version v)
    /\ mask (table v) = 2 ^ k - 1
    /\ heap st !! descriptors (table v) = Some (Descrs l)
    /\ index_inv hash m k l (chain_records m (frametables st))
    /\ (length (chain_records m (frametables st)) < length l)%nat
    /\ 2 <= k
    /\ (k = 2
        \/ 2 ^ (k - 1) < 2 * Z.of_nat (length (chain_records m (frametables st)))).

(** A computation that touches the array at [a] only, and allocates
    nothing. *)
Definition array_op {A} (a : Z) (c : M A) : Prop :=
  forall st l, heap st !! a = Some (Descrs l) ->
    match c st with
    | Ok _ st' => exists l', st' = set_array a l' st
    | Fatal _ => False
    | _ => True
    end.

(** The end that initialisation and registration have in common, for
    the lemmas below: the version node is allocated, the index built,
    the three fields written, the node published.  The marker is read
    from the state once the index is built. *)
Definition finish_version (hash : Z -> Z) (m : memory) (fuel : nat)
    (chain : list Z) (marker_of : state -> Z) (old : Z) : M unit :=
  let* ft := caml_stat_alloc (Version uninit_version) in
  let* t := build_frame_descriptors hash m fuel chain in
  store_version ft (set_table t) ;;
  let* st := get_state in
  store_version ft (set_free_prev_after_cycle (marker_of st)) ;;
  store_version ft (set_prev old) ;;
  modify (with_current ft).

(** The state [finish_version] ends in when nothing fails. *)
Definition finished (msk : Z) (l : list Z) (marker old : Z) (st1 : state)
  : state :=
  let st2 := alloc_state (Version uninit_version) st1 in
  let st3 := alloc_state (Descrs l) st2 in
  published (alloc_addr st1)
    (mk_version (mk_frame_descrs (alloc_addr st2) msk) marker old) st3.

(** After the static tables [tbls] were consed, first to last. *)
Fixpoint consed_all (tbls : list Z) (st : state) : state :=
  match tbls with
  | [] => st
  | tbl :: rest => consed_all rest (consed tbl st)
  end.

(** Two runs end alike: with the same result and the same contents in
    the arrays at [a1] and [a2], or both on an invalid access, or both
    out of fuel. *)
Definition same_run {A} (a1 a2 : Z) (st1 st2 : state) (o1 o2 : outcome A)
  : Prop :=
  match o1, o2 with
  | Ok x s1, Ok y s2 =>
      x = y /\ exists l, s1 = set_array a1 l st1 /\ s2 = set_array a2 l st2
  | Fault, Fault => True
  | Diverge, Diverge => True
  | _, _ => False
  end.

(** Two computations that do the same to the arrays at [a1] and [a2]. *)
Definition array_sim {A} (a1 a2 : Z) (c1 c2 : M A) : Prop :=
  forall st1 st2 l,
    heap st1 !! a1 = Some (Descrs l) -> heap st2 !! a2 = Some (Descrs l) ->
    same_run a1 a2 st1 st2 (c1 st1) (c2 st2).

(** ** A memory image to run the code on

    Three frame tables laid out from address [0x1000], as ocamlopt would
    emit them.  The first has three records: a plain one, one with an
    allocation-length table, one with debug information.  The second has
    one record, whose return address hashes like that of the first
    record of the first table.  The third has three plain records, the
    fourth a record with the all-ones size word and one with both an
    allocation-length table and debug information. *)

Definition le_bytes (n : nat) (v : Z) : list Z :=
  map (fun i => (v / 256 ^ Z.of_nat i) mod 256) (seq 0 n).

(** A record without allocation-length table: header, live offsets,
    debug words if any, padding to the word. *)
Definition plain_record (ret fsize : Z) (live : list Z) (tail : list Z)
  : list Z :=
  le_bytes 8 ret ++ le_bytes 2 fsize ++ le_bytes 2 (Z.of_nat (length live))
  ++ flat_map (le_bytes 2) live ++ tail.

Definition example_table1 : list Z :=
  le_bytes 8 3
  (* 0x1008: no flag; 12 bytes, padded to 16 *)
  ++ plain_record 0x5010 16 [] [0; 0; 0; 0]
  (* 0x1018: bit 1; one live slot, two allocation lengths: 17 bytes,
     padded to 24 *)
  ++ plain_record 0x5020 18 [8] [2; 1; 2; 0; 0; 0; 0; 0; 0; 0]
  (* 0x1030: bit 0; 12 bytes, one debug word: 16 bytes *)
  ++ plain_record 0x5030 17 [] (le_bytes 4 0x44).

Definition example_table2 : list Z :=
  le_bytes 8 1
  (* 0x1048 *)
  ++ plain_record 0x5050 32 [] [0; 0; 0; 0].

Definition example_table3 : list Z :=
  le_bytes 8 3
  (* 0x1060, 0x1070, 0x1080 *)
  ++ plain_record 0x6008 16 [] [0; 0; 0; 0]
  ++ plain_record 0x6010 16 [] [0; 0; 0; 0]
  ++ plain_record 0x6018 16 [] [0; 0; 0; 0].

Definition example_table4 : list Z :=
  le_bytes 8 2
  (* 0x1098: the all-ones size word; 13 bytes, padded to 16 *)
  ++ plain_record 0x7008 0xFFFF [] [0; 0; 0; 0]
  (* 0x10a8: bits 0 and 1; one live slot, two allocation lengths, two
     debug words at 20 and 24: 28 bytes, padded to 32 *)
  ++ plain_record 0x7010 19 [8]
       ([2; 1; 2; 0; 0; 0] ++ le_bytes 4 0x44 ++ le_bytes 4 0x48
        ++ [0; 0; 0; 0]).

Definition example_memory : memory :=
  mem_of_bytes 0x1000
    (example_table1 ++ example_table2 ++ example_table3 ++ example_table4).

Definition table1 : Z := 0x1000.
Definition table2 : Z := 0x1040.
Definition table3 : Z := 0x1058.
Definition table4 : Z := 0x1090.

(** The hash of the runtime on 64-bit targets: the address without its
    three low bits. *)
Definition example_hash (addr : Z) : Z := Z.shiftr addr 3.

(** Runs of the manager on that image, with fuel 100: initialisation
    with the static table [table1], registration of [table2], then
    either the registration of [table3], or one completed cycle and a
    fetch of the current table. *)

Definition state_of {A} (o : outcome A) : state :=
  match o with
  | Ok _ st => st
  | Fatal st => st
  | _ => initial_state 0
  end.

Definition example_init (avail : nat) : state :=
  state_of (caml_init_frame_descriptors example_hash example_memory 100
              [table1; 0] (initial_state avail)).

Definition example_registered (avail : nat) : state :=
  state_of (caml_register_frametable example_hash example_memory 100 table2
              (example_init avail)).

Definition example_registered_again (avail : nat) : state :=
  state_of (caml_register_frametable example_hash example_memory 100 table3
              (example_registered avail)).

Definition example_cycled (avail : nat) : state :=
  with_cycles 1 (example_registered avail).

Definition example_fetched (avail : nat) : state :=
  state_of (caml_get_frame_descrs (example_cycled avail)).

Definition example_fetched_again (avail : nat) : state :=
  state_of (caml_get_frame_descrs
              (with_cycles 1 (example_registered_again avail))).

(** A second image, from address [0x2000]: a table of two records, at
    [0x2008] and [0x2018], and a table of one record, at [0x2030], whose
    return address is that of the record at [0x2008]. *)
Definition shadow_table1 : list Z :=
  le_bytes 8 2
  ++ plain_record 0x9010 16 [] [0; 0; 0; 0]
  ++ plain_record 0x9020 16 [] [0; 0; 0; 0].

Definition shadow_table2 : list Z :=
  le_bytes 8 1
  ++ plain_record 0x9010 32 [] [0; 0; 0; 0].

Definition shadow_memory : memory :=
  mem_of_bytes 0x2000 (shadow_table1 ++ shadow_table2).

Definition shadow_init (avail : nat) : state :=
  state_of (caml_init_frame_descriptors example_hash shadow_memory 100
              [0x2000; 0] (initial_state avail)).

Definition shadow_registered (avail : nat) : state :=
  state_of (caml_register_frametable example_hash shadow_memory 100 0x2028
              (shadow_init avail)).

(** ** Notions for the further properties *)

(** The entries of the static array [caml_frametable] before its null
    terminator. *)
Fixpoint static_tables (caml_frametable : list Z) : list Z :=
  match caml_frametable with
  | [] => []
  | tbl :: rest => if tbl =? 0 then [] else tbl :: static_tables rest
  end.

(** The tables registered by a run, first to last. *)
Fixpoint registrations (ops : list op) : list Z :=
  match ops with
  | [] => []
  | Register tbl :: rest => tbl :: registrations rest
  | _ :: rest => registrations rest
  end.

(** The version at [V0] and its index at [A0] are allocated, but the
    version is neither the current one nor its predecessor, and the index
    is neither the current index nor that of the predecessor: nothing the
    manager follows leads to them. *)
Definition abandoned (V0 A0 : Z) (v0 : frametable_version) (l0 : list Z)
    (st : state) : Prop :=
  heap st !! V0 = Some (Version v0)
  /\ heap st !! A0 = Some (Descrs l0)
  /\ current_frametable st <> V0
  /\ exists v,
       heap st !! current_frametable st = Some (Version v)
       /\ descriptors (table v) <> A0
       /\ prev v <> V0
       /\ forall w, heap st !! prev v = Some (Version w) ->
                    descriptors (table w) <> A0.

(** The slots hold the records in the order of [recs]: each record is
    reached from its hash through slots that hold records coming before
    it in [recs]. *)
Definition ordered (hash : Z -> Z) (m : memory) (mask : Z)
    (slots recs : list Z) : Prop :=
  forall pre d post, recs = pre ++ d :: post ->
    exists j : nat,
      (j < length slots)%nat
      /\ slot_at slots (walk mask j (Hash_retaddr hash (retaddr m d) mask))
         = Some d
      /\ forall i : nat, (i < j)%nat ->
           exists v,
             slot_at slots (walk mask i (Hash_retaddr hash (retaddr m d) mask))
             = Some v
             /\ v ∈ pre.

(** The current index holds the records of the chain in chain order. *)
Definition indexed_in_order (hash : Z -> Z) (m : memory) (st : state) : Prop :=
  exists v l,
    heap st !! current_frametable st = Some (Version v)
    /\ heap st !! descriptors (table v) = Some (Descrs l)
    /\ ordered hash m (mask (table v)) l (chain_records m (frametables st)).

(** * Properties *)

(** ** Lemmas on machine arithmetic *)

Lemma uintnat_small z : 0 <= z < word_modulus -> uintnat z = z.
Proof. intros H. unfold uintnat. apply Z.mod_small. exact H. Qed.

Lemma load_u8_range m a : 0 <= load_u8 m a < 256.
Proof. unfold load_u8. apply Z.mod_pos_bound. lia. Qed.

Lemma load_u16_range m a : 0 <= load_u16 m a < 65536.
Proof.
  unfold load_u16.
  pose proof (load_u8_range m a). pose proof (load_u8_range m (a + 1)). lia.
Qed.

Lemma land_pow2_testbit (a : Z) (k : Z) :
  0 <= k -> (Z.land a (2 ^ k) =? 0) = negb (Z.testbit a k).
Proof.
  intros Hk.
  destruct (Z.testbit a k) eqn:Hb; simpl.
  - apply Z.eqb_neq. intros H0.
    assert (Hk' : Z.testbit (Z.land a (2 ^ k)) k = true).
    { rewrite Z.land_spec, Hb, Z.pow2_bits_true by lia. reflexivity. }
    rewrite H0, Z.bits_0 in Hk'. discriminate.
  - apply Z.eqb_eq. apply Z.bits_inj'. intros i Hi.
    rewrite Z.land_spec, Z.bits_0.
    destruct (Z.eq_dec i k) as [->|Hne].
    + rewrite Hb. reflexivity.
    + rewrite Z.pow2_bits_false by lia. apply andb_false_r.
Qed.

Lemma Align_to_pow2 (p k : Z) :
  0 <= k < 64 -> 0 <= p -> p + 2 ^ k - 1 < word_modulus ->
  Align_to p (2 ^ k) = align_up p (2 ^ k).
Proof.
  intros Hk Hp Hlt. unfold Align_to, align_up.
  assert (Hpow : 0 < 2 ^ k) by (apply Z.pow_pos_nonneg; lia).
  rewrite (uintnat_small (p + 2 ^ k - 1)) by lia.
  set (x := p + 2 ^ k - 1) in *.
  assert (Hx : 0 <= x) by lia.
  assert (Hmask : Z.land x (uintnat (- 2 ^ k)) = Z.land x (- 2 ^ k)).
  { apply Z.bits_inj'. intros i Hi. rewrite !Z.land_spec.
    destruct (Z_lt_ge_dec i 64) as [Hlo|Hhi].
    - unfold uintnat, word_modulus. rewrite Z.mod_pow2_bits_low by lia.
      reflexivity.
    - assert (Hxi : Z.testbit x i = false).
      { destruct (Z.eq_dec x 0) as [->|Hnz]; [apply Z.bits_0|].
        apply Z.bits_above_log2; [lia|].
        assert (Z.log2 x < 64) by (apply Z.log2_lt_pow2; unfold word_modulus in *; lia).
        lia. }
      rewrite Hxi. reflexivity. }
  rewrite Hmask.
  replace (- 2 ^ k) with (Z.lnot (Z.ones k)).
  2: { rewrite Z.ones_equiv. unfold Z.lnot. lia. }
  change (Z.land x (Z.lnot (Z.ones k))) with (Z.ldiff x (Z.ones k)) || rewrite <- Z.ldiff_land.
  rewrite Z.ldiff_ones_r by lia.
  rewrite Z.shiftl_mul_pow2, Z.shiftr_div_pow2 by lia. reflexivity.
Qed.

Lemma align_up_bounds p n : 0 < n -> p <= align_up p n < p + n.
Proof.
  intros Hn. unfold align_up.
  pose proof (Z.div_mod (p + n - 1) n ltac:(lia)).
  pose proof (Z.mod_pos_bound (p + n - 1) n Hn). nia.
Qed.

Lemma align_up_room p k :
  0 <= k <= 64 -> align_up p (2 ^ k) < word_modulus ->
  p + 2 ^ k - 1 < word_modulus.
Proof.
  intros Hk Hlt. unfold align_up, word_modulus in *.
  assert (Hpow : 0 < 2 ^ k) by (apply Z.pow_pos_nonneg; lia).
  replace (2 ^ 64) with (2 ^ (64 - k) * 2 ^ k) in *
    by (rewrite <- Z.pow_add_r by lia; f_equal; lia).
  set (n := 2 ^ k) in *. set (x := p + n - 1) in *.
  pose proof (Z.div_mod x n ltac:(lia)).
  pose proof (Z.mod_pos_bound x n Hpow).
  assert (x / n < 2 ^ (64 - k)) by nia.
  nia.
Qed.

(** C2.  For a record that lies inside the address space, the parser of
    the runtime computes exactly the next-record address of the
    specification: past the fixed header and the [num_live] live offsets,
    past the allocation-length table when bit 1 is set, past the debug
    words (4-byte aligned; one per allocation entry, or one) when bit 0
    is set and the size word is not the all-ones sentinel, then aligned up
    to pointer width; this for every value of the flag bits. *)
Theorem next_frame_descr_spec (m : memory) (d : Z) :
  0 <= d -> spec_next_record m d < word_modulus ->
  next_frame_descr m d = spec_next_record m d.
Proof.
  intros Hd Hlt. unfold next_frame_descr, spec_next_record in *.
  unfold sizeof_uint32, sizeof_ptr, ushort_minus_one, offsetof_live_ofs in *.
  rewrite (land_pow2_testbit (frame_size m d) 1 ltac:(lia) : (Z.land _ 2 =? 0) = _).
  rewrite (land_pow2_testbit (frame_size m d) 0 ltac:(lia) : (Z.land _ 1 =? 0) = _).
  rewrite !negb_involutive.
  change (2 ^ 16 - 1) with 65535 in *.
  pose proof (load_u16_range m (d + offsetof_num_live)) as Hnl.
  fold (num_live m d) in Hnl.
  set (c0 := d + (8 + 2 + 2) + 2 * num_live m d) in *.
  replace (d + 12 + 2 * num_live m d) with c0 by (unfold c0; lia).
  assert (Hc0 : 0 <= c0) by (unfold c0; lia).
  pose proof (load_u8_range m c0) as Hna.
  pose proof (fun p => align_up_bounds p 4 ltac:(lia)) as A4.
  pose proof (fun p => align_up_bounds p 8 ltac:(lia)) as A8.
  pose proof (fun p => Align_to_pow2 p 2 ltac:(lia)) as T4.
  pose proof (fun p => Align_to_pow2 p 3 ltac:(lia)) as T8.
  change (2 ^ 2) with 4 in T4. change (2 ^ 3) with 8 in T8.
  unfold word_modulus in *.
  destruct (Z.testbit (frame_size m d) 1), (Z.testbit (frame_size m d) 0),
    (frame_size m d =? 65535); simpl in *;
    repeat match type of Hlt with
    | context [align_up ?q ?n] =>
        lazymatch goal with
        | _ : q <= align_up q n < q + n |- _ => fail
        | _ => pose proof (align_up_bounds q n ltac:(lia))
        end
    end;
    pose proof (fun p => align_up_room p 2 ltac:(lia)) as R4;
    pose proof (fun p => align_up_room p 3 ltac:(lia)) as R8;
    change (2 ^ 2) with 4 in R4; change (2 ^ 3) with 8 in R8;
    unfold word_modulus in R4, R8;
    repeat match goal with
    | |- context [uintnat ?z] => rewrite (uintnat_small z) by (unfold word_modulus; lia)
    | |- context [c0 + (?n + 1)] => replace (c0 + (n + 1)) with (c0 + 1 + n) by lia
    | |- context [Align_to ?q 4] =>
        rewrite (T4 q) by (try apply R4; lia)
    | |- context [Align_to ?q 8] =>
        rewrite (T8 q) by (try apply R8; lia)
    end;
    reflexivity.
Qed.

(** ** Linear probing on an array of [2^k] slots *)

Lemma mask_ones k : 0 <= k -> 2 ^ k - 1 = Z.ones k.
Proof. intros Hk. rewrite Z.ones_equiv. lia. Qed.

Lemma Hash_retaddr_range hash a k :
  0 <= k -> 0 <= Hash_retaddr hash a (2 ^ k - 1) < 2 ^ k.
Proof.
  intros Hk. unfold Hash_retaddr. rewrite mask_ones, Z.land_ones by lia.
  apply Z.mod_pos_bound. apply Z.pow_pos_nonneg; lia.
Qed.

Lemma next_slot_mod k h :
  0 <= k < 62 -> 0 <= h < 2 ^ k ->
  next_slot (2 ^ k - 1) h = (h + 1) mod 2 ^ k.
Proof.
  intros Hk Hh. unfold next_slot.
  assert (2 ^ k < 2 ^ 62) by (apply Z.pow_lt_mono_r; lia).
  rewrite uintnat_small by (unfold word_modulus; lia).
  rewrite mask_ones, Z.land_ones by lia. reflexivity.
Qed.

Lemma walk_mod k (j : nat) h :
  0 <= k < 62 -> 0 <= h < 2 ^ k ->
  walk (2 ^ k - 1) j h = (h + Z.of_nat j) mod 2 ^ k.
Proof.
  intros Hk Hh. induction j as [|j IH].
  - simpl. rewrite Z.add_0_r, Z.mod_small; lia.
  - unfold walk in *. simpl. rewrite IH.
    assert (0 < 2 ^ k) by (apply Z.pow_pos_nonneg; lia).
    rewrite next_slot_mod by (try apply Z.mod_pos_bound; lia).
    rewrite Zplus_mod_idemp_l. f_equal. lia.
Qed.

Lemma walk_range k j h :
  0 <= k < 62 -> 0 <= h < 2 ^ k -> 0 <= walk (2 ^ k - 1) j h < 2 ^ k.
Proof.
  intros Hk Hh. rewrite walk_mod by lia.
  apply Z.mod_pos_bound. apply Z.pow_pos_nonneg; lia.
Qed.

Lemma walk_succ mask j h : walk mask (S j) h = walk mask j (next_slot mask h).
Proof. unfold walk. rewrite Nat.iter_succ_r. reflexivity. Qed.

(** From any slot, every slot is met within [2^k] probes. *)
Lemma walk_reaches k h e :
  0 <= k < 62 -> 0 <= h < 2 ^ k -> 0 <= e < 2 ^ k ->
  exists j : nat, Z.of_nat j < 2 ^ k /\ walk (2 ^ k - 1) j h = e.
Proof.
  intros Hk Hh He.
  assert (0 < 2 ^ k) by (apply Z.pow_pos_nonneg; lia).
  exists (Z.to_nat ((e - h) mod 2 ^ k)).
  pose proof (Z.mod_pos_bound (e - h) (2 ^ k) ltac:(lia)).
  split; [lia|].
  rewrite walk_mod, Z2Nat.id by lia.
  rewrite Zplus_mod_idemp_r.
  replace (h + (e - h)) with e by lia. apply Z.mod_small. lia.
Qed.

Lemma slot_at_Some slots h v :
  slot_at slots h = Some v <-> 0 <= h /\ slots !! Z.to_nat h = Some v.
Proof.
  unfold slot_at. destruct (0 <=? h) eqn:E.
  - apply Z.leb_le in E. tauto.
  - apply Z.leb_gt in E. split; [discriminate | lia].
Qed.

Lemma slot_at_in_range slots h :
  0 <= h < Z.of_nat (length slots) -> is_Some (slot_at slots h).
Proof.
  intros Hh. unfold slot_at.
  destruct (0 <=? h) eqn:E; [|apply Z.leb_gt in E; lia].
  apply lookup_lt_is_Some. lia.
Qed.

Lemma slot_at_insert_ne slots (e : nat) h d :
  h <> Z.of_nat e -> slot_at (<[e := d]> slots) h = slot_at slots h.
Proof.
  intros Hne. unfold slot_at. destruct (0 <=? h) eqn:E; [|reflexivity].
  apply Z.leb_le in E. apply list_lookup_insert_ne. lia.
Qed.

Lemma slot_at_insert_eq slots h d :
  0 <= h < Z.of_nat (length slots) ->
  slot_at (<[Z.to_nat h := d]> slots) h = Some d.
Proof.
  intros Hh. apply slot_at_Some. split; [lia|].
  apply list_lookup_insert_eq. lia.
Qed.

(** Counting the occupied slots. *)
Lemma occupied_cons v slots :
  occupied (v :: slots) = ((if decide (v = NULL) then 0 else 1) + occupied slots)%nat.
Proof.
  unfold occupied. rewrite filter_cons.
  destruct (decide (v ≠ NULL)), (decide (v = NULL)); simpl; (reflexivity || contradiction || congruence).
Qed.


Lemma occupied_replicate_NULL n : occupied (replicate n NULL) = 0%nat.
Proof.
  induction n as [|n IH]; [reflexivity|].
  simpl. rewrite occupied_cons, IH. destruct (decide (NULL = NULL)); [reflexivity | congruence].
Qed.

Lemma occupied_insert slots (e : nat) d :
  slots !! e = Some NULL -> d <> NULL ->
  occupied (<[e := d]> slots) = S (occupied slots).
Proof.
  revert e. induction slots as [|v slots IH]; intros e He Hd; [discriminate|].
  destruct e as [|e]; simpl in *.
  - injection He as ->. rewrite !occupied_cons.
    destruct (decide (d = NULL)), (decide (NULL = NULL)); simpl; (reflexivity || congruence).
  - rewrite !occupied_cons, (IH e He Hd). lia.
Qed.

Lemma empty_slot_exists slots :
  (occupied slots < length slots)%nat -> exists e : nat, slots !! e = Some NULL.
Proof.
  induction slots as [|v slots IH]; simpl; [lia|].
  rewrite occupied_cons. destruct (decide (v = NULL)) as [->|Hv]; intros Hlt.
  - exists 0%nat. reflexivity.
  - destruct IH as [e He]; [simpl in Hlt; lia|]. exists (S e). exact He.
Qed.

(** The first empty slot on the way from [h]. *)
Lemma first_empty k slots h :
  0 <= k < 62 -> Z.of_nat (length slots) = 2 ^ k ->
  (occupied slots < length slots)%nat -> 0 <= h < 2 ^ k ->
  exists j : nat,
    Z.of_nat j < 2 ^ k
    /\ slot_at slots (walk (2 ^ k - 1) j h) = Some NULL
    /\ forall i : nat, (i < j)%nat -> busy slots (walk (2 ^ k - 1) i h).
Proof.
  intros Hk Hlen Hocc Hh.
  destruct (empty_slot_exists slots Hocc) as [e He].
  assert (Hel : (e < length slots)%nat) by (eapply lookup_lt_Some; eauto).
  destruct (walk_reaches k h (Z.of_nat e) Hk Hh ltac:(lia)) as (j0 & Hj0 & Hw).
  assert (Hz : slot_at slots (walk (2 ^ k - 1) j0 h) = Some NULL).
  { rewrite Hw. apply slot_at_Some. split; [lia|]. rewrite Nat2Z.id. exact He. }
  clear e He Hel Hw.
  cut (exists j : nat, (j <= j0)%nat
         /\ slot_at slots (walk (2 ^ k - 1) j h) = Some NULL
         /\ forall i : nat, (i < j)%nat -> busy slots (walk (2 ^ k - 1) i h)).
  { intros (j & Hj & Hrest). exists j. split; [lia | exact Hrest]. }
  clear Hj0. revert h Hh Hz. induction j0 as [|j0 IH]; intros h Hh Hz.
  - exists 0%nat. split; [lia|]. split; [exact Hz|]. intros i Hi. lia.
  - destruct (slot_at_in_range slots h ltac:(lia)) as [v Hv].
    destruct (decide (v = NULL)) as [->|Hnz].
    + exists 0%nat. split; [lia|]. split; [exact Hv|]. intros i Hi. lia.
    + rewrite walk_succ in Hz.
      assert (Hn : 0 <= next_slot (2 ^ k - 1) h < 2 ^ k).
      { pose proof (walk_range k 1 h Hk Hh) as W. exact W. }
      destruct (IH _ Hn Hz) as (j & Hj & Hzj & Hbusy).
      exists (S j). split; [lia|]. split.
      * rewrite walk_succ. exact Hzj.
      * intros [|i] Hi.
        -- exists v. split; [exact Hv | exact Hnz].
        -- rewrite walk_succ. apply Hbusy. lia.
Qed.

Lemma slots_probe_empty_path slots mask (j fuel : nat) h :
  slot_at slots (walk mask j h) = Some NULL ->
  (forall i : nat, (i < j)%nat -> busy slots (walk mask i h)) ->
  (j < fuel)%nat ->
  slots_probe_empty fuel slots mask h = Some (walk mask j h).
Proof.
  revert fuel h. induction j as [|j IH]; intros fuel h Hz Hbusy Hfuel;
    (destruct fuel as [|fuel]; [lia|]); cbn [slots_probe_empty].
  - change (walk mask 0 h) with h in *. rewrite Hz. reflexivity.
  - destruct (Hbusy 0%nat ltac:(lia)) as (v & Hv & Hnz).
    change (walk mask 0 h) with h in Hv.
    rewrite Hv. apply Z.eqb_neq in Hnz. rewrite Hnz. cbn [negb].
    change (Z.land (uintnat (h + 1)) mask) with (next_slot mask h).
    rewrite walk_succ in Hz. rewrite (IH fuel (next_slot mask h) Hz).
    + rewrite walk_succ. reflexivity.
    + intros i Hi. rewrite <- walk_succ. apply Hbusy. lia.
    + lia.
Qed.

Section Index.
Variable hash : Z -> Z.
Variable m : memory.

Lemma index_inv_empty k :
  0 <= k < 62 ->
  index_inv hash m k (replicate (Z.to_nat (2 ^ k)) NULL) [].
Proof.
  intros Hk. assert (0 < 2 ^ k) by (apply Z.pow_pos_nonneg; lia).
  constructor.
  - rewrite length_replicate. lia.
  - exact Hk.
  - intros d Hd. apply elem_of_nil in Hd. contradiction.
  - intros i v Hv Hnz. apply lookup_replicate in Hv. tauto.
  - intros d Hd. apply elem_of_nil in Hd. contradiction.
  - apply occupied_replicate_NULL.
Qed.

Lemma busy_insert slots (e : nat) d h :
  slots !! e = Some NULL -> busy slots h -> busy (<[e := d]> slots) h.
Proof.
  intros He (v & Hv & Hnz). exists v. split; [|exact Hnz].
  rewrite slot_at_insert_ne; [exact Hv|].
  intros ->. apply slot_at_Some in Hv as [_ Hv].
  rewrite Nat2Z.id in Hv. congruence.
Qed.

Lemma slots_insert_inv k slots recs d :
  index_inv hash m k slots recs ->
  (length recs < length slots)%nat -> d <> NULL ->
  exists slots',
    (forall fuel : nat, 2 ^ k <= Z.of_nat fuel ->
       slots_insert hash m fuel (2 ^ k - 1) slots d = Some slots')
    /\ index_inv hash m k slots' (recs ++ [d]).
Proof.
  intros [Hsize Hk Hplaced Hsound Hnonnull Hocc] Hroom Hd.
  set (h0 := Hash_retaddr hash (retaddr m d) (2 ^ k - 1)).
  assert (Hh0 : 0 <= h0 < 2 ^ k) by (apply Hash_retaddr_range; lia).
  destruct (first_empty k slots h0 Hk Hsize ltac:(lia) Hh0)
    as (j & Hj & Hz & Hbusy).
  pose proof (walk_range k j h0 Hk Hh0) as Hrange.
  set (e := walk (2 ^ k - 1) j h0) in *.
  assert (He : slots !! Z.to_nat e = Some NULL)
    by (apply slot_at_Some in Hz; tauto).
  exists (<[Z.to_nat e := d]> slots). split.
  { intros fuel Hfuel. unfold slots_insert. fold h0.
    rewrite (slots_probe_empty_path slots (2 ^ k - 1) j fuel h0 Hz Hbusy)
      by lia.
    reflexivity. }
  constructor.
  - rewrite length_insert. exact Hsize.
  - exact Hk.
  - intros d' Hd'. apply elem_of_app in Hd' as [Hd'|Hd'].
    + destruct (Hplaced d' Hd') as (j' & Hj' & Hat & Hb).
      exists j'. rewrite length_insert. split; [exact Hj'|]. split.
      * rewrite slot_at_insert_ne; [exact Hat|].
        intros Heq. rewrite Heq in Hat. apply slot_at_Some in Hat as [_ Hat].
        rewrite Nat2Z.id in Hat.
        assert (d' = NULL) by congruence. apply (Hnonnull d' Hd'). assumption.
      * intros i Hi. apply busy_insert; [exact He | apply Hb; exact Hi].
    + apply list_elem_of_singleton in Hd'. subst d'.
      exists j. rewrite length_insert. split; [lia|]. split.
      * fold h0. fold e. apply slot_at_insert_eq. lia.
      * intros i Hi. fold h0. apply busy_insert; [exact He | apply Hbusy; exact Hi].
  - intros i v Hv Hnz. apply elem_of_app.
    destruct (decide (i = Z.to_nat e)) as [->|Hne].
    + rewrite list_lookup_insert_eq in Hv by (eapply lookup_lt_Some; eauto).
      right. apply list_elem_of_singleton. congruence.
    + rewrite list_lookup_insert_ne in Hv by congruence.
      left. eapply Hsound; eauto.
  - intros d' Hd'. apply elem_of_app in Hd' as [Hd'|Hd'].
    + apply Hnonnull. exact Hd'.
    + apply list_elem_of_singleton in Hd'. congruence.
  - rewrite occupied_insert by assumption.
    rewrite length_app, Hocc. simpl. lia.
Qed.

Lemma slots_fill_inv k new : forall slots recs,
  index_inv hash m k slots recs ->
  (length recs + length new < length slots)%nat ->
  Forall (fun d => d <> NULL) new ->
  exists slots',
    (forall fuel : nat, 2 ^ k <= Z.of_nat fuel ->
       slots_fill hash m fuel (2 ^ k - 1) slots new = Some slots')
    /\ index_inv hash m k slots' (recs ++ new).
Proof.
  induction new as [|d new IH]; intros slots recs Hinv Hroom Hnn.
  - exists slots. rewrite app_nil_r. auto.
  - apply Forall_cons in Hnn as [Hd Hnn]. simpl in Hroom.
    destruct (slots_insert_inv k slots recs d Hinv ltac:(lia) Hd)
      as (slots1 & Hins & Hinv1).
    assert (Hlen : length slots1 = length slots).
    { apply Nat2Z.inj. rewrite (inv_size _ _ _ _ _ Hinv1).
      rewrite (inv_size _ _ _ _ _ Hinv). reflexivity. }
    destruct (IH slots1 (recs ++ [d]) Hinv1) as (slots' & Hfill & Hinv');
      [rewrite length_app; simpl; lia | exact Hnn |].
    exists slots'. split.
    + intros fuel Hfuel. simpl. rewrite (Hins fuel Hfuel). apply Hfill, Hfuel.
    + rewrite <- app_assoc in Hinv'. exact Hinv'.
Qed.

(** The lookup loop, along a run of busy slots. *)
Lemma slots_find_path slots mask pc (j fuel : nat) h r :
  slot_at slots (walk mask j h) = Some r -> r <> NULL -> retaddr m r = pc ->
  (forall i : nat, (i < j)%nat ->
     exists v, slot_at slots (walk mask i h) = Some v /\ v <> NULL
               /\ (retaddr m v = pc -> v = r)) ->
  (j < fuel)%nat ->
  slots_find m fuel slots mask pc h = Some r.
Proof.
  revert fuel h. induction j as [|j IH]; intros fuel h Hat Hr Hpc Hpath Hfuel;
    (destruct fuel as [|fuel]; [lia|]); cbn [slots_find].
  - change (walk mask 0 h) with h in Hat. rewrite Hat.
    apply Z.eqb_neq in Hr. unfold NULL in Hr. rewrite Hr.
    apply Z.eqb_eq in Hpc. rewrite Hpc. reflexivity.
  - destruct (Hpath 0%nat ltac:(lia)) as (v & Hv & Hnz & Hsame).
    change (walk mask 0 h) with h in Hv. rewrite Hv.
    apply Z.eqb_neq in Hnz. unfold NULL in Hnz. rewrite Hnz.
    destruct (retaddr m v =? pc) eqn:E.
    + apply Z.eqb_eq in E. f_equal. apply Hsame. exact E.
    + change (Z.land (uintnat (h + 1)) mask) with (next_slot mask h).
      rewrite walk_succ in Hat. apply IH; try assumption; [|lia].
      intros i Hi. rewrite <- walk_succ. apply Hpath. lia.
Qed.

Lemma slots_find_stop slots mask pc (j fuel : nat) h :
  slot_at slots (walk mask j h) = Some NULL ->
  (forall i : nat, (i < j)%nat -> busy slots (walk mask i h)) ->
  (j < fuel)%nat ->
  exists d,
    slots_find m fuel slots mask pc h = Some d
    /\ (d = NULL
        \/ exists i : nat, slot_at slots (walk mask i h) = Some d
              /\ d <> NULL /\ retaddr m d = pc).
Proof.
  revert fuel h. induction j as [|j IH]; intros fuel h Hz Hbusy Hfuel;
    (destruct fuel as [|fuel]; [lia|]); cbn [slots_find].
  - change (walk mask 0 h) with h in Hz. rewrite Hz.
    exists NULL. split; [reflexivity | left; reflexivity].
  - destruct (Hbusy 0%nat ltac:(lia)) as (v & Hv & Hnz).
    change (walk mask 0 h) with h in Hv. rewrite Hv.
    pose proof Hnz as Hnz'. apply Z.eqb_neq in Hnz'. unfold NULL in Hnz'.
    rewrite Hnz'.
    destruct (retaddr m v =? pc) eqn:E.
    + apply Z.eqb_eq in E. exists v. split; [reflexivity|]. right.
      exists 0%nat. auto.
    + change (Z.land (uintnat (h + 1)) mask) with (next_slot mask h).
      rewrite walk_succ in Hz.
      destruct (IH fuel (next_slot mask h) Hz) as (d & Hfind & Hd).
      * intros i Hi. rewrite <- walk_succ. apply Hbusy. lia.
      * lia.
      * exists d. split; [exact Hfind|].
        destruct Hd as [->|(i & Hi)]; [left; reflexivity|].
        right. exists (S i). rewrite walk_succ. exact Hi.
Qed.

Lemma retaddr_unique (recs : list Z) x y :
  NoDup (map (retaddr m) recs) -> x ∈ recs -> y ∈ recs ->
  retaddr m x = retaddr m y -> x = y.
Proof.
  induction recs as [|a recs IH]; intros Hnd Hx Hy Heq.
  - apply elem_of_nil in Hx. contradiction.
  - simpl in Hnd. apply NoDup_cons in Hnd as [Hnotin Hnd].
    apply elem_of_cons in Hx as [->|Hx]; apply elem_of_cons in Hy as [->|Hy].
    + reflexivity.
    + exfalso. apply Hnotin. rewrite Heq.
      apply (list_elem_of_fmap_2 (retaddr m)). exact Hy.
    + exfalso. apply Hnotin. rewrite <- Heq.
      apply (list_elem_of_fmap_2 (retaddr m)). exact Hx.
    + apply IH; assumption.
Qed.

Lemma slot_at_sound k slots recs h v :
  index_inv hash m k slots recs ->
  slot_at slots h = Some v -> v <> NULL -> v ∈ recs.
Proof.
  intros Hinv Hat Hnz. apply slot_at_Some in Hat as [_ Hat].
  eapply (inv_sound _ _ _ _ _ Hinv); eauto.
Qed.

(** A registered return address is found, and the record found is the
    registered one. *)
Lemma slots_find_hit k slots recs r fuel :
  index_inv hash m k slots recs ->
  NoDup (map (retaddr m) recs) -> r ∈ recs ->
  2 ^ k <= Z.of_nat fuel ->
  slots_find m fuel slots (2 ^ k - 1) (retaddr m r)
    (Hash_retaddr hash (retaddr m r) (2 ^ k - 1)) = Some r.
Proof.
  intros Hinv Hnd Hr Hfuel.
  destruct (inv_placed _ _ _ _ _ Hinv r Hr) as (j & Hj & Hat & Hbusy).
  pose proof (inv_size _ _ _ _ _ Hinv) as Hsize.
  apply (slots_find_path slots _ _ j); try assumption.
  - apply (inv_nonnull _ _ _ _ _ Hinv). exact Hr.
  - reflexivity.
  - intros i Hi. destruct (Hbusy i Hi) as (v & Hv & Hnz).
    exists v. split; [exact Hv|]. split; [exact Hnz|].
    intros Heq. apply (retaddr_unique recs); try assumption.
    eapply slot_at_sound; eauto.
  - lia.
Qed.

(** Any probe ends: at an empty slot, or at a record with the address
    looked for. *)
Lemma slots_find_total k slots recs pc fuel :
  index_inv hash m k slots recs ->
  (length recs < length slots)%nat ->
  2 ^ k <= Z.of_nat fuel ->
  exists d,
    slots_find m fuel slots (2 ^ k - 1) pc
      (Hash_retaddr hash pc (2 ^ k - 1)) = Some d
    /\ (d = NULL \/ (d ∈ recs /\ retaddr m d = pc)).
Proof.
  intros Hinv Hroom Hfuel.
  pose proof (inv_size _ _ _ _ _ Hinv) as Hsize.
  pose proof (inv_k _ _ _ _ _ Hinv) as Hk.
  pose proof (inv_occupied _ _ _ _ _ Hinv) as Hocc.
  assert (Hh0 : 0 <= Hash_retaddr hash pc (2 ^ k - 1) < 2 ^ k)
    by (apply Hash_retaddr_range; lia).
  destruct (first_empty k slots _ Hk Hsize ltac:(lia) Hh0)
    as (j & Hj & Hz & Hbusy).
  destruct (slots_find_stop slots (2 ^ k - 1) pc j fuel _ Hz Hbusy ltac:(lia))
    as (d & Hfind & Hd).
  exists d. split; [exact Hfind|].
  destruct Hd as [->|(i & Hat & Hnz & Hpc)]; [left; reflexivity|].
  right. split; [|exact Hpc]. eapply slot_at_sound; eauto.
Qed.

(** An address that was never registered is reported absent. *)
Lemma slots_find_miss k slots recs pc fuel :
  index_inv hash m k slots recs ->
  (length recs < length slots)%nat ->
  pc ∉ map (retaddr m) recs ->
  2 ^ k <= Z.of_nat fuel ->
  slots_find m fuel slots (2 ^ k - 1) pc
    (Hash_retaddr hash pc (2 ^ k - 1)) = Some NULL.
Proof.
  intros Hinv Hroom Hpc Hfuel.
  destruct (slots_find_total k slots recs pc fuel Hinv Hroom Hfuel)
    as (d & Hfind & [->|[Hd Heq]]); [exact Hfind|].
  exfalso. apply Hpc. rewrite <- Heq.
  apply (list_elem_of_fmap_2 (retaddr m)). exact Hd.
Qed.
End Index.

(** ** The loops on the heap follow the loops on the plain array *)

Lemma set_array_lookup a l st : heap (set_array a l st) !! a = Some (Descrs l).
Proof. unfold set_array. simpl. apply lookup_insert_eq. Qed.

Lemma set_array_twice a l1 l2 st :
  set_array a l2 (set_array a l1 st) = set_array a l2 st.
Proof.
  unfold set_array, with_heap. simpl. rewrite insert_insert_eq. reflexivity.
Qed.

Lemma set_array_same a l st :
  heap st !! a = Some (Descrs l) -> set_array a l st = st.
Proof.
  intros H. unfold set_array, with_heap. rewrite insert_id by exact H.
  destruct st; reflexivity.
Qed.

Lemma load_slot_eq a h st l v :
  heap st !! a = Some (Descrs l) -> slot_at l h = Some v ->
  load_slot a h st = Ok v st.
Proof.
  intros Ha Hv. unfold load_slot. rewrite Ha.
  apply slot_at_Some in Hv as [Hh Hv].
  destruct (0 <=? h) eqn:E; [|apply Z.leb_gt in E; lia].
  rewrite Hv. reflexivity.
Qed.

Lemma store_slot_eq a h v st l :
  heap st !! a = Some (Descrs l) -> 0 <= h < Z.of_nat (length l) ->
  store_slot a h v st = Ok tt (set_array a (<[Z.to_nat h := v]> l) st).
Proof.
  intros Ha Hh. unfold store_slot. rewrite Ha.
  destruct (0 <=? h) eqn:E1; [|apply Z.leb_gt in E1; lia].
  destruct (h <? Z.of_nat (length l)) eqn:E2; [|apply Z.ltb_ge in E2; lia].
  reflexivity.
Qed.

Lemma slots_probe_empty_found fuel slots mask h h' :
  slots_probe_empty fuel slots mask h = Some h' ->
  slot_at slots h' = Some NULL.
Proof.
  revert h. induction fuel as [|fuel IH]; intros h; simpl; [discriminate|].
  destruct (slot_at slots h) as [v|] eqn:Hv; [|discriminate].
  destruct (v =? NULL) eqn:E; simpl.
  - intros [= <-]. apply Z.eqb_eq in E. congruence.
  - apply IH.
Qed.

Lemma probe_empty_sim fuel t h st l h' :
  heap st !! descriptors t = Some (Descrs l) ->
  slots_probe_empty fuel l (mask t) h = Some h' ->
  probe_empty fuel t h st = Ok h' st.
Proof.
  intros Ha. revert h. induction fuel as [|fuel IH]; intros h; simpl;
    [discriminate|].
  destruct (slot_at l h) as [v|] eqn:Hv; [|discriminate].
  unfold bind. rewrite (load_slot_eq _ _ _ _ _ Ha Hv).
  destruct (v =? NULL); simpl.
  - intros [= <-]. reflexivity.
  - apply IH.
Qed.

Lemma insert_descr_sim hash m fuel t tblsize d st l l' :
  heap st !! descriptors t = Some (Descrs l) -> mask t = tblsize - 1 ->
  slots_insert hash m fuel (mask t) l d = Some l' ->
  insert_descr hash m fuel t tblsize d st
  = Ok tt (set_array (descriptors t) l' st).
Proof.
  intros Ha Hmask. unfold slots_insert, insert_descr. rewrite <- Hmask.
  destruct (slots_probe_empty fuel l (mask t) _) as [h'|] eqn:Hp; [|discriminate].
  intros [= <-]. unfold bind. rewrite (probe_empty_sim _ _ _ _ _ _ Ha Hp).
  apply slots_probe_empty_found in Hp. apply slot_at_Some in Hp as [Hh Hp].
  apply store_slot_eq; [exact Ha|].
  apply lookup_lt_Some in Hp. lia.
Qed.

Lemma fill_table_sim hash m fuel t tblsize n : forall d st l l',
  heap st !! descriptors t = Some (Descrs l) -> mask t = tblsize - 1 ->
  slots_fill hash m fuel (mask t) l (table_records m n d) = Some l' ->
  fill_table hash m fuel t tblsize n d st
  = Ok tt (set_array (descriptors t) l' st).
Proof.
  induction n as [|n IH]; intros d st l l' Ha Hmask; simpl.
  - intros [= <-]. unfold ret. rewrite set_array_same; auto.
  - destruct (slots_insert hash m fuel (mask t) l d) as [l1|] eqn:Hins;
      [|discriminate].
    intros Hfill. unfold bind.
    rewrite (insert_descr_sim _ _ _ _ _ _ _ _ _ Ha Hmask Hins).
    rewrite (IH _ _ l1 l' (set_array_lookup _ _ _) Hmask Hfill).
    rewrite set_array_twice. reflexivity.
Qed.

Lemma slots_fill_app hash m fuel mask xs : forall l ys,
  slots_fill hash m fuel mask l (xs ++ ys)
  = match slots_fill hash m fuel mask l xs with
    | Some l1 => slots_fill hash m fuel mask l1 ys
    | None => None
    end.
Proof.
  induction xs as [|x xs IH]; intros l ys; simpl; [reflexivity|].
  destruct (slots_insert hash m fuel mask l x); [apply IH | reflexivity].
Qed.

Lemma fill_chain_sim hash m fuel t tblsize chain : forall st l l',
  heap st !! descriptors t = Some (Descrs l) -> mask t = tblsize - 1 ->
  slots_fill hash m fuel (mask t) l (chain_records m chain) = Some l' ->
  fill_chain hash m fuel t tblsize chain st
  = Ok tt (set_array (descriptors t) l' st).
Proof.
  induction chain as [|tbl chain IH]; intros st l l' Ha Hmask; simpl.
  - intros [= <-]. unfold ret. rewrite set_array_same; auto.
  - rewrite slots_fill_app.
    destruct (slots_fill hash m fuel (mask t) l (records_of m tbl))
      as [l1|] eqn:Hfill1; [|discriminate].
    intros Hfill. unfold bind.
    unfold records_of in Hfill1.
    rewrite (fill_table_sim _ _ _ _ _ _ _ _ _ _ Ha Hmask Hfill1).
    rewrite (IH _ l1 l' (set_array_lookup _ _ _) Hmask Hfill).
    rewrite set_array_twice. reflexivity.
Qed.

Lemma clear_slots_spec a n : forall st pre post,
  heap st !! a = Some (Descrs (pre ++ post)) -> length post = n ->
  clear_slots n a (Z.of_nat (length pre)) st
  = Ok tt (set_array a (pre ++ replicate n NULL) st).
Proof.
  induction n as [|n IH]; intros st pre post Ha Hlen; simpl.
  - destruct post; [|discriminate]. unfold ret.
    rewrite set_array_same; auto.
  - destruct post as [|x post]; [discriminate|]. injection Hlen as Hlen.
    unfold bind. rewrite (store_slot_eq _ _ _ _ _ Ha)
      by (rewrite length_app; simpl; lia).
    rewrite Nat2Z.id.
    replace (<[length pre := NULL]> (pre ++ x :: post))
      with ((pre ++ [NULL]) ++ post).
    2: { rewrite insert_app_r_alt by lia. rewrite Nat.sub_diag. simpl.
         rewrite <- app_assoc. reflexivity. }
    replace (Z.of_nat (length pre) + 1) with (Z.of_nat (length (pre ++ [NULL])))
      by (rewrite length_app; simpl; lia).
    rewrite (IH _ (pre ++ [NULL]) post (set_array_lookup _ _ _) Hlen).
    rewrite set_array_twice, <- app_assoc. reflexivity.
Qed.

(** ** Counting the descriptors and sizing the table *)

Lemma intnat_small z : - 2 ^ 63 <= z < 2 ^ 63 -> intnat z = z.
Proof.
  intros H. unfold intnat, word_modulus. rewrite Z.mod_small; lia.
Qed.

Lemma length_table_records m n d : length (table_records m n d) = n.
Proof. revert d. induction n as [|n IH]; intros d; simpl; auto. Qed.

Lemma length_records_of m tbl :
  length (records_of m tbl) = Z.to_nat (load_intnat m tbl).
Proof. apply length_table_records. Qed.

Lemma count_descrs_spec m chain : forall acc,
  forallb (fun tbl => 0 <=? load_intnat m tbl) chain = true ->
  0 <= acc -> acc + Z.of_nat (length (chain_records m chain)) < 2 ^ 63 ->
  count_descrs m chain acc = acc + Z.of_nat (length (chain_records m chain)).
Proof.
  induction chain as [|tbl chain IH]; intros acc Hpos Hacc Hlt; simpl in *.
  - lia.
  - apply andb_true_iff in Hpos as [Hc Hpos]. apply Z.leb_le in Hc.
    rewrite length_app, length_records_of in *.
    rewrite intnat_small by lia. rewrite IH by (try assumption; lia). lia.
Qed.

Lemma pow2_lt_mono a b : 0 <= a < b -> 2 ^ a < 2 ^ b.
Proof. intros H. apply Z.pow_lt_mono_r; lia. Qed.

Lemma pow2_le_mono a b : 0 <= a <= b -> 2 ^ a <= 2 ^ b.
Proof. intros H. apply Z.pow_le_mono_r; lia. Qed.

Lemma grow_tblsize_from n (gap : nat) : forall k,
  0 <= n -> 2 * n < 2 ^ 60 ->
  2 <= k -> k + Z.of_nat gap = 60 ->
  (k = 2 \/ 2 ^ (k - 1) < 2 * n) ->
  exists k',
    k <= k' <= 60 /\ 2 * n <= 2 ^ k' /\ (k' = 2 \/ 2 ^ (k' - 1) < 2 * n)
    /\ forall fuel : nat, (gap < fuel)%nat ->
         grow_tblsize fuel (2 ^ k) n = Some (2 ^ k').
Proof.
  induction gap as [|gap IH]; intros k Hn Hlt Hk Hgap Hmin.
  - assert (k = 60) by lia. subst k. exists 60.
    split; [lia|]. split; [lia|]. split; [exact Hmin|].
    intros [|fuel] Hfuel; [lia|]. cbn [grow_tblsize].
    rewrite intnat_small by lia.
    destruct (2 ^ 60 <? 2 * n) eqn:E; [apply Z.ltb_lt in E; lia | reflexivity].
  - pose proof (pow2_lt_mono k 61 ltac:(lia)) as Hk61.
    pose proof (pow2_le_mono 2 k ltac:(lia)) as Hk2.
    destruct (Z_lt_ge_dec (2 ^ k) (2 * n)) as [Hsmall|Hbig].
    + destruct (IH (k + 1) Hn Hlt ltac:(lia) ltac:(lia)) as (k' & Hk' & Hge & Hmin' & Hrun).
      { right. replace (k + 1 - 1) with k by lia. exact Hsmall. }
      exists k'. split; [lia|]. split; [exact Hge|]. split; [exact Hmin'|].
      intros [|fuel] Hfuel; [lia|]. cbn [grow_tblsize].
      rewrite (intnat_small (2 * n)) by lia.
      apply Z.ltb_lt in Hsmall. rewrite Hsmall.
      rewrite intnat_small by (change (2 ^ 61) with 2305843009213693952 in *; lia).
      replace (2 ^ k * 2) with (2 ^ (k + 1))
        by (rewrite Z.pow_add_r by lia; lia).
      apply Hrun. lia.
    + exists k. split; [lia|]. split; [lia|]. split; [exact Hmin|].
      intros [|fuel] Hfuel; [lia|]. cbn [grow_tblsize].
      rewrite (intnat_small (2 * n)) by lia.
      destruct (2 ^ k <? 2 * n) eqn:E; [apply Z.ltb_lt in E; lia | reflexivity].
Qed.

(** The table size chosen for [n] descriptors: a power of two, at least
    4 and at least [2 * n], and the smallest such. *)
Lemma grow_tblsize_spec n :
  0 <= n < 2 ^ 59 ->
  exists k,
    2 <= k <= 60 /\ 2 * n <= 2 ^ k /\ (k = 2 \/ 2 ^ (k - 1) < 2 * n)
    /\ forall fuel : nat, (64 <= fuel)%nat ->
         grow_tblsize fuel 4 n = Some (2 ^ k).
Proof.
  intros Hn.
  destruct (grow_tblsize_from n 58 2 ltac:(lia) ltac:(lia) ltac:(lia) ltac:(lia)
              ltac:(left; reflexivity)) as (k & Hk & Hge & Hmin & Hrun).
  exists k. split; [lia|]. split; [exact Hge|]. split; [exact Hmin|].
  intros fuel Hfuel. apply (Hrun fuel). lia.
Qed.

Lemma wf_tables_unpack m chain :
  wf_tables m chain = true ->
  forallb (fun tbl => 0 <=? load_intnat m tbl) chain = true
  /\ Z.of_nat (length (chain_records m chain)) < 2 ^ 59
  /\ Forall (fun d => d <> NULL) (chain_records m chain).
Proof.
  unfold wf_tables. rewrite !andb_true_iff. intros [[H1 H2] H3].
  split; [exact H1|]. split; [apply Z.ltb_lt; exact H2|].
  apply Forall_forall. intros d Hd.
  rewrite forallb_forall in H3. specialize (H3 d).
  rewrite <- list_elem_of_In in H3. specialize (H3 Hd).
  apply negb_true_iff, Z.eqb_neq in H3. exact H3.
Qed.

Section Build.
Variable hash : Z -> Z.
Variable m : memory.

(** What the builder returns on well-formed tables: an array of [2^k]
    slots at a fresh address, satisfying the probing invariant for the
    records of the chain. *)
Lemma build_frame_descriptors_spec chain :
  wf_tables m chain = true ->
  exists k l,
    2 <= k <= 60
    /\ 2 * Z.of_nat (length (chain_records m chain)) <= 2 ^ k
    /\ (k = 2 \/ 2 ^ (k - 1) < 2 * Z.of_nat (length (chain_records m chain)))
    /\ index_inv hash m k l (chain_records m chain)
    /\ (forall fuel : nat, (64 <= fuel)%nat ->
          grow_tblsize fuel 4 (count_descrs m chain 0) = Some (2 ^ k))
    /\ forall (fuel : nat) st n,
         2 ^ k + 64 <= Z.of_nat fuel -> avail st = S n ->
         build_frame_descriptors hash m fuel chain st
         = Ok (mk_frame_descrs (alloc_addr st) (2 ^ k - 1))
             (mk_state (<[alloc_addr st := Descrs l]> (heap st)) n
                (frametables st) (current_frametable st)
                (caml_major_cycles_completed st)).
Proof.
  intros Hwf. apply wf_tables_unpack in Hwf as (Hcounts & Hlen & Hnn).
  set (recs := chain_records m chain) in *.
  assert (Hcount : count_descrs m chain 0 = Z.of_nat (length recs)).
  { rewrite count_descrs_spec by (try assumption; fold recs; lia).
    fold recs. lia. }
  destruct (grow_tblsize_spec (Z.of_nat (length recs)) ltac:(lia))
    as (k & Hk & Hge & Hmin & Hgrow).
  pose proof (pow2_le_mono 2 k ltac:(lia)) as Hk2.
  pose proof (pow2_lt_mono k 61 ltac:(lia)) as Hk61.
  change (2 ^ 2) with 4 in Hk2.
  destruct (slots_fill_inv hash m k recs
              (replicate (Z.to_nat (2 ^ k)) NULL) [])
    as (l & Hfill & Hinv).
  { apply index_inv_empty. lia. }
  { rewrite length_replicate. simpl. lia. }
  { exact Hnn. }
  exists k, l. split; [exact Hk|]. split; [exact Hge|]. split; [exact Hmin|].
  split; [exact Hinv|]. split.
  { intros fuel Hfuel. rewrite Hcount. apply Hgrow, Hfuel. }
  intros fuel st n Hfuel Havail.
  unfold build_frame_descriptors.
  rewrite Hcount, (Hgrow fuel) by lia.
  unfold bind at 1. unfold caml_stat_alloc. rewrite Havail.
  unfold sizeof_ptr.
  rewrite uintnat_small
    by (unfold word_modulus; change (2 ^ 61) with 2305843009213693952 in *; lia).
  rewrite Z.div_mul by lia.
  set (a := alloc_addr st).
  set (st1 := mk_state _ n _ _ _).
  assert (Ha1 : heap st1 !! a
                = Some (Descrs ([] ++ replicate (Z.to_nat (2 ^ k)) uninit)))
    by (unfold st1; simpl; apply lookup_insert_eq).
  unfold bind at 1.
  pose proof (clear_slots_spec a (Z.to_nat (2 ^ k)) st1 [] _ Ha1
                (length_replicate _ _)) as Hclear.
  change (Z.of_nat (length [])) with 0 in Hclear.
  rewrite Hclear. simpl app.
  unfold bind at 1.
  rewrite (fill_chain_sim hash m fuel (mk_frame_descrs a (2 ^ k - 1)) (2 ^ k)
             chain _ _ l (set_array_lookup _ _ _) eq_refl).
  2: { simpl mask. apply Hfill. lia. }
  unfold ret. f_equal. simpl descriptors.
  rewrite set_array_twice. unfold set_array, with_heap, st1. simpl.
  rewrite insert_insert_eq. reflexivity.
Qed.
End Build.

Lemma find_loop_sim m fuel fds pc st l : forall h d,
  heap st !! descriptors fds = Some (Descrs l) ->
  slots_find m fuel l (mask fds) pc h = Some d ->
  find_loop m fuel fds pc h st = Ok d st.
Proof.
  induction fuel as [|fuel IH]; intros h d Ha; simpl; [discriminate|].
  destruct (slot_at l h) as [v|] eqn:Hv; [|discriminate].
  unfold bind. rewrite (load_slot_eq _ _ _ _ _ Ha Hv).
  destruct (v =? 0); [intros [= <-]; reflexivity|].
  destruct (retaddr m v =? pc); [intros [= <-]; reflexivity|].
  apply IH. exact Ha.
Qed.

Lemma tblsize_le_fuel k (len fuel : nat) :
  2 <= k -> (k = 2 \/ 2 ^ (k - 1) < 2 * Z.of_nat len) ->
  (4 * len + 68 <= fuel)%nat -> 2 ^ k + 64 <= Z.of_nat fuel.
Proof.
  intros Hk [->|Hmin] Hfuel.
  - change (2 ^ 2) with 4. lia.
  - replace k with (k - 1 + 1) by lia.
    rewrite Z.pow_add_r by lia. lia.
Qed.

Section Claims_on_the_index.
Variable hash : Z -> Z.
Variable m : memory.

(** C5.  For the descriptor count [n] of a well-formed chain, the
    builder takes for [tblsize] the smallest power of two that is at
    least [2 * n] and at least 4, and the table it returns has
    [tblsize] slots of which at most [tblsize / 2] are occupied. *)
Theorem tblsize_smallest_power_of_two
    (chain : list Z) (fuel : nat) (st : state) (n : nat) :
  wf_tables m chain = true ->
  (4 * length (chain_records m chain) + 68 <= fuel)%nat ->
  avail st = S n ->
  exists k fds st' l,
    grow_tblsize fuel 4 (count_descrs m chain 0) = Some (2 ^ k)
    /\ 0 <= k /\ 4 <= 2 ^ k /\ 2 * count_descrs m chain 0 <= 2 ^ k
    /\ (forall j, 0 <= j -> 4 <= 2 ^ j ->
          2 * count_descrs m chain 0 <= 2 ^ j -> 2 ^ k <= 2 ^ j)
    /\ build_frame_descriptors hash m fuel chain st = Ok fds st'
    /\ mask fds = 2 ^ k - 1
    /\ heap st' !! descriptors fds = Some (Descrs l)
    /\ Z.of_nat (length l) = 2 ^ k
    /\ Z.of_nat (occupied l) <= 2 ^ k / 2.
Proof.
  intros Hwf Hfuel Havail.
  destruct (build_frame_descriptors_spec hash m chain Hwf)
    as (k & l & Hk & Hge & Hmin & Hinv & Hgrow & Hbuild).
  pose proof (tblsize_le_fuel k _ fuel ltac:(lia) Hmin Hfuel) as Hfuel'.
  pose proof (pow2_le_mono 2 k ltac:(lia)) as Hk2. change (2 ^ 2) with 4 in Hk2.
  apply wf_tables_unpack in Hwf as (Hcounts & Hlen & Hnn).
  assert (Hcount : count_descrs m chain 0
                   = Z.of_nat (length (chain_records m chain))).
  { rewrite count_descrs_spec by (try assumption; lia). lia. }
  eexists k, _, _, l.
  split; [apply Hgrow; lia|]. split; [lia|]. split; [exact Hk2|].
  split; [rewrite Hcount; exact Hge|]. split.
  { intros j Hj Hj4 Hj2. rewrite Hcount in Hj2.
    destruct Hmin as [->|Hmin]; [exact Hj4|].
    apply pow2_le_mono. split; [lia|].
    destruct (Z_lt_ge_dec j k) as [Hlt|]; [|lia].
    pose proof (pow2_le_mono j (k - 1) ltac:(lia)). lia. }
  split; [apply Hbuild; [exact Hfuel' | exact Havail]|].
  split; [reflexivity|]. split; [simpl; apply lookup_insert_eq|].
  split; [apply (inv_size _ _ _ _ _ Hinv)|].
  rewrite (inv_occupied _ _ _ _ _ Hinv).
  apply Z.div_le_lower_bound; lia.
Qed.

(** C6.  In a table built from well-formed tables there is an empty
    slot, and the probe for any program counter, registered or not,
    ends: with [NULL] at an empty slot, or with a registered record
    whose return address is the one asked for. *)
Theorem probe_terminates
    (chain : list Z) (fuel : nat) (st : state) (n : nat) :
  wf_tables m chain = true ->
  (4 * length (chain_records m chain) + 68 <= fuel)%nat ->
  avail st = S n ->
  exists fds st' l,
    build_frame_descriptors hash m fuel chain st = Ok fds st'
    /\ heap st' !! descriptors fds = Some (Descrs l)
    /\ (exists e : nat, l !! e = Some NULL)
    /\ forall pc, exists d,
         caml_find_frame_descr hash m fuel fds pc st' = Ok d st'
         /\ (d = NULL \/ (d ∈ chain_records m chain /\ retaddr m d = pc)).
Proof.
  intros Hwf Hfuel Havail.
  destruct (build_frame_descriptors_spec hash m chain Hwf)
    as (k & l & Hk & Hge & Hmin & Hinv & _ & Hbuild).
  pose proof (tblsize_le_fuel k _ fuel ltac:(lia) Hmin Hfuel) as Hfuel'.
  pose proof (pow2_le_mono 2 k ltac:(lia)) as Hk2. change (2 ^ 2) with 4 in Hk2.
  pose proof (inv_size _ _ _ _ _ Hinv) as Hsize.
  pose proof (inv_occupied _ _ _ _ _ Hinv) as Hocc.
  assert (Hroom : (length (chain_records m chain) < length l)%nat) by lia.
  eexists _, _, l. split; [apply Hbuild; [exact Hfuel' | exact Havail]|].
  set (st' := mk_state _ n _ _ _).
  assert (Ha : heap st' !! alloc_addr st = Some (Descrs l))
    by (unfold st'; simpl; apply lookup_insert_eq).
  split; [exact Ha|]. split; [apply empty_slot_exists; lia|].
  intros pc.
  destruct (slots_find_total hash m k l _ pc fuel Hinv Hroom ltac:(lia))
    as (d & Hfind & Hd).
  exists d. split; [|exact Hd].
  unfold caml_find_frame_descr.
  apply (find_loop_sim m fuel _ _ st' l); [exact Ha | exact Hfind].
Qed.

End Claims_on_the_index.

(** ** What the operations do to the heap *)

Lemma alloc_addr_fresh st : heap st !! alloc_addr st = None.
Proof.
  unfold alloc_addr. apply not_elem_of_dom.
  pose proof (is_fresh (dom (heap st) ∪ {[NULL]})) as Hf. set_solver.
Qed.

Lemma alloc_addr_nonnull st : alloc_addr st <> NULL.
Proof.
  unfold alloc_addr.
  pose proof (is_fresh (dom (heap st) ∪ {[NULL]})) as Hf. set_solver.
Qed.

Lemma caml_stat_alloc_eq b st :
  caml_stat_alloc b st
  = match avail st with
    | O => Fatal st
    | S _ => Ok (alloc_addr st) (alloc_state b st)
    end.
Proof.
  unfold caml_stat_alloc, alloc_state. destruct (avail st); reflexivity.
Qed.

Lemma array_op_ret {A} a (x : A) : array_op a (ret x).
Proof.
  intros st l Hl. simpl. exists l. symmetry. apply set_array_same. exact Hl.
Qed.

Lemma array_op_diverge {A} a : array_op a (@diverge A).
Proof. intros st l Hl. exact I. Qed.

Lemma array_op_bind {A B} a (c : M A) (k : A -> M B) :
  array_op a c -> (forall x, array_op a (k x)) -> array_op a (bind c k).
Proof.
  intros Hc Hk st l Hl. unfold bind. specialize (Hc st l Hl).
  destruct (c st) as [x st1| | |]; try exact Hc.
  destruct Hc as [l1 ->].
  specialize (Hk x (set_array a l1 st) l1 (set_array_lookup _ _ _)).
  destruct (k x (set_array a l1 st)) as [y st2| | |]; try exact Hk.
  destruct Hk as [l2 ->]. exists l2. apply set_array_twice.
Qed.

Lemma array_op_load_slot a h : array_op a (load_slot a h).
Proof.
  intros st l Hl. unfold load_slot. rewrite Hl.
  destruct (0 <=? h); [|exact I].
  destruct (l !! Z.to_nat h); [|exact I].
  exists l. symmetry. apply set_array_same. exact Hl.
Qed.

Lemma array_op_store_slot a h v : array_op a (store_slot a h v).
Proof.
  intros st l Hl. unfold store_slot. rewrite Hl.
  destruct ((0 <=? h) && (h <? Z.of_nat (length l))); [|exact I].
  eexists. reflexivity.
Qed.

Lemma array_op_clear_slots a n : forall i, array_op a (clear_slots n a i).
Proof.
  induction n as [|n IH]; intros i; simpl.
  - apply array_op_ret.
  - apply array_op_bind; [apply array_op_store_slot | intros _; apply IH].
Qed.

Lemma array_op_probe_empty fuel t :
  forall h, array_op (descriptors t) (probe_empty fuel t h).
Proof.
  induction fuel as [|fuel IH]; intros h; simpl.
  - apply array_op_diverge.
  - apply array_op_bind; [apply array_op_load_slot|].
    intros v. destruct (negb (v =? NULL)); [apply IH | apply array_op_ret].
Qed.

Lemma array_op_insert_descr hash m fuel t tblsize d :
  array_op (descriptors t) (insert_descr hash m fuel t tblsize d).
Proof.
  unfold insert_descr. apply array_op_bind; [apply array_op_probe_empty|].
  intros h. apply array_op_store_slot.
Qed.

Lemma array_op_fill_table hash m fuel t tblsize n :
  forall d, array_op (descriptors t) (fill_table hash m fuel t tblsize n d).
Proof.
  induction n as [|n IH]; intros d; simpl.
  - apply array_op_ret.
  - apply array_op_bind; [apply array_op_insert_descr | intros _; apply IH].
Qed.

Lemma array_op_fill_chain hash m fuel t tblsize chain :
  array_op (descriptors t) (fill_chain hash m fuel t tblsize chain).
Proof.
  induction chain as [|tbl chain IH]; simpl.
  - apply array_op_ret.
  - apply array_op_bind; [apply array_op_fill_table | intros _; exact IH].
Qed.

Lemma set_array_alloc_state a l l' st :
  a = alloc_addr st ->
  set_array a l' (alloc_state (Descrs l) st) = alloc_state (Descrs l') st.
Proof.
  intros ->. unfold set_array, alloc_state, with_heap. simpl.
  rewrite insert_insert_eq. reflexivity.
Qed.

(** The builder allocates one array and writes nowhere else; the only
    way it stops the process is the failure of that allocation, before
    anything was written. *)
Lemma build_frame_descriptors_inversion hash m fuel chain st :
  match build_frame_descriptors hash m fuel chain st with
  | Ok fds st' =>
      exists l, avail st <> O
                /\ descriptors fds = alloc_addr st
                /\ st' = alloc_state (Descrs l) st
  | Fatal st' => st' = st /\ avail st = O
  | _ => True
  end.
Proof.
  unfold build_frame_descriptors.
  destruct (grow_tblsize fuel 4 (count_descrs m chain 0)) as [tblsize|];
    [|exact I].
  unfold bind at 1. rewrite caml_stat_alloc_eq.
  destruct (avail st) as [|n] eqn:Havail; [split; reflexivity|].
  set (a := alloc_addr st). set (l0 := replicate _ uninit).
  set (t := mk_frame_descrs a (tblsize - 1)).
  assert (Hop : array_op a
            (clear_slots (Z.to_nat tblsize) a 0 ;;
             fill_chain hash m fuel t tblsize chain ;; ret t)).
  { apply array_op_bind; [apply array_op_clear_slots|]. intros _.
    apply array_op_bind; [apply (array_op_fill_chain hash m fuel t)|].
    intros _. apply array_op_ret. }
  assert (Hval : forall st1 x st2,
            (clear_slots (Z.to_nat tblsize) a 0 ;;
             fill_chain hash m fuel t tblsize chain ;; ret t) st1 = Ok x st2 ->
            x = t).
  { intros st1 x st2. unfold bind, ret.
    destruct (clear_slots _ _ _ st1); try discriminate.
    destruct (fill_chain _ _ _ _ _ _ _); try discriminate.
    congruence. }
  specialize (Hop (alloc_state (Descrs l0) st) l0).
  specialize (Hval (alloc_state (Descrs l0) st)).
  destruct ((clear_slots (Z.to_nat tblsize) a 0 ;;
             fill_chain hash m fuel t tblsize chain ;; ret t)
              (alloc_state (Descrs l0) st)) as [x st2| | |].
  - destruct Hop as [l' ->]; [simpl; apply lookup_insert_eq|].
    rewrite (Hval x _ eq_refl). exists l'. split; [lia|]. split; [reflexivity|].
    apply set_array_alloc_state. reflexivity.
  - exfalso. apply Hop. simpl. apply lookup_insert_eq.
  - exact I.
  - exact I.
Qed.

Lemma store_version_eq p f st v :
  heap st !! p = Some (Version v) ->
  store_version p f st = Ok tt (with_heap (<[p := Version (f v)]> (heap st)) st).
Proof. intros H. unfold store_version. rewrite H. reflexivity. Qed.

Lemma finish_version_inversion hash m fuel chain marker_of old st1 :
  match finish_version hash m fuel chain marker_of old st1 with
  | Ok _ st' =>
      exists msk l st4,
        (2 <= avail st1)%nat
        /\ caml_major_cycles_completed st4 = caml_major_cycles_completed st1
        /\ build_frame_descriptors hash m fuel chain
             (alloc_state (Version uninit_version) st1)
           = Ok (mk_frame_descrs
                   (alloc_addr (alloc_state (Version uninit_version) st1)) msk)
               (alloc_state (Descrs l)
                  (alloc_state (Version uninit_version) st1))
        /\ st' = finished msk l (marker_of st4) old st1
  | Fatal st' =>
      (st' = st1 /\ avail st1 = O)
      \/ (st' = alloc_state (Version uninit_version) st1 /\ avail st1 = 1%nat)
  | _ => True
  end.
Proof.
  unfold finish_version. unfold bind at 1. rewrite caml_stat_alloc_eq.
  destruct (avail st1) as [|n1] eqn:Havail1; [left; split; reflexivity|].
  set (ft := alloc_addr st1).
  set (st2 := alloc_state (Version uninit_version) st1).
  unfold bind at 1.
  pose proof (build_frame_descriptors_inversion hash m fuel chain st2) as Hb.
  destruct (build_frame_descriptors hash m fuel chain st2) as [t st3| st3 | |]
    eqn:Hbuild; try exact I.
  2: { destruct Hb as [-> Hav]. right. split; [reflexivity|].
       unfold st2 in Hav. simpl in Hav. rewrite Havail1 in *. simpl in Hav. lia. }
  destruct Hb as (l & Hav2 & Hdesc & ->).
  assert (Hne : alloc_addr st2 <> ft).
  { intros Heq. pose proof (alloc_addr_fresh st2) as Hf. rewrite Heq in Hf.
    unfold st2 in Hf. simpl in Hf. unfold ft in Hf.
    rewrite lookup_insert_eq in Hf. discriminate. }
  assert (Hft : heap (alloc_state (Descrs l) st2) !! ft
                = Some (Version uninit_version)).
  { simpl. rewrite lookup_insert_ne by exact Hne. apply lookup_insert_eq. }
  unfold bind at 1. rewrite (store_version_eq _ _ _ _ Hft).
  unfold bind at 1. unfold get_state.
  set (st4 := with_heap _ (alloc_state (Descrs l) st2)).
  unfold bind at 1. erewrite store_version_eq
    by (simpl; apply lookup_insert_eq).
  unfold bind at 1. erewrite store_version_eq
    by (simpl; apply lookup_insert_eq).
  unfold modify.
  exists (mask t), l, st4. split.
  { unfold st2 in Hav2. simpl in Hav2. rewrite Havail1 in Hav2. simpl in Hav2. lia. }
  split; [reflexivity|].
  destruct t as [a msk]. simpl in Hdesc. subst a.
  split; [reflexivity|].
  unfold finished, published, with_current, with_heap. fold st2. fold ft.
  simpl. rewrite !insert_insert_eq. reflexivity.
Qed.

Lemma register_unfold hash m fuel tbl st :
  caml_register_frametable hash m fuel tbl st
  = match avail st with
    | O => Fatal st
    | S _ =>
        finish_version hash m fuel (tbl :: frametables st)
          caml_major_cycles_completed (current_frametable st) (consed tbl st)
    end.
Proof.
  unfold caml_register_frametable, cons. unfold bind at 1. unfold bind at 1.
  rewrite caml_stat_alloc_eq.
  destruct (avail st) as [|n] eqn:Havail; reflexivity.
Qed.

Lemma registered_finished tbl msk l st :
  registered tbl msk l st
  = finished msk l (caml_major_cycles_completed st) (current_frametable st)
      (consed tbl st).
Proof. reflexivity. Qed.

(** The outcomes of a registration. *)
Lemma register_inversion hash m fuel tbl st :
  match caml_register_frametable hash m fuel tbl st with
  | Ok _ st' =>
      exists msk l,
        (3 <= avail st)%nat
        /\ build_frame_descriptors hash m fuel (tbl :: frametables st)
             (alloc_state (Version uninit_version) (consed tbl st))
           = Ok (mk_frame_descrs
                   (alloc_addr
                      (alloc_state (Version uninit_version) (consed tbl st)))
                   msk)
               (alloc_state (Descrs l)
                  (alloc_state (Version uninit_version) (consed tbl st)))
        /\ st' = registered tbl msk l st
  | Fatal st' =>
      (st' = st /\ avail st = O)
      \/ (st' = consed tbl st /\ avail st = 1%nat)
      \/ (st' = alloc_state (Version uninit_version) (consed tbl st)
          /\ avail st = 2%nat)
  | _ => True
  end.
Proof.
  rewrite register_unfold.
  destruct (avail st) as [|n] eqn:Havail; [left; split; reflexivity|].
  pose proof (finish_version_inversion hash m fuel (tbl :: frametables st)
                caml_major_cycles_completed (current_frametable st)
                (consed tbl st)) as Hf.
  destruct (finish_version _ _ _ _ _ _ _) as [[] st'| st' | |]; try exact I.
  - destruct Hf as (msk & l & st4 & Hav & Hc & Hbuild & ->).
    exists msk, l. split; [|split].
    + simpl in Hav. rewrite Havail in Hav. simpl in Hav. lia.
    + exact Hbuild.
    + rewrite Hc. reflexivity.
  - simpl in Hf. rewrite Havail in Hf. simpl in Hf.
    destruct Hf as [[-> Hn]|[-> Hn]].
    + right. left. split; [reflexivity | lia].
    + right. right. split; [reflexivity | lia].
Qed.

Lemma init_unfold hash m fuel tbls st :
  caml_init_frame_descriptors hash m fuel tbls st
  = match cons_static tbls st with
    | Ok _ st1 =>
        finish_version hash m fuel (frametables st1)
          (fun _ => No_need_to_free) 0 st1
    | Fatal st' => Fatal st'
    | Fault => Fault
    | Diverge => Diverge
    end.
Proof.
  unfold caml_init_frame_descriptors. unfold bind at 1.
  destruct (cons_static tbls st) as [[] st1| | |]; try reflexivity.
  unfold finish_version, bind, get_state. rewrite caml_stat_alloc_eq.
  destruct (avail st1); reflexivity.
Qed.

Lemma cons_eq tbl st :
  cons tbl st = match avail st with
                | O => Fatal st
                | S _ => Ok tt (consed tbl st)
                end.
Proof.
  unfold cons, bind, modify. rewrite caml_stat_alloc_eq.
  destruct (avail st); reflexivity.
Qed.

Lemma cons_static_inversion tbls : forall st,
  match cons_static tbls st with
  | Ok _ st' => exists done, st' = consed_all done st
  | Fatal st' => exists done, st' = consed_all done st
  | _ => True
  end.
Proof.
  induction tbls as [|tbl tbls IH]; intros st; simpl; [exact I|].
  destruct (negb (tbl =? 0)).
  - unfold bind. rewrite cons_eq. destruct (avail st).
    + exists []. reflexivity.
    + specialize (IH (consed tbl st)).
      destruct (cons_static tbls (consed tbl st)); try exact I;
        destruct IH as [done ->]; exists (tbl :: done); reflexivity.
  - exists []. reflexivity.
Qed.

(** The outcomes of the initialisation. *)
Lemma init_inversion hash m fuel tbls st :
  match caml_init_frame_descriptors hash m fuel tbls st with
  | Ok _ st' =>
      exists done msk l,
        build_frame_descriptors hash m fuel (frametables (consed_all done st))
          (alloc_state (Version uninit_version) (consed_all done st))
        = Ok (mk_frame_descrs
                (alloc_addr
                   (alloc_state (Version uninit_version) (consed_all done st)))
                msk)
            (alloc_state (Descrs l)
               (alloc_state (Version uninit_version) (consed_all done st)))
        /\ st' = finished msk l No_need_to_free 0 (consed_all done st)
  | Fatal st' =>
      exists done,
        st' = consed_all done st
        \/ st' = alloc_state (Version uninit_version) (consed_all done st)
  | _ => True
  end.
Proof.
  rewrite init_unfold.
  pose proof (cons_static_inversion tbls st) as Hc.
  destruct (cons_static tbls st) as [[] st1| st1 | |]; try exact I.
  - destruct Hc as [done ->].
    pose proof (finish_version_inversion hash m fuel
                  (frametables (consed_all done st))
                  (fun _ => No_need_to_free) 0 (consed_all done st)) as Hf.
    destruct (finish_version _ _ _ _ _ _ _) as [[] st'| st' | |]; try exact I.
    + destruct Hf as (msk & l & st4 & _ & _ & Hbuild & ->).
      exists done, msk, l. split; [exact Hbuild | reflexivity].
    + exists done. destruct Hf as [[-> _]|[-> _]]; [left | right]; reflexivity.
  - destruct Hc as [done ->]. exists done. left. reflexivity.
Qed.

(** ** The invariant of the version chain *)

Lemma manager_versions_inv st : manager_inv st -> versions_inv st.
Proof. intros [H1 H2 H3 _]. constructor; assumption. Qed.

Lemma alloc_state_lookup_ne b st p :
  p <> alloc_addr st -> heap (alloc_state b st) !! p = heap st !! p.
Proof. intros Hne. simpl. apply lookup_insert_ne. congruence. Qed.

Lemma alloc_state_lookup_old b st p x :
  heap st !! p = Some x -> heap (alloc_state b st) !! p = Some x.
Proof.
  intros Hp. rewrite alloc_state_lookup_ne; [exact Hp|].
  intros ->. rewrite alloc_addr_fresh in Hp. discriminate.
Qed.

Lemma versions_inv_alloc_link tbl st :
  versions_inv st -> versions_inv (consed tbl st).
Proof.
  intros [Hnull Hcyc Hmark]. constructor.
  - simpl. rewrite lookup_insert_ne by apply alloc_addr_nonnull. exact Hnull.
  - exact Hcyc.
  - intros p v. simpl. rewrite lookup_insert.
    destruct (decide (alloc_addr st = p)); [discriminate | apply Hmark].
Qed.

Lemma consed_lookup_old tbl st p x :
  heap st !! p = Some x -> heap (consed tbl st) !! p = Some x.
Proof. apply alloc_state_lookup_old. Qed.

Lemma versions_inv_consed_all tbls : forall st,
  versions_inv st -> versions_inv (consed_all tbls st).
Proof.
  induction tbls as [|tbl tbls IH]; intros st Hinv; simpl; [exact Hinv|].
  apply IH, versions_inv_alloc_link, Hinv.
Qed.

Lemma finished_heap msk l marker old st1 :
  heap (finished msk l marker old st1)
  = <[alloc_addr st1 :=
        Version (mk_version
                   (mk_frame_descrs
                      (alloc_addr (alloc_state (Version uninit_version) st1)) msk)
                   marker old)]>
      (<[alloc_addr (alloc_state (Version uninit_version) st1) := Descrs l]>
         (heap st1)).
Proof.
  unfold finished, published. simpl.
  set (ft := alloc_addr st1).
  set (a := alloc_addr (alloc_state (Version uninit_version) st1)).
  assert (Hne : a <> ft).
  { intros Heq. pose proof (alloc_addr_fresh (alloc_state (Version uninit_version) st1)) as Hf.
    fold a in Hf. rewrite Heq in Hf. simpl in Hf. fold ft in Hf.
    rewrite lookup_insert_eq in Hf. discriminate. }
  rewrite (insert_insert_ne _ a ft) by exact Hne.
  rewrite insert_insert_eq. reflexivity.
Qed.

Lemma finished_lookup_old msk l marker old st1 p x :
  heap st1 !! p = Some x -> heap (finished msk l marker old st1) !! p = Some x.
Proof.
  intros Hp. rewrite finished_heap.
  assert (p <> alloc_addr st1)
    by (intros ->; rewrite alloc_addr_fresh in Hp; discriminate).
  assert (Hp2 : heap (alloc_state (Version uninit_version) st1) !! p = Some x)
    by (apply alloc_state_lookup_old; exact Hp).
  assert (p <> alloc_addr (alloc_state (Version uninit_version) st1))
    by (intros ->; rewrite alloc_addr_fresh in Hp2; discriminate).
  rewrite !lookup_insert_ne by congruence. exact Hp.
Qed.


(** Publishing a new version keeps the invariant, when its marker and
    its predecessor agree and the predecessor, if any, is allocated with
    its index. *)
Lemma manager_inv_finished msk l marker old st1 :
  versions_inv st1 ->
  (marker = No_need_to_free <-> old = NULL) ->
  (old <> NULL ->
   exists w lw, heap st1 !! old = Some (Version w)
                /\ heap st1 !! descriptors (table w) = Some (Descrs lw)) ->
  manager_inv (finished msk l marker old st1).
Proof.
  intros [Hnull Hcyc Hmark] Hiff Hold.
  set (ft := alloc_addr st1).
  set (a := alloc_addr (alloc_state (Version uninit_version) st1)).
  assert (Hftn : ft <> NULL) by apply alloc_addr_nonnull.
  assert (Han : a <> NULL) by apply alloc_addr_nonnull.
  assert (Hne : a <> ft).
  { intros Heq. pose proof (alloc_addr_fresh (alloc_state (Version uninit_version) st1)) as Hf.
    fold a in Hf. rewrite Heq in Hf. simpl in Hf. fold ft in Hf.
    rewrite lookup_insert_eq in Hf. discriminate. }
  constructor.
  - rewrite finished_heap. fold ft a. rewrite !lookup_insert_ne by congruence.
    exact Hnull.
  - exact Hcyc.
  - intros p v. rewrite finished_heap. fold ft a.
    rewrite lookup_insert. destruct (decide (ft = p)) as [<-|Hp1].
    + intros [= <-]. simpl. exact Hiff.
    + rewrite lookup_insert. destruct (decide (a = p)); [discriminate|].
      apply Hmark.
  - exists (mk_version (mk_frame_descrs a msk) marker old), l.
    change (current_frametable (finished msk l marker old st1)) with ft.
    cbn [table descriptors prev].
    split; [|split].
    + rewrite finished_heap. apply lookup_insert_eq.
    + rewrite finished_heap. fold ft a.
      rewrite lookup_insert_ne by congruence. apply lookup_insert_eq.
    + intros Hnz. destruct (Hold Hnz) as (w & lw & Hw & Hlw).
      split.
      * intros ->. pose proof (alloc_addr_fresh st1) as Hf. fold ft in Hf.
        congruence.
      * exists w, lw. split; [|split].
        -- apply finished_lookup_old. exact Hw.
        -- apply finished_lookup_old. exact Hlw.
        -- intros Heq.
           apply (alloc_state_lookup_old (Version uninit_version)) in Hlw.
           rewrite Heq in Hlw. unfold a in Hlw.
           rewrite alloc_addr_fresh in Hlw. discriminate.
Qed.

Lemma No_need_to_free_value : No_need_to_free = 2 ^ 64 - 1.
Proof. reflexivity. Qed.

Lemma versions_inv_initial avail : versions_inv (initial_state avail).
Proof.
  constructor.
  - apply lookup_empty.
  - simpl. rewrite No_need_to_free_value. lia.
  - intros p v H. simpl in H. rewrite lookup_empty in H. discriminate.
Qed.

Lemma manager_inv_init hash m fuel tbls avail st0 :
  caml_init_frame_descriptors hash m fuel tbls (initial_state avail)
  = Ok tt st0 ->
  manager_inv st0.
Proof.
  intros Hinit.
  pose proof (init_inversion hash m fuel tbls (initial_state avail)) as Hi.
  rewrite Hinit in Hi. destruct Hi as (done & msk & l & _ & ->).
  apply manager_inv_finished.
  - apply versions_inv_consed_all, versions_inv_initial.
  - split; reflexivity.
  - intros Hnz. exfalso. apply Hnz. reflexivity.
Qed.

Lemma current_nonnull st : manager_inv st -> current_frametable st <> NULL.
Proof.
  intros [Hnull _ _ (v & l & Hv & _)] Heq. rewrite Heq in Hv. congruence.
Qed.

Lemma manager_inv_registered tbl msk l st :
  manager_inv st -> manager_inv (registered tbl msk l st).
Proof.
  intros Hinv. rewrite registered_finished.
  pose proof (current_nonnull st Hinv) as Hcur.
  pose proof (minv_cycles st Hinv) as Hcyc.
  apply manager_inv_finished.
  - apply versions_inv_alloc_link, manager_versions_inv, Hinv.
  - split; intros H; [lia | contradiction].
  - intros _. destruct (minv_current st Hinv) as (v & lv & Hv & Hlv & _).
    exists v, lv. split; apply consed_lookup_old; assumption.
Qed.

Lemma manager_inv_register hash m fuel tbl st st' :
  manager_inv st ->
  caml_register_frametable hash m fuel tbl st = Ok tt st' ->
  manager_inv st'.
Proof.
  intros Hinv Hreg.
  pose proof (register_inversion hash m fuel tbl st) as Hr.
  rewrite Hreg in Hr. destruct Hr as (msk & l & _ & _ & ->).
  apply manager_inv_registered, Hinv.
Qed.

(** What [caml_get_frame_descrs] does in a state of the invariant: it
    returns the table of the current version, after freeing the
    predecessor and its index when the marker is below the counter. *)
Lemma caml_get_frame_descrs_spec st :
  manager_inv st ->
  exists v,
    heap st !! current_frametable st = Some (Version v)
    /\ caml_get_frame_descrs st
       = Ok (table v)
           (if free_prev_after_cycle v <? caml_major_cycles_completed st
            then reclaimed st else st).
Proof.
  intros [Hnull Hcyc Hmark (v & l & Hv & Hl & Hprev)].
  exists v. split; [exact Hv|].
  unfold caml_get_frame_descrs. unfold bind at 1, get_state.
  unfold bind at 1. unfold load_version at 1. rewrite Hv.
  unfold bind at 1.
  destruct (free_prev_after_cycle v <? caml_major_cycles_completed st) eqn:Hdue.
  2: { unfold bind at 1, ret. unfold bind, load_version. rewrite Hv.
       reflexivity. }
  apply Z.ltb_lt in Hdue.
  assert (Hnz : prev v <> NULL).
  { intros Hz. apply (Hmark _ _ Hv) in Hz. lia. }
  destruct (Hprev Hnz) as (Hpc & w & lw & Hw & Hlw & Hdist).
  set (aw := descriptors (table w)) in *.
  assert (Hawn : aw <> NULL) by congruence.
  assert (Hawp : aw <> prev v) by congruence.
  assert (Hawc : aw <> current_frametable st) by congruence.
  unfold bind at 1. unfold bind at 1. unfold load_version at 1. rewrite Hv.
  apply Z.eqb_neq in Hnz as Hnzb. rewrite Hnzb. cbn [negb].
  unfold bind at 1. unfold load_version at 1. rewrite Hw.
  unfold bind at 1. unfold caml_stat_free at 1. fold aw.
  apply Z.eqb_neq in Hawn as Hawnb. rewrite Hawnb, Hlw.
  unfold bind at 1. unfold caml_stat_free at 1. rewrite Hnzb.
  cbn [heap with_heap].
  rewrite lookup_delete_ne by congruence. rewrite Hw.
  unfold bind at 1.
  erewrite store_version_eq.
  2: { cbn [heap with_heap]. rewrite !lookup_delete_ne by congruence. exact Hv. }
  erewrite store_version_eq by (cbn [heap with_heap]; apply lookup_insert_eq).
  unfold bind, load_version. cbn [heap with_heap current_frametable].
  rewrite lookup_insert_eq. cbn [table set_prev set_free_prev_after_cycle].
  f_equal.
  unfold reclaimed. rewrite Hv, Hw. fold aw.
  unfold with_heap. cbn. rewrite insert_insert_eq. reflexivity.
Qed.

Lemma manager_inv_reclaimed st v :
  manager_inv st ->
  heap st !! current_frametable st = Some (Version v) ->
  prev v <> NULL ->
  manager_inv (reclaimed st).
Proof.
  intros [Hnull Hcyc Hmark (v' & l & Hv' & Hl & Hprev)] Hv Hnz.
  assert (v' = v) by congruence. subst v'.
  destruct (Hprev Hnz) as (Hpc & w & lw & Hw & Hlw & Hdist).
  unfold reclaimed. rewrite Hv, Hw.
  set (aw := descriptors (table w)) in *.
  set (ft := current_frametable st) in *.
  assert (Hftn : ft <> NULL) by congruence.
  constructor; cbn [heap with_heap current_frametable caml_major_cycles_completed].
  - rewrite lookup_insert_ne by congruence.
    rewrite lookup_delete_None. right. rewrite lookup_delete_None. right.
    exact Hnull.
  - exact Hcyc.
  - intros p u. rewrite lookup_insert. destruct (decide (ft = p)) as [<-|Hne].
    + intros [= <-]. simpl. split; reflexivity.
    + intros Hp. apply lookup_delete_Some in Hp as [_ Hp].
      apply lookup_delete_Some in Hp as [_ Hp]. eapply Hmark; eauto.
  - eexists _, l. split; [apply lookup_insert_eq|]. cbn [table prev].
    split.
    + rewrite lookup_insert_ne by congruence.
      rewrite !lookup_delete_ne by congruence. exact Hl.
    + intros Hc. exfalso. apply Hc. reflexivity.
Qed.

Lemma manager_inv_get st fds st' :
  manager_inv st -> caml_get_frame_descrs st = Ok fds st' -> manager_inv st'.
Proof.
  intros Hinv Hget.
  destruct (caml_get_frame_descrs_spec st Hinv) as (v & Hv & Heq).
  rewrite Heq in Hget. injection Hget as _ <-.
  destruct (free_prev_after_cycle v <? caml_major_cycles_completed st) eqn:Hdue;
    [|exact Hinv].
  apply (manager_inv_reclaimed st v Hinv Hv).
  intros Hz. apply (minv_marker st Hinv _ _ Hv) in Hz.
  apply Z.ltb_lt in Hdue. pose proof (minv_cycles st Hinv). lia.
Qed.

Lemma manager_inv_step hash m fuel o st st' :
  manager_inv st -> step hash m fuel o st st' -> manager_inv st'.
Proof.
  intros Hinv. destruct o as [tbl| |]; simpl.
  - apply manager_inv_register. exact Hinv.
  - intros [fds Hget]. eapply manager_inv_get; eauto.
  - intros [Hlt ->]. destruct Hinv as [Hnull Hcyc Hmark Hcur].
    constructor; try assumption. simpl. lia.
Qed.

Lemma manager_inv_steps hash m fuel ops : forall st st',
  manager_inv st -> steps hash m fuel ops st st' -> manager_inv st'.
Proof.
  induction ops as [|o ops IH]; intros st st' Hinv; simpl.
  - intros ->. exact Hinv.
  - intros (st1 & Hstep & Hsteps).
    eapply IH; [|exact Hsteps]. eapply manager_inv_step; eauto.
Qed.

Lemma manager_inv_reachable hash m fuel st :
  reachable hash m fuel st -> manager_inv st.
Proof.
  intros (avail & tbls & ops & st0 & Hinit & Hsteps).
  eapply manager_inv_steps; [|exact Hsteps].
  eapply manager_inv_init; eauto.
Qed.

Lemma registered_lookup_old tbl msk l st p x :
  heap st !! p = Some x -> heap (registered tbl msk l st) !! p = Some x.
Proof.
  intros Hp. rewrite registered_finished.
  apply finished_lookup_old, consed_lookup_old, Hp.
Qed.

Lemma consed_all_lookup_old tbls : forall st p x,
  heap st !! p = Some x -> heap (consed_all tbls st) !! p = Some x.
Proof.
  induction tbls as [|tbl tbls IH]; intros st p x Hp; simpl; [exact Hp|].
  apply IH, consed_lookup_old, Hp.
Qed.

Lemma consed_all_current tbls : forall st,
  current_frametable (consed_all tbls st) = current_frametable st.
Proof.
  induction tbls as [|tbl tbls IH]; intros st; simpl; [reflexivity|].
  rewrite IH. reflexivity.
Qed.

Lemma find_loop_state m fuel fds pc : forall h st d st',
  find_loop m fuel fds pc h st = Ok d st' -> st' = st.
Proof.
  induction fuel as [|fuel IH]; intros h st d st'; simpl; [discriminate|].
  unfold bind, load_slot.
  destruct (heap st !! descriptors fds) as [[| l |]|]; try discriminate.
  destruct (0 <=? h); [|discriminate].
  destruct (l !! Z.to_nat h) as [v|]; [|discriminate].
  destruct (v =? 0); [intros [= _ <-]; reflexivity|].
  destruct (retaddr m v =? pc); [intros [= _ <-]; reflexivity|].
  apply IH.
Qed.

Lemma registered_facts tbl msk l st :
  exists v',
    heap (registered tbl msk l st) !! current_frametable (registered tbl msk l st)
    = Some (Version v')
    /\ prev v' = current_frametable st
    /\ free_prev_after_cycle v' = caml_major_cycles_completed st
    /\ mask (table v') = msk
    /\ heap (registered tbl msk l st) !! descriptors (table v') = Some (Descrs l)
    /\ heap st !! descriptors (table v') = None
    /\ heap st !! current_frametable (registered tbl msk l st) = None
    /\ caml_major_cycles_completed (registered tbl msk l st)
       = caml_major_cycles_completed st
    /\ frametables (registered tbl msk l st) = tbl :: frametables st.
Proof.
  rewrite registered_finished.
  set (st1 := consed tbl st).
  set (st2 := alloc_state (Version uninit_version) st1).
  exists (mk_version (mk_frame_descrs (alloc_addr st2) msk)
            (caml_major_cycles_completed st) (current_frametable st)).
  change (current_frametable (finished msk l _ _ st1)) with (alloc_addr st1).
  cbn [prev free_prev_after_cycle table descriptors mask].
  assert (Hne : alloc_addr st2 <> alloc_addr st1).
  { intros Heq. pose proof (alloc_addr_fresh st2) as Hf. rewrite Heq in Hf.
    unfold st2 in Hf. simpl in Hf. rewrite lookup_insert_eq in Hf.
    discriminate. }
  rewrite finished_heap. fold st2.
  split; [apply lookup_insert_eq|]. split; [reflexivity|].
  split; [reflexivity|]. split; [reflexivity|].
  split; [rewrite lookup_insert_ne by congruence; apply lookup_insert_eq|].
  split.
  { destruct (heap st !! alloc_addr st2) as [x|] eqn:Hx; [|reflexivity].
    apply (consed_lookup_old tbl) in Hx. fold st1 in Hx.
    apply (alloc_state_lookup_old (Version uninit_version)) in Hx.
    fold st2 in Hx. rewrite alloc_addr_fresh in Hx. discriminate. }
  split.
  { destruct (heap st !! alloc_addr st1) as [x|] eqn:Hx; [|reflexivity].
    apply (consed_lookup_old tbl) in Hx. fold st1 in Hx.
    rewrite alloc_addr_fresh in Hx. discriminate. }
  split; reflexivity.
Qed.

(** The state after a reclamation, written out. *)
Lemma reclaimed_eq st v :
  manager_inv st ->
  heap st !! current_frametable st = Some (Version v) ->
  prev v <> NULL ->
  exists w lw,
    heap st !! prev v = Some (Version w)
    /\ heap st !! descriptors (table w) = Some (Descrs lw)
    /\ prev v <> current_frametable st
    /\ descriptors (table w) <> descriptors (table v)
    /\ reclaimed st
       = with_heap
           (<[current_frametable st :=
                Version (mk_version (table v) No_need_to_free NULL)]>
              (delete (prev v) (delete (descriptors (table w)) (heap st))))
           st.
Proof.
  intros Hinv Hv Hnz.
  destruct (minv_current st Hinv) as (v' & l' & Hv' & _ & Hprev).
  assert (v' = v) by congruence. subst v'.
  destruct (Hprev Hnz) as (Hpc & w & lw & Hw & Hlw & Hdist).
  exists w, lw. unfold reclaimed. rewrite Hv, Hw. auto.
Qed.

(** *** The links between the versions *)

Lemma chain_ok_empty cur : chain_ok ∅ cur.
Proof.
  constructor; intros; match goal with
  | H : ∅ !! _ = Some _ |- _ => rewrite lookup_empty in H; discriminate
  end.
Qed.

Lemma chain_ok_alloc h cur a b :
  h !! a = None -> (forall v, b <> Version v) ->
  chain_ok h cur -> chain_ok (<[a := b]> h) cur.
Proof.
  intros Ha Hb [H1 H2 H3 H4 H5].
  assert (Hold : forall p v, <[a := b]> h !! p = Some (Version v) ->
                   h !! p = Some (Version v)).
  { intros p v Hp. apply lookup_insert_Some in Hp as [[_ Hp]|[_ Hp]];
      [exfalso; apply (Hb v Hp) | exact Hp]. }
  assert (Hkeep : forall p x, h !! p = Some x -> <[a := b]> h !! p = Some x).
  { intros p x Hp. rewrite lookup_insert_ne; [exact Hp|]. congruence. }
  constructor.
  - intros p v Hp Hnz. destruct (H1 p v (Hold _ _ Hp) Hnz) as [w Hw].
    exists w. apply Hkeep, Hw.
  - intros p1 v1 p2 v2 Hp1 Hp2. apply (H2 p1 v1 p2 v2); auto.
  - intros p v Hp. apply (H3 p v); auto.
  - intros p v Hp. destruct (H4 p v (Hold _ _ Hp)) as [l Hl].
    exists l. apply Hkeep, Hl.
  - intros p1 v1 p2 v2 Hp1 Hp2. apply (H5 p1 v1 p2 v2); auto.
Qed.

Lemma chain_ok_consed_all tbls cur : forall st,
  chain_ok (heap st) cur -> chain_ok (heap (consed_all tbls st)) cur.
Proof.
  induction tbls as [|tbl tbls IH]; intros st Hok; simpl; [exact Hok|].
  apply IH. simpl. apply chain_ok_alloc.
  - apply alloc_addr_fresh.
  - discriminate.
  - exact Hok.
Qed.

Lemma chain_ok_publish h cur ft a msk marker l :
  chain_ok h cur ->
  h !! ft = None -> h !! a = None -> ft <> a -> ft <> NULL ->
  (cur = NULL \/ exists w, h !! cur = Some (Version w)) ->
  chain_ok (<[ft := Version (mk_version (mk_frame_descrs a msk) marker cur)]>
              (<[a := Descrs l]> h)) ft.
Proof.
  intros [H1 H2 H3 H4 H5] Hft Ha Hne Hnn Hcur.
  set (new := mk_version (mk_frame_descrs a msk) marker cur).
  set (h' := <[ft := Version new]> (<[a := Descrs l]> h)).
  assert (Hold : forall p v, h' !! p = Some (Version v) ->
                   (p = ft /\ v = new) \/ (p <> ft /\ h !! p = Some (Version v))).
  { intros p v Hp. apply lookup_insert_Some in Hp as [[<- Hp]|[Hpf Hp]].
    - left. split; [reflexivity | congruence].
    - right. split; [congruence|].
      apply lookup_insert_Some in Hp as [[_ Hp]|[_ Hp]];
        [discriminate | exact Hp]. }
  assert (Hkeep : forall p x, h !! p = Some x -> h' !! p = Some x).
  { intros p x Hp. unfold h'. rewrite !lookup_insert_ne by congruence.
    exact Hp. }
  assert (Hcurne : cur <> ft).
  { destruct Hcur as [->|[w Hw]]; congruence. }
  constructor.
  - intros p v Hp Hnz. destruct (Hold p v Hp) as [[-> ->]|[_ Hp']].
    + simpl in *. destruct Hcur as [?|[w Hw]]; [contradiction|].
      exists w. apply Hkeep, Hw.
    + destruct (H1 p v Hp' Hnz) as [w Hw]. exists w. apply Hkeep, Hw.
  - intros p1 v1 p2 v2 Hp1 Hp2 Hnz Heq.
    destruct (Hold p1 v1 Hp1) as [[-> ->]|[_ Hp1']],
      (Hold p2 v2 Hp2) as [[-> ->]|[_ Hp2']].
    + reflexivity.
    + exfalso. simpl in Heq. apply (H3 p2 v2 Hp2'). congruence.
    + exfalso. simpl in Heq. apply (H3 p1 v1 Hp1'). congruence.
    + apply (H2 p1 v1 p2 v2); assumption.
  - intros p v Hp. destruct (Hold p v Hp) as [[-> ->]|[_ Hp']].
    + simpl. exact Hcurne.
    + intros Heq. destruct (decide (prev v = NULL)) as [Hz|Hnz]; [congruence|].
      destruct (H1 p v Hp' Hnz) as [w Hw]. congruence.
  - intros p v Hp. destruct (Hold p v Hp) as [[-> ->]|[_ Hp']].
    + exists l. simpl. unfold h'.
      rewrite lookup_insert_ne by congruence. apply lookup_insert_eq.
    + destruct (H4 p v Hp') as [l' Hl']. exists l'. apply Hkeep, Hl'.
  - intros p1 v1 p2 v2 Hp1 Hp2 Heq.
    destruct (Hold p1 v1 Hp1) as [[-> ->]|[_ Hp1']],
      (Hold p2 v2 Hp2) as [[-> ->]|[_ Hp2']].
    + reflexivity.
    + exfalso. simpl in Heq. destruct (H4 p2 v2 Hp2') as [l' Hl']. congruence.
    + exfalso. simpl in Heq. destruct (H4 p1 v1 Hp1') as [l' Hl']. congruence.
    + apply (H5 p1 v1 p2 v2); assumption.
Qed.

Lemma chain_ok_finished msk l marker old st1 :
  chain_ok (heap st1) old ->
  (old = NULL \/ exists w, heap st1 !! old = Some (Version w)) ->
  chain_ok (heap (finished msk l marker old st1))
    (current_frametable (finished msk l marker old st1)).
Proof.
  intros Hok Hold. rewrite finished_heap.
  change (current_frametable (finished msk l marker old st1))
    with (alloc_addr st1).
  set (st2 := alloc_state (Version uninit_version) st1).
  assert (Hne : alloc_addr st1 <> alloc_addr st2).
  { intros Heq. pose proof (alloc_addr_fresh st2) as Hf. rewrite <- Heq in Hf.
    unfold st2 in Hf. simpl in Hf. rewrite lookup_insert_eq in Hf.
    discriminate. }
  apply chain_ok_publish; try assumption.
  - apply alloc_addr_fresh.
  - destruct (heap st1 !! alloc_addr st2) as [x|] eqn:Hx; [|reflexivity].
    apply (alloc_state_lookup_old (Version uninit_version)) in Hx.
    fold st2 in Hx. rewrite alloc_addr_fresh in Hx. discriminate.
  - apply alloc_addr_nonnull.
Qed.

Lemma chain_ok_registered tbl msk l st :
  manager_inv st ->
  chain_ok (heap st) (current_frametable st) ->
  chain_ok (heap (registered tbl msk l st))
    (current_frametable (registered tbl msk l st)).
Proof.
  intros Hinv Hok. rewrite registered_finished.
  destruct (minv_current st Hinv) as (v & lv & Hv & _).
  apply chain_ok_finished.
  - simpl. apply chain_ok_alloc; [apply alloc_addr_fresh | discriminate | exact Hok].
  - right. exists v. apply consed_lookup_old, Hv.
Qed.

Lemma chain_ok_reclaimed st v :
  manager_inv st ->
  chain_ok (heap st) (current_frametable st) ->
  heap st !! current_frametable st = Some (Version v) ->
  prev v <> NULL ->
  chain_ok (heap (reclaimed st)) (current_frametable (reclaimed st)).
Proof.
  intros Hinv [H1 H2 H3 H4 H5] Hv Hnz.
  destruct (reclaimed_eq st v Hinv Hv Hnz)
    as (w & lw & Hw & Hlw & Hpc & Hdist & ->).
  cbn [heap with_heap current_frametable].
  set (cur := current_frametable st) in *.
  set (new := mk_version (table v) No_need_to_free NULL).
  set (h := heap st) in *.
  set (h' := <[cur := Version new]>
               (delete (prev v) (delete (descriptors (table w)) h))).
  pose proof (minv_null st Hinv) as Hnull. fold h in Hnull.
  destruct (H4 _ _ Hv) as [lv Hlv].
  assert (Hold : forall p u, h' !! p = Some (Version u) ->
                   (p = cur /\ u = new)
                   \/ (p <> cur /\ p <> prev v /\ h !! p = Some (Version u))).
  { intros p u Hp. apply lookup_insert_Some in Hp as [[<- Hp]|[Hpf Hp]].
    - left. split; [reflexivity | congruence].
    - right. apply lookup_delete_Some in Hp as [Hp1 Hp].
      apply lookup_delete_Some in Hp as [_ Hp]. auto. }
  assert (Hkeep : forall p x, h !! p = Some x -> p <> cur -> p <> prev v ->
                    p <> descriptors (table w) -> h' !! p = Some x).
  { intros p x Hp Hc Hq Ha. unfold h'.
    rewrite lookup_insert_ne by congruence.
    rewrite !lookup_delete_ne by congruence. exact Hp. }
  constructor.
  - intros p u Hp Hnzu. destruct (Hold p u Hp) as [[-> ->]|(Hpc' & Hpq & Hp')].
    + simpl in Hnzu. contradiction.
    + destruct (H1 p u Hp' Hnzu) as [x Hx]. exists x. apply Hkeep.
      * exact Hx.
      * apply (H3 p u Hp').
      * intros Heq. apply Hpc'. apply (H2 p u cur v Hp' Hv Hnzu Heq).
      * congruence.
  - intros p1 v1 p2 v2 Hp1 Hp2 Hnz1 Heq.
    destruct (Hold p1 v1 Hp1) as [[-> ->]|(_ & _ & Hp1')].
    { simpl in Hnz1. contradiction. }
    destruct (Hold p2 v2 Hp2) as [[-> ->]|(_ & _ & Hp2')].
    { simpl in Heq. congruence. }
    apply (H2 p1 v1 p2 v2); assumption.
  - intros p u Hp. destruct (Hold p u Hp) as [[-> ->]|(_ & _ & Hp')].
    + simpl. intros Heq. rewrite <- Heq in Hv. congruence.
    + apply (H3 p u Hp').
  - intros p u Hp. destruct (Hold p u Hp) as [[-> ->]|(Hpc' & Hpq & Hp')].
    + exists lv. simpl. apply Hkeep; congruence.
    + destruct (H4 p u Hp') as [lu Hlu]. exists lu. apply Hkeep.
      * exact Hlu.
      * congruence.
      * congruence.
      * intros Heq. apply Hpq. apply (H5 p u (prev v) w Hp' Hw Heq).
  - intros p1 v1 p2 v2 Hp1 Hp2 Heq.
    destruct (Hold p1 v1 Hp1) as [[-> ->]|(_ & _ & Hp1')],
      (Hold p2 v2 Hp2) as [[-> ->]|(_ & _ & Hp2')].
    + reflexivity.
    + apply (H5 cur v p2 v2); assumption.
    + apply (H5 p1 v1 cur v); assumption.
    + apply (H5 p1 v1 p2 v2); assumption.
Qed.

Section Chain_of_versions.
Variable hash : Z -> Z.
Variable m : memory.
Variable fuel : nat.

Lemma chain_ok_step o st st' :
  manager_inv st ->
  chain_ok (heap st) (current_frametable st) ->
  step hash m fuel o st st' ->
  chain_ok (heap st') (current_frametable st').
Proof.
  intros Hinv Hok Hstep. destruct o as [tbl| |]; simpl in Hstep.
  - pose proof (register_inversion hash m fuel tbl st) as Hr.
    rewrite Hstep in Hr. destruct Hr as (msk & l & _ & _ & ->).
    apply chain_ok_registered; assumption.
  - destruct Hstep as (fds & Hget).
    destruct (caml_get_frame_descrs_spec st Hinv) as (v & Hv & Heq).
    rewrite Heq in Hget.
    destruct (free_prev_after_cycle v <? caml_major_cycles_completed st)
      eqn:Hdue; injection Hget as _ <-; [|exact Hok].
    apply Z.ltb_lt in Hdue. pose proof (minv_cycles st Hinv) as Hcyc.
    apply (chain_ok_reclaimed st v Hinv Hok Hv).
    intros Hz. apply (minv_marker st Hinv _ _ Hv) in Hz. lia.
  - destruct Hstep as [_ ->]. exact Hok.
Qed.

Lemma chain_ok_reachable st :
  reachable hash m fuel st ->
  chain_ok (heap st) (current_frametable st).
Proof.
  intros (avail & tbls & ops & st0 & Hinit & Hsteps).
  assert (Hinv0 : manager_inv st0) by (eapply manager_inv_init; eauto).
  assert (Hok0 : chain_ok (heap st0) (current_frametable st0)).
  { pose proof (init_inversion hash m fuel tbls (initial_state avail)) as Hi.
    rewrite Hinit in Hi. destruct Hi as (done & msk & l & _ & ->).
    apply chain_ok_finished; [|left; reflexivity].
    apply chain_ok_consed_all. simpl. apply chain_ok_empty. }
  clear Hinit. revert st0 Hinv0 Hok0 Hsteps.
  induction ops as [|o ops IH]; intros st0 Hinv0 Hok0 Hsteps; simpl in Hsteps.
  - subst st. exact Hok0.
  - destruct Hsteps as (st1 & Hstep & Hrest).
    apply (IH st1); [| |exact Hrest].
    + apply (manager_inv_step hash m fuel o st0 st1 Hinv0 Hstep).
    + apply (chain_ok_step o st0 st1 Hinv0 Hok0 Hstep).
Qed.
End Chain_of_versions.

(** *** A version and the predecessor it waits for *)

(** The versions allocated after a registration: the new one, and the
    ones from before. *)
Lemma registered_versions tbl msk l st p v :
  heap (registered tbl msk l st) !! p = Some (Version v) ->
  (p = current_frametable (registered tbl msk l st)
   /\ prev v = current_frametable st
   /\ free_prev_after_cycle v = caml_major_cycles_completed st)
  \/ heap st !! p = Some (Version v).
Proof.
  rewrite registered_finished, finished_heap.
  change (current_frametable (finished msk l _ _ (consed tbl st)))
    with (alloc_addr (consed tbl st)).
  intros Hp. apply lookup_insert_Some in Hp as [[<- Hp]|[_ Hp]].
  - left. injection Hp as <-. auto.
  - right. apply lookup_insert_Some in Hp as [[_ Hp]|[_ Hp]]; [discriminate|].
    simpl in Hp. apply lookup_insert_Some in Hp as [[_ Hp]|[_ Hp]];
      [discriminate | exact Hp].
Qed.

Section Awaiting_reclamation.
Variable hash : Z -> Z.
Variable m : memory.
Variable fuel : nat.

Lemma step_cycles_mono o st st' :
  manager_inv st -> step hash m fuel o st st' ->
  caml_major_cycles_completed st <= caml_major_cycles_completed st'.
Proof.
  intros Hinv Hstep. destruct o as [tbl| |]; simpl in Hstep.
  - pose proof (register_inversion hash m fuel tbl st) as Hr.
    rewrite Hstep in Hr. destruct Hr as (msk & l & _ & _ & ->).
    simpl. lia.
  - destruct Hstep as (fds & Hget).
    destruct (caml_get_frame_descrs_spec st Hinv) as (v & Hv & Heq).
    rewrite Heq in Hget.
    destruct (free_prev_after_cycle v <? caml_major_cycles_completed st)
      eqn:Hdue; injection Hget as _ <-; [|lia].
    apply Z.ltb_lt in Hdue. pose proof (minv_cycles st Hinv) as Hcyc.
    assert (Hnz : prev v <> NULL).
    { intros Hz. apply (minv_marker st Hinv _ _ Hv) in Hz. lia. }
    destruct (reclaimed_eq st v Hinv Hv Hnz) as (w & lw & _ & _ & _ & _ & ->).
    simpl. lia.
  - destruct Hstep as [_ ->]. simpl. lia.
Qed.

Lemma awaiting_step q v0 l0 c o st st' :
  manager_inv st ->
  chain_ok (heap st) (current_frametable st) ->
  step hash m fuel o st st' ->
  awaiting q v0 l0 c st ->
  awaiting q v0 l0 c st' \/ c < caml_major_cycles_completed st'.
Proof.
  intros Hinv Hok Hstep (Hq & Ha & Hcur & Hmark).
  destruct o as [tbl| |]; simpl in Hstep.
  - left.
    pose proof (register_inversion hash m fuel tbl st) as Hr.
    rewrite Hstep in Hr. destruct Hr as (msk & l & _ & _ & ->).
    destruct (registered_facts tbl msk l st)
      as (v' & _ & _ & _ & _ & _ & _ & Hfcur & _ & _).
    split; [apply registered_lookup_old; exact Hq|].
    split; [apply registered_lookup_old; exact Ha|].
    split; [intros Heq; rewrite Heq in Hfcur; congruence|].
    intros p v Hp Hpq.
    destruct (registered_versions tbl msk l st p v Hp)
      as [(_ & Hprev & _)|Hp']; [congruence|].
    apply (Hmark p v Hp' Hpq).
  - destruct Hstep as (fds & Hget).
    destruct (caml_get_frame_descrs_spec st Hinv) as (v & Hv & Heq).
    rewrite Heq in Hget.
    destruct (free_prev_after_cycle v <? caml_major_cycles_completed st)
      eqn:Hdue; injection Hget as _ <-; [|left; repeat split; assumption].
    apply Z.ltb_lt in Hdue. pose proof (minv_cycles st Hinv) as Hcyc.
    assert (Hnz : prev v <> NULL).
    { intros Hz. apply (minv_marker st Hinv _ _ Hv) in Hz. lia. }
    destruct (reclaimed_eq st v Hinv Hv Hnz)
      as (w & lw & Hw & Hlw & Hpc & Hdist & ->).
    cbn [heap with_heap current_frametable caml_major_cycles_completed].
    destruct (decide (prev v = q)) as [Hpq|Hpq].
    { right. rewrite <- (Hmark _ v Hv Hpq). exact Hdue. }
    left. unfold awaiting.
    cbn [heap with_heap current_frametable].
    split.
    { rewrite lookup_insert_ne by exact Hcur.
      rewrite lookup_delete_ne by exact Hpq.
      rewrite lookup_delete_ne by congruence. exact Hq. }
    split.
    { rewrite lookup_insert_ne by congruence.
      rewrite lookup_delete_ne by congruence.
      rewrite lookup_delete_ne; [exact Ha|].
      intros Hsame. apply Hpq.
      apply (chain_index_inj _ _ Hok (prev v) w q v0 Hw Hq Hsame). }
    split; [exact Hcur|].
    intros p u Hp Hpu.
    apply lookup_insert_Some in Hp as [[_ Hp]|[_ Hp]].
    + injection Hp as <-. simpl in Hpu. subst q.
      rewrite (minv_null st Hinv) in Hq. discriminate.
    + apply lookup_delete_Some in Hp as [_ Hp].
      apply lookup_delete_Some in Hp as [_ Hp].
      apply (Hmark p u Hp Hpu).
  - left. destruct Hstep as [_ ->]. repeat split; assumption.
Qed.

Lemma awaiting_steps q v0 l0 c ops : forall st st',
  manager_inv st ->
  chain_ok (heap st) (current_frametable st) ->
  steps hash m fuel ops st st' ->
  awaiting q v0 l0 c st \/ c < caml_major_cycles_completed st ->
  awaiting q v0 l0 c st' \/ c < caml_major_cycles_completed st'.
Proof.
  induction ops as [|o ops IH]; intros st st' Hinv Hok Hsteps Hst;
    simpl in Hsteps.
  - subst st'. exact Hst.
  - destruct Hsteps as (st1 & Hstep & Hrest).
    apply (IH st1 st'); [| |exact Hrest|].
    + apply (manager_inv_step hash m fuel o st st1 Hinv Hstep).
    + apply (chain_ok_step hash m fuel o st st1 Hinv Hok Hstep).
    + destruct Hst as [Haw|Hlt].
      * apply (awaiting_step q v0 l0 c o st st1 Hinv Hok Hstep Haw).
      * right. pose proof (step_cycles_mono o st st1 Hinv Hstep). lia.
Qed.
End Awaiting_reclamation.

Section Claims_on_the_manager.
Variable hash : Z -> Z.
Variable m : memory.
Variable fuel : nat.

(** C7.  No step of the manager writes into an index that exists:
    after a registration, a fetch of the current table or a completed
    cycle, an array of descriptors allocated before the step holds what
    it held, unless the fetch freed it; the index of a newly registered
    version is an array that was not allocated before; and the lookup
    changes nothing at all. *)
Theorem published_index_never_mutated
    (o : op) (st st' : state) (a : Z) (l : list Z) :
  reachable hash m fuel st ->
  step hash m fuel o st st' ->
  heap st !! a = Some (Descrs l) ->
  (heap st' !! a = Some (Descrs l)
   \/ (o = Get_frame_descrs /\ heap st' !! a = None))
  /\ (forall tbl, o = Register tbl ->
        heap st' !! a = Some (Descrs l)
        /\ exists v l',
             heap st' !! current_frametable st' = Some (Version v)
             /\ heap st' !! descriptors (table v) = Some (Descrs l')
             /\ heap st !! descriptors (table v) = None)
  /\ (forall fuel' fds pc d st'',
        caml_find_frame_descr hash m fuel' fds pc st = Ok d st'' -> st'' = st).
Proof.
  intros Hreach Hstep Ha.
  pose proof (manager_inv_reachable hash m fuel st Hreach) as Hinv.
  assert (Hfind : forall fuel' fds pc d st'',
            caml_find_frame_descr hash m fuel' fds pc st = Ok d st'' -> st'' = st).
  { intros fuel' fds pc d st''. unfold caml_find_frame_descr.
    apply find_loop_state. }
  destruct o as [tbl| |]; simpl in Hstep.
  - pose proof (register_inversion hash m fuel tbl st) as Hr.
    rewrite Hstep in Hr. destruct Hr as (msk & l' & _ & _ & ->).
    assert (Hkeep : heap (registered tbl msk l' st) !! a = Some (Descrs l))
      by (apply registered_lookup_old; exact Ha).
    split; [left; exact Hkeep|]. split; [|exact Hfind].
    intros tbl' _. split; [exact Hkeep|].
    rewrite registered_finished.
    set (st1 := consed tbl st).
    exists (mk_version
              (mk_frame_descrs
                 (alloc_addr (alloc_state (Version uninit_version) st1)) msk)
              (caml_major_cycles_completed st) (current_frametable st)), l'.
    cbn [table descriptors].
    change (current_frametable (finished msk l' _ _ st1)) with (alloc_addr st1).
    rewrite finished_heap.
    assert (Hne : alloc_addr (alloc_state (Version uninit_version) st1)
                  <> alloc_addr st1).
    { intros Heq.
      pose proof (alloc_addr_fresh (alloc_state (Version uninit_version) st1)) as Hf.
      rewrite Heq in Hf. simpl in Hf. rewrite lookup_insert_eq in Hf.
      discriminate. }
    split; [apply lookup_insert_eq|]. split.
    + rewrite lookup_insert_ne by congruence. apply lookup_insert_eq.
    + destruct (heap st !! alloc_addr (alloc_state (Version uninit_version) st1))
        as [x|] eqn:Hx; [|reflexivity].
      apply (consed_lookup_old tbl) in Hx. fold st1 in Hx.
      apply (alloc_state_lookup_old (Version uninit_version)) in Hx.
      rewrite alloc_addr_fresh in Hx. discriminate.
  - destruct Hstep as [fds Hget].
    destruct (caml_get_frame_descrs_spec st Hinv) as (v & Hv & Heq).
    rewrite Heq in Hget. injection Hget as _ <-.
    split; [|split; [intros tbl; discriminate | exact Hfind]].
    destruct (free_prev_after_cycle v <? caml_major_cycles_completed st);
      [|left; exact Ha].
    unfold reclaimed. rewrite Hv.
    destruct (heap st !! prev v) as [[| |w]|]; try (left; exact Ha).
    cbn [heap with_heap].
    assert (Hne : current_frametable st <> a) by congruence.
    rewrite lookup_insert_ne by exact Hne.
    destruct (decide (a = prev v)) as [->|Hne1].
    { right. split; [reflexivity|]. apply lookup_delete_eq. }
    rewrite lookup_delete_ne by congruence.
    destruct (decide (a = descriptors (table w))) as [->|Hne2].
    { right. split; [reflexivity|]. apply lookup_delete_eq. }
    rewrite lookup_delete_ne by congruence. left. exact Ha.
  - destruct Hstep as [_ ->].
    split; [left; exact Ha|]. split; [intros tbl; discriminate | exact Hfind].
Qed.

(** C8.  When an allocation fails during initialisation or
    registration, the process stops in a state where the current-version
    pointer is the one from before the call, and every block that was
    allocated before the call, the current version and its index among
    them, holds what it held: whichever of the allocations fails,
    nothing has been published. *)
Theorem allocation_failure_publishes_nothing
    (tbl : Z) (tbls : list Z) (st st' : state) :
  caml_register_frametable hash m fuel tbl st = Fatal st'
  \/ caml_init_frame_descriptors hash m fuel tbls st = Fatal st' ->
  current_frametable st' = current_frametable st
  /\ forall p b, heap st !! p = Some b -> heap st' !! p = Some b.
Proof.
  intros [Hreg|Hinit].
  - pose proof (register_inversion hash m fuel tbl st) as Hr.
    rewrite Hreg in Hr.
    destruct Hr as [[-> _]|[[-> _]|[-> _]]]; (split; [reflexivity|]);
      intros p b Hp.
    + exact Hp.
    + apply consed_lookup_old. exact Hp.
    + apply alloc_state_lookup_old, consed_lookup_old. exact Hp.
  - pose proof (init_inversion hash m fuel tbls st) as Hi.
    rewrite Hinit in Hi. destruct Hi as [done [-> | ->]].
    + split; [apply consed_all_current|].
      intros p b Hp. apply consed_all_lookup_old. exact Hp.
    + split; [apply (consed_all_current done st)|].
      intros p b Hp. apply alloc_state_lookup_old, consed_all_lookup_old.
      exact Hp.
Qed.

(** C3.  Take the version published by a registration, at a time when
    the counter of completed cycles was [c].  Its marker is [c] and its
    predecessor is the version that was current.  At any time
    afterwards, whatever registrations, fetches of the table and
    completed cycles have happened, whether that version is still
    current or not: either the predecessor and the index of the
    predecessor are still allocated, unchanged, and every version whose
    predecessor it is still has the marker [c]; or the counter is
    strictly above [c].  So no step frees the predecessor while the
    counter has not passed the marker. *)
Theorem predecessor_freed_only_after_marker
    (st0 st1 st2 : state) (tbl : Z) (ops : list op) :
  reachable hash m fuel st0 ->
  caml_register_frametable hash m fuel tbl st0 = Ok tt st1 ->
  steps hash m fuel ops st1 st2 ->
  exists v0 l0 w,
    heap st0 !! current_frametable st0 = Some (Version v0)
    /\ heap st0 !! descriptors (table v0) = Some (Descrs l0)
    /\ heap st1 !! current_frametable st1 = Some (Version w)
    /\ free_prev_after_cycle w = caml_major_cycles_completed st0
    /\ prev w = current_frametable st0
    /\ ((heap st2 !! current_frametable st0 = Some (Version v0)
         /\ heap st2 !! descriptors (table v0) = Some (Descrs l0)
         /\ forall p v,
              heap st2 !! p = Some (Version v) ->
              prev v = current_frametable st0 ->
              free_prev_after_cycle v = caml_major_cycles_completed st0)
        \/ caml_major_cycles_completed st0 < caml_major_cycles_completed st2).
Proof.
  intros Hreach Hreg Hsteps.
  pose proof (manager_inv_reachable hash m fuel st0 Hreach) as Hinv0.
  pose proof (chain_ok_reachable hash m fuel st0 Hreach) as Hok0.
  pose proof (manager_inv_register hash m fuel tbl st0 st1 Hinv0 Hreg) as Hinv1.
  destruct (minv_current st0 Hinv0) as (v0 & l0 & Hv0 & Hl0 & _).
  pose proof (register_inversion hash m fuel tbl st0) as Hr.
  rewrite Hreg in Hr. destruct Hr as (msk & l & _ & _ & Hst1).
  destruct (registered_facts tbl msk l st0)
    as (w & Hw & Hprev & Hmark & _ & _ & _ & Hfcur & _ & _).
  rewrite <- Hst1 in Hw, Hfcur.
  assert (Hok1 : chain_ok (heap st1) (current_frametable st1))
    by (rewrite Hst1; apply chain_ok_registered; assumption).
  assert (Haw : awaiting (current_frametable st0) v0 l0
                  (caml_major_cycles_completed st0) st1).
  { split; [rewrite Hst1; apply registered_lookup_old; exact Hv0|].
    split; [rewrite Hst1; apply registered_lookup_old; exact Hl0|].
    split; [intros Heq; rewrite Heq in Hfcur; congruence|].
    intros p v Hp Hpv. rewrite Hst1 in Hp.
    destruct (registered_versions tbl msk l st0 p v Hp)
      as [(_ & _ & Hm)|Hp']; [exact Hm|].
    exfalso. apply (chain_head _ _ Hok0 p v Hp' Hpv). }
  exists v0, l0, w. split; [exact Hv0|]. split; [exact Hl0|].
  split; [exact Hw|]. split; [exact Hmark|]. split; [exact Hprev|].
  destruct (awaiting_steps hash m fuel _ v0 l0 _ ops st1 st2 Hinv1 Hok1 Hsteps
              (or_introl Haw)) as [(H1 & H2 & _ & H4)|Hlt].
  - left. auto.
  - right. exact Hlt.
Qed.

(** Once the marker of the current version is [No_need_to_free],
    fetching the table frees nothing, however many cycles complete. *)
Lemma no_free_without_marker (ops : list op) : forall st st2,
  manager_inv st ->
  forallb (fun o => negb (is_register o)) ops = true ->
  steps hash m fuel ops st st2 ->
  (exists v, heap st !! current_frametable st = Some (Version v)
             /\ free_prev_after_cycle v = No_need_to_free) ->
  heap st2 = heap st.
Proof.
  induction ops as [|o ops IH]; intros st st2 Hinv Hops Hsteps Hmark.
  - simpl in Hsteps. subst st2. reflexivity.
  - simpl in Hops. apply andb_true_iff in Hops as [Ho Hops].
    destruct Hsteps as (st1 & Hstep & Hsteps).
    pose proof (manager_inv_step hash m fuel o st st1 Hinv Hstep) as Hinv1.
    assert (Hsame : heap st1 = heap st
                    /\ current_frametable st1 = current_frametable st).
    { destruct o as [tbl| |]; [discriminate| |]; simpl in Hstep.
      - destruct Hstep as [fds Hget].
        destruct (caml_get_frame_descrs_spec st Hinv) as (v & Hv & Heq).
        rewrite Heq in Hget. injection Hget as _ <-.
        destruct Hmark as (v' & Hv' & Hm).
        assert (v' = v) by congruence. subst v'.
        pose proof (minv_cycles st Hinv) as Hcyc.
        destruct (free_prev_after_cycle v <? caml_major_cycles_completed st)
          eqn:Hdue; [apply Z.ltb_lt in Hdue; lia | auto].
      - destruct Hstep as [_ ->]. auto. }
    destruct Hsame as [Hheap Hcurr].
    rewrite <- Hheap. apply (IH st1 st2 Hinv1 Hops Hsteps).
    rewrite Hheap, Hcurr. exact Hmark.
Qed.

(** C10.  In every state reached from the initialisation by
    registrations, fetches of the table and completed cycles (the
    counter staying below the reserved word), a version has the marker
    [No_need_to_free] exactly when its [prev] is [NULL].  Fetching the
    table never touches a freed block: either it frees nothing, or it
    frees the predecessor of the current version, clears [prev] and
    sets the marker; and from a state where the marker is set, no
    later fetch frees anything, so a predecessor is freed once at
    most. *)
Theorem marker_iff_no_predecessor (st : state) :
  reachable hash m fuel st ->
  (forall p v, heap st !! p = Some (Version v) ->
     (free_prev_after_cycle v = No_need_to_free <-> prev v = NULL))
  /\ exists v st',
       heap st !! current_frametable st = Some (Version v)
       /\ caml_get_frame_descrs st = Ok (table v) st'
       /\ (st' = st
           \/ (prev v <> NULL
               /\ free_prev_after_cycle v < caml_major_cycles_completed st
               /\ heap st' !! prev v = None
               /\ heap st' !! current_frametable st
                  = Some (Version
                            (mk_version (table v) No_need_to_free NULL))))
       /\ forall v' ops st'',
            heap st' !! current_frametable st' = Some (Version v') ->
            free_prev_after_cycle v' = No_need_to_free ->
            forallb (fun o => negb (is_register o)) ops = true ->
            steps hash m fuel ops st' st'' ->
            heap st'' = heap st'.
Proof.
  intros Hreach.
  pose proof (manager_inv_reachable hash m fuel st Hreach) as Hinv.
  split; [apply (minv_marker st Hinv)|].
  destruct (caml_get_frame_descrs_spec st Hinv) as (v & Hv & Heq).
  pose proof (manager_inv_get st _ _ Hinv Heq) as Hinv'.
  eexists v, _. split; [exact Hv|]. split; [exact Heq|]. split.
  - destruct (free_prev_after_cycle v <? caml_major_cycles_completed st)
      eqn:Hdue; [|left; reflexivity].
    right. apply Z.ltb_lt in Hdue.
    pose proof (minv_cycles st Hinv) as Hcyc.
    assert (Hnz : prev v <> NULL).
    { intros Hz. apply (minv_marker st Hinv _ _ Hv) in Hz. lia. }
    destruct (minv_current st Hinv) as (v' & l' & Hv' & _ & Hprev).
    assert (v' = v) by congruence. subst v'.
    destruct (Hprev Hnz) as (Hpc & w & lw & Hw & _).
    split; [exact Hnz|]. split; [exact Hdue|].
    unfold reclaimed. rewrite Hv, Hw. cbn [heap with_heap].
    split; [|apply lookup_insert_eq].
    rewrite lookup_insert_ne by congruence. apply lookup_delete_eq.
  - intros v' ops st'' Hv' Hm Hops Hsteps.
    apply (no_free_without_marker ops _ st'' Hinv' Hops Hsteps).
    exists v'. auto.
Qed.
End Claims_on_the_manager.

(** ** Two runs of the builder *)

Lemma array_sim_ret {A} a1 a2 (x : A) : array_sim a1 a2 (ret x) (ret x).
Proof.
  intros st1 st2 l H1 H2. simpl. split; [reflexivity|]. exists l.
  rewrite !set_array_same by assumption. auto.
Qed.

Lemma array_sim_diverge {A} a1 a2 : array_sim a1 a2 (@diverge A) (@diverge A).
Proof. intros st1 st2 l H1 H2. exact I. Qed.

Lemma array_sim_bind {A B} a1 a2 (c1 c2 : M A) (k1 k2 : A -> M B) :
  array_sim a1 a2 c1 c2 -> (forall x, array_sim a1 a2 (k1 x) (k2 x)) ->
  array_sim a1 a2 (bind c1 k1) (bind c2 k2).
Proof.
  intros Hc Hk st1 st2 l H1 H2. unfold bind.
  specialize (Hc st1 st2 l H1 H2). unfold same_run in Hc.
  destruct (c1 st1) as [x s1| | |], (c2 st2) as [y s2| | |];
    try contradiction; try exact I.
  destruct Hc as (<- & l1 & -> & ->).
  specialize (Hk x (set_array a1 l1 st1) (set_array a2 l1 st2) l1
                (set_array_lookup _ _ _) (set_array_lookup _ _ _)).
  unfold same_run in *.
  destruct (k1 x (set_array a1 l1 st1)) as [x' s1'| | |],
    (k2 x (set_array a2 l1 st2)) as [y' s2'| | |];
    try contradiction; try exact I.
  destruct Hk as (<- & l2 & -> & ->). split; [reflexivity|].
  exists l2. rewrite !set_array_twice. auto.
Qed.

Lemma array_sim_load_slot a1 a2 h :
  array_sim a1 a2 (load_slot a1 h) (load_slot a2 h).
Proof.
  intros st1 st2 l H1 H2. unfold load_slot. rewrite H1, H2.
  destruct (0 <=? h); [|exact I].
  destruct (l !! Z.to_nat h); [|exact I].
  split; [reflexivity|]. exists l. rewrite !set_array_same by assumption. auto.
Qed.

Lemma array_sim_store_slot a1 a2 h v :
  array_sim a1 a2 (store_slot a1 h v) (store_slot a2 h v).
Proof.
  intros st1 st2 l H1 H2. unfold store_slot. rewrite H1, H2.
  destruct ((0 <=? h) && (h <? Z.of_nat (length l))); [|exact I].
  split; [reflexivity|]. eexists. split; reflexivity.
Qed.

Lemma array_sim_clear_slots a1 a2 n : forall i,
  array_sim a1 a2 (clear_slots n a1 i) (clear_slots n a2 i).
Proof.
  induction n as [|n IH]; intros i; simpl.
  - apply array_sim_ret.
  - apply array_sim_bind; [apply array_sim_store_slot | intros _; apply IH].
Qed.

Lemma array_sim_probe_empty fuel t1 t2 :
  mask t1 = mask t2 -> forall h,
  array_sim (descriptors t1) (descriptors t2)
    (probe_empty fuel t1 h) (probe_empty fuel t2 h).
Proof.
  intros Hmask. induction fuel as [|fuel IH]; intros h; simpl.
  - apply array_sim_diverge.
  - apply array_sim_bind; [apply array_sim_load_slot|].
    intros v. rewrite Hmask.
    destruct (negb (v =? NULL)); [apply IH | apply array_sim_ret].
Qed.

Lemma array_sim_insert_descr hash m fuel t1 t2 tblsize d :
  mask t1 = mask t2 ->
  array_sim (descriptors t1) (descriptors t2)
    (insert_descr hash m fuel t1 tblsize d)
    (insert_descr hash m fuel t2 tblsize d).
Proof.
  intros Hmask. unfold insert_descr.
  apply array_sim_bind; [apply array_sim_probe_empty; exact Hmask|].
  intros h. apply array_sim_store_slot.
Qed.

Lemma array_sim_fill_table hash m fuel t1 t2 tblsize n :
  mask t1 = mask t2 -> forall d,
  array_sim (descriptors t1) (descriptors t2)
    (fill_table hash m fuel t1 tblsize n d)
    (fill_table hash m fuel t2 tblsize n d).
Proof.
  intros Hmask. induction n as [|n IH]; intros d; simpl.
  - apply array_sim_ret.
  - apply array_sim_bind; [apply array_sim_insert_descr; exact Hmask|].
    intros _. apply IH.
Qed.

Lemma array_sim_fill_chain hash m fuel t1 t2 tblsize chain :
  mask t1 = mask t2 ->
  array_sim (descriptors t1) (descriptors t2)
    (fill_chain hash m fuel t1 tblsize chain)
    (fill_chain hash m fuel t2 tblsize chain).
Proof.
  intros Hmask. induction chain as [|tbl chain IH]; simpl.
  - apply array_sim_ret.
  - apply array_sim_bind; [apply array_sim_fill_table; exact Hmask|].
    intros _. exact IH.
Qed.

(** More fuel does not change a run that returned. *)
Lemma bind_Ok {A B} (c : M A) (k : A -> M B) st y st' :
  bind c k st = Ok y st' ->
  exists x s1, c st = Ok x s1 /\ k x s1 = Ok y st'.
Proof.
  unfold bind. destruct (c st) as [x s1| | |]; try discriminate.
  intros H. exists x, s1. auto.
Qed.

Lemma bind_Ok_intro {A B} (c : M A) (k : A -> M B) st x s1 y st' :
  c st = Ok x s1 -> k x s1 = Ok y st' -> bind c k st = Ok y st'.
Proof. intros Hc Hk. unfold bind. rewrite Hc. exact Hk. Qed.

Lemma grow_tblsize_more_fuel fuel : forall fuel' tblsize n r,
  grow_tblsize fuel tblsize n = Some r -> (fuel <= fuel')%nat ->
  grow_tblsize fuel' tblsize n = Some r.
Proof.
  induction fuel as [|fuel IH]; intros fuel' tblsize n r; simpl; [discriminate|].
  intros H Hle. destruct fuel' as [|fuel']; [lia|]. simpl.
  destruct (tblsize <? intnat (2 * n)); [|exact H].
  apply IH; [exact H | lia].
Qed.

Lemma probe_empty_more_fuel t fuel : forall fuel' h st x st',
  probe_empty fuel t h st = Ok x st' -> (fuel <= fuel')%nat ->
  probe_empty fuel' t h st = Ok x st'.
Proof.
  induction fuel as [|fuel IH]; intros fuel' h st x st'; simpl; [discriminate|].
  intros H Hle. destruct fuel' as [|fuel']; [lia|]. simpl.
  apply bind_Ok in H as (v & s1 & Hload & H).
  apply (bind_Ok_intro _ _ _ v s1); [exact Hload|].
  destruct (negb (v =? NULL)); [|exact H].
  apply IH; [exact H | lia].
Qed.

Lemma insert_descr_more_fuel hash m t tblsize d fuel fuel' st x st' :
  insert_descr hash m fuel t tblsize d st = Ok x st' -> (fuel <= fuel')%nat ->
  insert_descr hash m fuel' t tblsize d st = Ok x st'.
Proof.
  unfold insert_descr. intros H Hle.
  apply bind_Ok in H as (h & s1 & Hprobe & H).
  apply (bind_Ok_intro _ _ _ h s1); [|exact H].
  eapply probe_empty_more_fuel; eauto.
Qed.

Lemma fill_table_more_fuel hash m t tblsize fuel fuel' n : forall d st x st',
  fill_table hash m fuel t tblsize n d st = Ok x st' -> (fuel <= fuel')%nat ->
  fill_table hash m fuel' t tblsize n d st = Ok x st'.
Proof.
  induction n as [|n IH]; intros d st x st'; simpl; [auto|].
  intros H Hle. apply bind_Ok in H as ([] & s1 & Hins & H).
  apply (bind_Ok_intro _ _ _ tt s1).
  - eapply insert_descr_more_fuel; eauto.
  - apply IH; assumption.
Qed.

Lemma fill_chain_more_fuel hash m t tblsize fuel fuel' chain : forall st x st',
  fill_chain hash m fuel t tblsize chain st = Ok x st' -> (fuel <= fuel')%nat ->
  fill_chain hash m fuel' t tblsize chain st = Ok x st'.
Proof.
  induction chain as [|tbl chain IH]; intros st x st'; simpl; [auto|].
  intros H Hle. apply bind_Ok in H as ([] & s1 & Hfill & H).
  apply (bind_Ok_intro _ _ _ tt s1).
  - eapply fill_table_more_fuel; eauto.
  - apply IH; assumption.
Qed.

Lemma build_frame_descriptors_more_fuel hash m chain fuel fuel' st fds st' :
  build_frame_descriptors hash m fuel chain st = Ok fds st' ->
  (fuel <= fuel')%nat ->
  build_frame_descriptors hash m fuel' chain st = Ok fds st'.
Proof.
  unfold build_frame_descriptors. intros H Hle.
  destruct (grow_tblsize fuel 4 (count_descrs m chain 0)) as [tblsize|] eqn:Hg;
    [|discriminate].
  rewrite (grow_tblsize_more_fuel _ _ _ _ _ Hg Hle).
  apply bind_Ok in H as (a & s1 & Halloc & H).
  apply (bind_Ok_intro _ _ _ a s1); [exact Halloc|].
  apply bind_Ok in H as ([] & s2 & Hclear & H).
  apply (bind_Ok_intro _ _ _ tt s2); [exact Hclear|].
  apply bind_Ok in H as ([] & s3 & Hfill & H).
  apply (bind_Ok_intro _ _ _ tt s3); [|exact H].
  eapply fill_chain_more_fuel; eauto.
Qed.

Lemma build_same_fuel hash m fuel chain st1 st2 fds1 st1' fds2 st2' :
  build_frame_descriptors hash m fuel chain st1 = Ok fds1 st1' ->
  build_frame_descriptors hash m fuel chain st2 = Ok fds2 st2' ->
  mask fds1 = mask fds2
  /\ exists l,
       heap st1' !! descriptors fds1 = Some (Descrs l)
       /\ heap st2' !! descriptors fds2 = Some (Descrs l).
Proof.
  unfold build_frame_descriptors.
  destruct (grow_tblsize fuel 4 (count_descrs m chain 0)) as [tblsize|];
    [|discriminate].
  intros H1 H2.
  apply bind_Ok in H1 as (a1 & s1 & Halloc1 & H1).
  apply bind_Ok in H2 as (a2 & s2 & Halloc2 & H2).
  rewrite caml_stat_alloc_eq in Halloc1, Halloc2.
  destruct (avail st1); [discriminate|]. destruct (avail st2); [discriminate|].
  injection Halloc1 as <- <-. injection Halloc2 as <- <-.
  set (l0 := replicate _ uninit) in *.
  set (a1 := alloc_addr st1) in *. set (a2 := alloc_addr st2) in *.
  set (t1 := mk_frame_descrs a1 (tblsize - 1)) in *.
  set (t2 := mk_frame_descrs a2 (tblsize - 1)) in *.
  apply bind_Ok in H1 as ([] & s1 & Hclear1 & H1).
  apply bind_Ok in H2 as ([] & s2 & Hclear2 & H2).
  apply bind_Ok in H1 as ([] & s1f & Hfill1 & H1).
  apply bind_Ok in H2 as ([] & s2f & Hfill2 & H2).
  unfold ret in H1, H2. injection H1 as <- <-. injection H2 as <- <-.
  pose proof (array_sim_clear_slots a1 a2 (Z.to_nat tblsize) 0
                (alloc_state (Descrs l0) st1) (alloc_state (Descrs l0) st2) l0)
    as Hc.
  rewrite Hclear1, Hclear2 in Hc.
  destruct Hc as (_ & lc & -> & ->);
    [simpl; apply lookup_insert_eq | simpl; apply lookup_insert_eq |].
  pose proof (array_sim_fill_chain hash m fuel t1 t2 tblsize chain eq_refl
                _ _ lc
                (set_array_lookup a1 lc (alloc_state (Descrs l0) st1))
                (set_array_lookup a2 lc (alloc_state (Descrs l0) st2)))
    as Hf.
  simpl descriptors in Hf. rewrite Hfill1, Hfill2 in Hf.
  destruct Hf as (_ & lf & -> & ->).
  split; [reflexivity|]. exists lf. simpl descriptors.
  split; apply set_array_lookup.
Qed.

Section Determinism.
Variable hash : Z -> Z.
Variable m : memory.

(** C9.  Two runs of the builder on the same chain, from any two
    states of the heap and with any fuel, that both return, return
    tables with the same mask and the same contents, slot by slot. *)
Theorem build_deterministic
    (chain : list Z) (fuel1 fuel2 : nat) (st1 st2 : state)
    (fds1 fds2 : caml_frame_descrs) (st1' st2' : state) :
  build_frame_descriptors hash m fuel1 chain st1 = Ok fds1 st1' ->
  build_frame_descriptors hash m fuel2 chain st2 = Ok fds2 st2' ->
  mask fds1 = mask fds2
  /\ exists l,
       heap st1' !! descriptors fds1 = Some (Descrs l)
       /\ heap st2' !! descriptors fds2 = Some (Descrs l).
Proof.
  intros H1 H2.
  apply (build_same_fuel hash m (max fuel1 fuel2) chain st1 st2 fds1 st1'
           fds2 st2').
  - eapply build_frame_descriptors_more_fuel; [exact H1 | lia].
  - eapply build_frame_descriptors_more_fuel; [exact H2 | lia].
Qed.

(** On well-formed tables both runs do return. *)
Lemma build_returns
    (chain : list Z) (fuel : nat) (st : state) (n : nat) :
  wf_tables m chain = true ->
  (4 * length (chain_records m chain) + 68 <= fuel)%nat ->
  avail st = S n ->
  exists fds st', build_frame_descriptors hash m fuel chain st = Ok fds st'.
Proof.
  intros Hwf Hfuel Havail.
  destruct (build_frame_descriptors_spec hash m chain Hwf)
    as (k & l & Hk & Hge & Hmin & Hinv & _ & Hbuild).
  pose proof (tblsize_le_fuel k _ fuel ltac:(lia) Hmin Hfuel) as Hfuel'.
  eexists _, _. apply Hbuild; [exact Hfuel' | exact Havail].
Qed.
End Determinism.

(** ** The current index covers every registered table *)

Lemma records_of_in_chain m tbl r chain :
  tbl ∈ chain -> r ∈ records_of m tbl -> r ∈ chain_records m chain.
Proof.
  intros Htbl Hr. induction chain as [|t chain IH].
  - apply elem_of_nil in Htbl. contradiction.
  - simpl. apply elem_of_app. apply elem_of_cons in Htbl as [->|Htbl].
    + left. exact Hr.
    + right. apply IH. exact Htbl.
Qed.

Section Indexed.
Variable hash : Z -> Z.
Variable m : memory.
Variable fuel : nat.

Lemma indexed_finished chain msk l marker old st1 :
  wf_tables m chain = true ->
  (4 * length (chain_records m chain) + 68 <= fuel)%nat ->
  frametables st1 = chain ->
  build_frame_descriptors hash m fuel chain
    (alloc_state (Version uninit_version) st1)
  = Ok (mk_frame_descrs
          (alloc_addr (alloc_state (Version uninit_version) st1)) msk)
      (alloc_state (Descrs l) (alloc_state (Version uninit_version) st1)) ->
  indexed hash m (finished msk l marker old st1).
Proof.
  intros Hwf Hfuel Hchain Hbuild.
  set (st2 := alloc_state (Version uninit_version) st1) in *.
  set (a := alloc_addr st2) in *.
  destruct (build_frame_descriptors_spec hash m chain Hwf)
    as (k & ls & Hk & Hge & Hmin & Hinv & _ & Hspec).
  pose proof (tblsize_le_fuel k _ fuel ltac:(lia) Hmin Hfuel) as Hfuel'.
  pose proof (build_frame_descriptors_inversion hash m fuel chain st2) as Hb.
  rewrite Hbuild in Hb. destruct Hb as (_ & Hav & _).
  destruct (avail st2) as [|n] eqn:Havail; [contradiction|].
  rewrite (Hspec fuel st2 n Hfuel' Havail) in Hbuild.
  injection Hbuild as Hmsk Hheap _.
  assert (Hl : ls = l).
  { apply (f_equal (fun h : gmap Z block => h !! alloc_addr st2)) in Hheap.
    rewrite !lookup_insert_eq in Hheap. congruence. }
  subst ls.
  pose proof (pow2_le_mono 2 k ltac:(lia)) as Hk2. change (2 ^ 2) with 4 in Hk2.
  pose proof (inv_size _ _ _ _ _ Hinv) as Hsize.
  exists (mk_version (mk_frame_descrs a msk) marker old), k, l.
  change (current_frametable (finished msk l marker old st1))
    with (alloc_addr st1).
  change (frametables (finished msk l marker old st1)) with (frametables st1).
  rewrite Hchain. cbn [table descriptors mask].
  assert (Hne : a <> alloc_addr st1).
  { intros Heq. pose proof (alloc_addr_fresh st2) as Hf. fold a in Hf.
    rewrite Heq in Hf. unfold st2 in Hf. simpl in Hf.
    rewrite lookup_insert_eq in Hf. discriminate. }
  rewrite finished_heap. fold st2. fold a.
  split; [apply lookup_insert_eq|]. split; [congruence|].
  split; [rewrite lookup_insert_ne by congruence; apply lookup_insert_eq|].
  split; [exact Hinv|]. split; [lia|]. split; [lia | exact Hmin].
Qed.

Lemma get_keeps_current_index st v l fds st' :
  manager_inv st ->
  heap st !! current_frametable st = Some (Version v) ->
  heap st !! descriptors (table v) = Some (Descrs l) ->
  caml_get_frame_descrs st = Ok fds st' ->
  fds = table v
  /\ frametables st' = frametables st
  /\ current_frametable st' = current_frametable st
  /\ heap st' !! descriptors (table v) = Some (Descrs l)
  /\ exists v', heap st' !! current_frametable st = Some (Version v')
                /\ table v' = table v.
Proof.
  intros Hinv Hv Hl Hget.
  destruct (caml_get_frame_descrs_spec st Hinv) as (v1 & Hv1 & Heq).
  assert (v1 = v) by congruence. subst v1.
  rewrite Heq in Hget. injection Hget as <- <-.
  split; [reflexivity|].
  destruct (free_prev_after_cycle v <? caml_major_cycles_completed st) eqn:Hdue.
  2: { repeat split; try assumption. exists v. auto. }
  apply Z.ltb_lt in Hdue.
  pose proof (minv_cycles st Hinv) as Hcyc.
  assert (Hnz : prev v <> NULL).
  { intros Hz. apply (minv_marker st Hinv _ _ Hv) in Hz. lia. }
  destruct (minv_current st Hinv) as (v' & l' & Hv' & Hl' & Hprev).
  assert (v' = v) by congruence. subst v'.
  destruct (Hprev Hnz) as (Hpc & w & lw & Hw & Hlw & Hdist).
  unfold reclaimed. rewrite Hv, Hw.
  cbn [heap with_heap frametables current_frametable].
  split; [reflexivity|]. split; [reflexivity|]. split.
  - rewrite lookup_insert_ne by congruence.
    rewrite !lookup_delete_ne by congruence. exact Hl.
  - eexists. split; [apply lookup_insert_eq | reflexivity].
Qed.

Lemma indexed_step o st st' :
  manager_inv st ->
  step hash m fuel o st st' ->
  (wf_tables m (frametables st) = true ->
   (4 * length (chain_records m (frametables st)) + 68 <= fuel)%nat ->
   indexed hash m st) ->
  wf_tables m (frametables st') = true ->
  (4 * length (chain_records m (frametables st')) + 68 <= fuel)%nat ->
  indexed hash m st'.
Proof.
  intros Hinv Hstep IH Hwf Hfuel. destruct o as [tbl| |]; simpl in Hstep.
  - pose proof (register_inversion hash m fuel tbl st) as Hr.
    rewrite Hstep in Hr. destruct Hr as (msk & l & _ & Hbuild & ->).
    rewrite registered_finished in *.
    apply (indexed_finished (tbl :: frametables st)); try assumption.
    reflexivity.
  - destruct Hstep as [fds Hget].
    destruct (minv_current st Hinv) as (v0 & l0 & Hv0 & Hl0 & _).
    destruct (get_keeps_current_index st v0 l0 fds st' Hinv Hv0 Hl0 Hget)
      as (_ & Hft & Hcur & _ & _).
    rewrite Hft in Hwf, Hfuel.
    destruct (IH Hwf Hfuel)
      as (v & k & l & Hv & Hmask & Hl & Hidx & Hroom & Hk2 & Hmin).
    destruct (get_keeps_current_index st v l fds st' Hinv Hv Hl Hget)
      as (_ & _ & _ & Hl' & v' & Hv' & Htab).
    exists v', k, l. rewrite Hcur, Hft, Htab. auto 10.
  - destruct Hstep as [_ ->]. apply IH; assumption.
Qed.

Lemma step_frametables o st st' :
  manager_inv st -> step hash m fuel o st st' ->
  frametables st'
  = match o with
    | Register tbl => tbl :: frametables st
    | _ => frametables st
    end.
Proof.
  intros Hinv Hstep. destruct o as [tbl| |]; simpl in Hstep.
  - pose proof (register_inversion hash m fuel tbl st) as Hr.
    rewrite Hstep in Hr. destruct Hr as (msk & l & _ & _ & ->). reflexivity.
  - destruct Hstep as [fds Hget].
    destruct (minv_current st Hinv) as (v0 & l0 & Hv0 & Hl0 & _).
    destruct (get_keeps_current_index st v0 l0 fds st' Hinv Hv0 Hl0 Hget)
      as (_ & Hft & _).
    exact Hft.
  - destruct Hstep as [_ ->]. reflexivity.
Qed.

Lemma indexed_steps ops : forall st st',
  manager_inv st ->
  steps hash m fuel ops st st' ->
  (wf_tables m (frametables st) = true ->
   (4 * length (chain_records m (frametables st)) + 68 <= fuel)%nat ->
   indexed hash m st) ->
  wf_tables m (frametables st') = true ->
  (4 * length (chain_records m (frametables st')) + 68 <= fuel)%nat ->
  indexed hash m st'.
Proof.
  induction ops as [|o ops IH]; intros st st' Hinv Hsteps Hst Hwf Hfuel;
    simpl in Hsteps.
  - subst st'. apply Hst; assumption.
  - destruct Hsteps as (st1 & Hstep & Hsteps).
    pose proof (manager_inv_step hash m fuel o st st1 Hinv Hstep) as Hinv1.
    apply (IH st1 st' Hinv1 Hsteps); try assumption.
    apply (indexed_step o st st1 Hinv Hstep Hst).
Qed.

Lemma indexed_init tbls avail st0 :
  caml_init_frame_descriptors hash m fuel tbls (initial_state avail)
  = Ok tt st0 ->
  wf_tables m (frametables st0) = true ->
  (4 * length (chain_records m (frametables st0)) + 68 <= fuel)%nat ->
  indexed hash m st0.
Proof.
  intros Hinit Hwf Hfuel.
  pose proof (init_inversion hash m fuel tbls (initial_state avail)) as Hi.
  rewrite Hinit in Hi. destruct Hi as (done & msk & l & Hbuild & ->).
  apply (indexed_finished (frametables (consed_all done (initial_state avail))));
    try assumption.
  reflexivity.
Qed.

Lemma indexed_reachable st :
  reachable hash m fuel st ->
  wf_tables m (frametables st) = true ->
  (4 * length (chain_records m (frametables st)) + 68 <= fuel)%nat ->
  indexed hash m st.
Proof.
  intros (avail & tbls & ops & st0 & Hinit & Hsteps).
  apply (indexed_steps ops st0 st); try assumption.
  - eapply manager_inv_init; eauto.
  - apply (indexed_init tbls avail). exact Hinit.
Qed.

Lemma steps_app ops1 : forall ops2 st st',
  steps hash m fuel (ops1 ++ ops2) st st'
  <-> exists st1, steps hash m fuel ops1 st st1 /\ steps hash m fuel ops2 st1 st'.
Proof.
  induction ops1 as [|o ops1 IH]; intros ops2 st st'; simpl.
  - split.
    + intros H. exists st. auto.
    + intros (st1 & -> & H). exact H.
  - split.
    + intros (sta & Hstep & Hsteps). apply IH in Hsteps as (st1 & H1 & H2).
      exists st1. split; [|exact H2]. exists sta. auto.
    + intros (st1 & (sta & Hstep & H1) & H2). exists sta. split; [exact Hstep|].
      apply IH. exists st1. auto.
Qed.

Lemma reachable_steps ops st st' :
  reachable hash m fuel st -> steps hash m fuel ops st st' ->
  reachable hash m fuel st'.
Proof.
  intros (avail & tbls & ops0 & st0 & Hinit & Hsteps0) Hsteps.
  exists avail, tbls, (ops0 ++ ops), st0. split; [exact Hinit|].
  apply steps_app. exists st. auto.
Qed.

Lemma steps_registered ops : forall st st' tbl,
  manager_inv st -> steps hash m fuel ops st st' ->
  tbl ∈ frametables st \/ Register tbl ∈ ops ->
  tbl ∈ frametables st'.
Proof.
  induction ops as [|o ops IH]; intros st st' tbl Hinv Hsteps Htbl;
    simpl in Hsteps.
  - subst st'. destruct Htbl as [H|H]; [exact H|].
    apply elem_of_nil in H. contradiction.
  - destruct Hsteps as (st1 & Hstep & Hrest).
    pose proof (manager_inv_step hash m fuel o st st1 Hinv Hstep) as Hinv1.
    pose proof (step_frametables o st st1 Hinv Hstep) as Hft.
    apply (IH st1 st' tbl Hinv1 Hrest).
    destruct Htbl as [Hold|Hnew].
    + left. rewrite Hft. destruct o; [apply elem_of_cons; right|..]; exact Hold.
    + apply elem_of_cons in Hnew as [<-|Hnew]; [|right; exact Hnew].
      left. rewrite Hft. apply elem_of_cons. left. reflexivity.
Qed.

(** C1.  Take any run of the manager: a state [st0] reached by any
    registrations, then any further steps [ops], registrations among
    them, ending in [st].  Every table of the chain at [st0] and every
    table registered by [ops] is in the chain at [st].  If the tables of
    that chain are well-formed and their return addresses unique, the
    current table serves every record of every table of the chain:
    looking up the return address of the record returns the record, at
    its own address.  The non-null slots of the index hold registered
    records only, one slot per record, and looking up an address that
    was never registered returns [NULL]. *)
Theorem lookup_returns_registered_record
    (st0 st : state) (ops : list op) :
  reachable hash m fuel st0 ->
  steps hash m fuel ops st0 st ->
  wf_tables m (frametables st) = true ->
  unique_retaddrs m (frametables st) = true ->
  (4 * length (chain_records m (frametables st)) + 68 <= fuel)%nat ->
  (forall tbl, tbl ∈ frametables st0 \/ Register tbl ∈ ops ->
     tbl ∈ frametables st)
  /\ exists fds st' l,
       caml_get_frame_descrs st = Ok fds st'
       /\ (forall tbl r, tbl ∈ frametables st -> r ∈ records_of m tbl ->
             caml_find_frame_descr hash m fuel fds (retaddr m r) st' = Ok r st')
       /\ heap st' !! descriptors fds = Some (Descrs l)
       /\ (forall (i : nat) v, l !! i = Some v -> v <> NULL ->
             v ∈ chain_records m (frametables st))
       /\ occupied l = length (chain_records m (frametables st))
       /\ (forall pc,
             pc ∉ map (retaddr m) (chain_records m (frametables st)) ->
             caml_find_frame_descr hash m fuel fds pc st' = Ok NULL st').
Proof.
  intros Hreach0 Hsteps Hwf Huniq Hfuel.
  pose proof (reachable_steps _ _ _ Hreach0 Hsteps) as Hreach.
  pose proof (manager_inv_reachable hash m fuel st Hreach) as Hinv.
  pose proof (manager_inv_reachable hash m fuel st0 Hreach0) as Hinv0.
  split; [intros tbl; apply (steps_registered ops st0 st tbl Hinv0 Hsteps)|].
  destruct (indexed_reachable st Hreach Hwf Hfuel)
    as (v & k & l & Hv & Hmask & Hl & Hidx & Hroom & Hk2 & Hmin).
  destruct (caml_get_frame_descrs_spec st Hinv) as (v1 & Hv1 & Hget).
  assert (v1 = v) by congruence. subst v1.
  destruct (get_keeps_current_index st v l _ _ Hinv Hv Hl Hget)
    as (_ & _ & _ & Hl' & _).
  pose proof (tblsize_le_fuel k _ fuel Hk2 Hmin Hfuel) as Hfuel'.
  unfold unique_retaddrs in Huniq. apply bool_decide_eq_true in Huniq.
  eexists (table v), _, l. split; [exact Hget|].
  split; [|split; [exact Hl'|split; [|split]]].
  - intros tbl r Htbl Hr. unfold caml_find_frame_descr. rewrite Hmask.
    eapply find_loop_sim; [exact Hl'|]. rewrite Hmask.
    apply (slots_find_hit hash m k l (chain_records m (frametables st)));
      try assumption; [|lia].
    apply (records_of_in_chain m tbl); assumption.
  - intros i x Hx Hnz. eapply (inv_sound _ _ _ _ _ Hidx); eauto.
  - apply (inv_occupied _ _ _ _ _ Hidx).
  - intros pc Hpc. unfold caml_find_frame_descr. rewrite Hmask.
    eapply find_loop_sim; [exact Hl'|]. rewrite Hmask.
    apply (slots_find_miss hash m k l (chain_records m (frametables st)));
      try assumption. lia.
Qed.
End Indexed.

(** ** The code run on the memory image *)

Example next_frame_descr_plain :
  next_frame_descr example_memory 0x1008 = 0x1018.
Proof. vm_compute. reflexivity. Qed.

Example next_frame_descr_alloc_lengths :
  next_frame_descr example_memory 0x1018 = 0x1030.
Proof. vm_compute. reflexivity. Qed.

Example next_frame_descr_debug_word :
  next_frame_descr example_memory 0x1030 = 0x1040.
Proof. vm_compute. reflexivity. Qed.

Example next_frame_descr_sentinel :
  next_frame_descr example_memory 0x1098 = 0x10a8.
Proof. vm_compute. reflexivity. Qed.

Example next_frame_descr_alloc_lengths_and_debug :
  next_frame_descr example_memory 0x10a8 = 0x10c8.
Proof. vm_compute. reflexivity. Qed.

Example records_of_the_fourth_table :
  chain_records example_memory [table4] = [0x1098; 0x10a8].
Proof. vm_compute. reflexivity. Qed.

Example tblsize_of_three_records :
  count_descrs example_memory [table3] 0 = 3
  /\ grow_tblsize 64 4 (count_descrs example_memory [table3] 0) = Some 8.
Proof. vm_compute. split; reflexivity. Qed.

Example lookup_after_two_registrations :
  frametables (example_registered_again 10) = [table3; table2; table1]
  /\ caml_get_frame_descrs (example_registered_again 10)
     = Ok (mk_frame_descrs 9 15) (example_registered_again 10)
  /\ heap (example_registered_again 10) !! 9
     = Some (Descrs [0; 0x1060; 0x1070; 0x1080; 0x1008; 0x1018; 0x1030; 0;
                     0; 0; 0x1048; 0; 0; 0; 0; 0])
  /\ caml_find_frame_descr example_hash example_memory 100
       (mk_frame_descrs 9 15) 0x5010 (example_registered_again 10)
     = Ok 0x1008 (example_registered_again 10)
  /\ caml_find_frame_descr example_hash example_memory 100
       (mk_frame_descrs 9 15) 0x5018 (example_registered_again 10)
     = Ok NULL (example_registered_again 10).
Proof. vm_compute. repeat split; reflexivity. Qed.

Example registration_fails_at_each_allocation :
  (exists st', caml_register_frametable example_hash example_memory 100 table2
                 (example_init 3) = Fatal st'
               /\ heap st' = heap (example_init 3)
               /\ current_frametable st' = 2)
  /\ (exists st', caml_register_frametable example_hash example_memory 100
                    table2 (example_init 4) = Fatal st'
                  /\ heap st' = <[4 := Link table2]> (heap (example_init 4))
                  /\ current_frametable st' = 2)
  /\ (exists st', caml_register_frametable example_hash example_memory 100
                    table2 (example_init 5) = Fatal st'
                  /\ heap st'
                     = <[5 := Version uninit_version]>
                         (<[4 := Link table2]> (heap (example_init 5)))
                  /\ current_frametable st' = 2).
Proof.
  split; [|split]; eexists; (split; [vm_compute; reflexivity|]);
    split; vm_compute; reflexivity.
Qed.

Example index_of_two_tables :
  exists st',
    build_frame_descriptors example_hash example_memory 100 [table2; table1]
      (initial_state 1)
    = Ok (mk_frame_descrs 1 7) st'
    /\ heap st' !! 1
       = Some (Descrs [0; 0; 0x1048; 0x1008; 0x1018; 0; 0x1030; 0]).
Proof. eexists. split; vm_compute; reflexivity. Qed.

Lemma next_frame_descr_spec_witness :
  next_frame_descr example_memory 0x10a8 = spec_next_record example_memory 0x10a8.
Proof.
  apply next_frame_descr_spec; [lia | vm_compute; reflexivity].
Defined.

Lemma lookup_returns_registered_record_witness :
  (forall tbl,
     tbl ∈ frametables (example_init 10)
     \/ Register tbl ∈ [Register table2; Register table3] ->
     tbl ∈ frametables (example_registered_again 10))
  /\ exists fds st' l,
       caml_get_frame_descrs (example_registered_again 10) = Ok fds st'
       /\ (forall tbl r,
             tbl ∈ frametables (example_registered_again 10) ->
             r ∈ records_of example_memory tbl ->
             caml_find_frame_descr example_hash example_memory 100 fds
               (retaddr example_memory r) st' = Ok r st')
       /\ heap st' !! descriptors fds = Some (Descrs l)
       /\ (forall (i : nat) v, l !! i = Some v -> v <> NULL ->
             v ∈ chain_records example_memory
                   (frametables (example_registered_again 10)))
       /\ occupied l
          = length (chain_records example_memory
                      (frametables (example_registered_again 10)))
       /\ (forall pc,
             pc ∉ map (retaddr example_memory)
                    (chain_records example_memory
                       (frametables (example_registered_again 10))) ->
             caml_find_frame_descr example_hash example_memory 100 fds pc st'
             = Ok NULL st').
Proof.
  apply (lookup_returns_registered_record example_hash example_memory 100
           (example_init 10) (example_registered_again 10)
           [Register table2; Register table3]).
  - exists 10%nat, [table1; 0], [], (example_init 10).
    split; [vm_compute; reflexivity | reflexivity].
  - exists (example_registered 10). split; [vm_compute; reflexivity|].
    exists (example_registered_again 10).
    split; [vm_compute; reflexivity | reflexivity].
  - vm_compute. reflexivity.
  - vm_compute. reflexivity.
  - vm_compute. lia.
Defined.

Lemma tblsize_smallest_power_of_two_witness :
  exists k fds st' l,
    grow_tblsize 100 4 (count_descrs example_memory [table3] 0) = Some (2 ^ k)
    /\ 0 <= k /\ 4 <= 2 ^ k
    /\ 2 * count_descrs example_memory [table3] 0 <= 2 ^ k
    /\ (forall j, 0 <= j -> 4 <= 2 ^ j ->
          2 * count_descrs example_memory [table3] 0 <= 2 ^ j -> 2 ^ k <= 2 ^ j)
    /\ build_frame_descriptors example_hash example_memory 100 [table3]
         (initial_state 1) = Ok fds st'
    /\ mask fds = 2 ^ k - 1
    /\ heap st' !! descriptors fds = Some (Descrs l)
    /\ Z.of_nat (length l) = 2 ^ k
    /\ Z.of_nat (occupied l) <= 2 ^ k / 2.
Proof.
  apply (tblsize_smallest_power_of_two example_hash example_memory
           [table3] 100 (initial_state 1) 0).
  - vm_compute. reflexivity.
  - vm_compute. lia.
  - reflexivity.
Defined.

Lemma probe_terminates_witness :
  exists fds st' l,
    build_frame_descriptors example_hash example_memory 100 [table2; table1]
      (initial_state 1) = Ok fds st'
    /\ heap st' !! descriptors fds = Some (Descrs l)
    /\ (exists e : nat, l !! e = Some NULL)
    /\ forall pc, exists d,
         caml_find_frame_descr example_hash example_memory 100 fds pc st'
         = Ok d st'
         /\ (d = NULL
             \/ (d ∈ chain_records example_memory [table2; table1]
                 /\ retaddr example_memory d = pc)).
Proof.
  apply (probe_terminates example_hash example_memory [table2; table1] 100
           (initial_state 1) 0).
  - vm_compute. reflexivity.
  - vm_compute. lia.
  - reflexivity.
Defined.

Lemma build_deterministic_witness :
  mask (mk_frame_descrs 1 7) = mask (mk_frame_descrs 4 7)
  /\ exists l,
       heap (state_of (build_frame_descriptors example_hash example_memory 100
                         [table2; table1] (initial_state 1)))
         !! descriptors (mk_frame_descrs 1 7) = Some (Descrs l)
       /\ heap (state_of (build_frame_descriptors example_hash example_memory
                            200 [table2; table1] (example_init 10)))
            !! descriptors (mk_frame_descrs 4 7) = Some (Descrs l).
Proof.
  apply (build_deterministic example_hash example_memory [table2; table1]
           100 200 (initial_state 1) (example_init 10)).
  - vm_compute. reflexivity.
  - vm_compute. reflexivity.
Defined.

Lemma published_index_never_mutated_witness :
  (heap (example_registered 10) !! 3
   = Some (Descrs [0; 0; 0x1008; 0; 0x1018; 0; 0x1030; 0])
   \/ (Register table2 = Get_frame_descrs
       /\ heap (example_registered 10) !! 3 = None))
  /\ (forall tbl, Register table2 = Register tbl ->
        heap (example_registered 10) !! 3
        = Some (Descrs [0; 0; 0x1008; 0; 0x1018; 0; 0x1030; 0])
        /\ exists v l',
             heap (example_registered 10)
               !! current_frametable (example_registered 10)
             = Some (Version v)
             /\ heap (example_registered 10) !! descriptors (table v)
                = Some (Descrs l')
             /\ heap (example_init 10) !! descriptors (table v) = None)
  /\ (forall fuel' fds pc d st'',
        caml_find_frame_descr example_hash example_memory fuel' fds pc
          (example_init 10) = Ok d st'' ->
        st'' = example_init 10).
Proof.
  apply (published_index_never_mutated example_hash example_memory 100
           (Register table2) (example_init 10) (example_registered 10) 3
           [0; 0; 0x1008; 0; 0x1018; 0; 0x1030; 0]).
  - exists 10%nat, [table1; 0], [], (example_init 10).
    split; [vm_compute; reflexivity | reflexivity].
  - vm_compute. reflexivity.
  - vm_compute. reflexivity.
Defined.

Lemma allocation_failure_publishes_nothing_witness :
  current_frametable (example_registered 5) = current_frametable (example_init 5)
  /\ forall p b,
       heap (example_init 5) !! p = Some b ->
       heap (example_registered 5) !! p = Some b.
Proof.
  apply (allocation_failure_publishes_nothing example_hash example_memory 100
           table2 [] (example_init 5) (example_registered 5)).
  left. vm_compute. reflexivity.
Defined.

Lemma predecessor_freed_only_after_marker_witness :
  exists v0 l0 w,
    heap (example_init 10) !! current_frametable (example_init 10)
    = Some (Version v0)
    /\ heap (example_init 10) !! descriptors (table v0) = Some (Descrs l0)
    /\ heap (example_registered 10) !! current_frametable (example_registered 10)
       = Some (Version w)
    /\ free_prev_after_cycle w = caml_major_cycles_completed (example_init 10)
    /\ prev w = current_frametable (example_init 10)
    /\ ((heap (example_fetched_again 10) !! current_frametable (example_init 10)
         = Some (Version v0)
         /\ heap (example_fetched_again 10) !! descriptors (table v0)
            = Some (Descrs l0)
         /\ forall p v,
              heap (example_fetched_again 10) !! p = Some (Version v) ->
              prev v = current_frametable (example_init 10) ->
              free_prev_after_cycle v
              = caml_major_cycles_completed (example_init 10))
        \/ caml_major_cycles_completed (example_init 10)
           < caml_major_cycles_completed (example_fetched_again 10)).
Proof.
  apply (predecessor_freed_only_after_marker example_hash example_memory 100
           (example_init 10) (example_registered 10)
           (example_fetched_again 10) table2
           [Register table3; Major_cycle; Get_frame_descrs]).
  - exists 10%nat, [table1; 0], [], (example_init 10).
    split; [vm_compute; reflexivity | reflexivity].
  - vm_compute. reflexivity.
  - exists (example_registered_again 10). split; [vm_compute; reflexivity|].
    exists (with_cycles 1 (example_registered_again 10)). split.
    + split; [vm_compute; reflexivity | reflexivity].
    + exists (example_fetched_again 10). split; [|reflexivity].
      exists (mk_frame_descrs 9 15). vm_compute. reflexivity.
Defined.

Lemma marker_iff_no_predecessor_witness :
  (forall p v, heap (example_cycled 10) !! p = Some (Version v) ->
     (free_prev_after_cycle v = No_need_to_free <-> prev v = NULL))
  /\ exists v st',
       heap (example_cycled 10) !! current_frametable (example_cycled 10)
       = Some (Version v)
       /\ caml_get_frame_descrs (example_cycled 10) = Ok (table v) st'
       /\ (st' = example_cycled 10
           \/ (prev v <> NULL
               /\ free_prev_after_cycle v
                  < caml_major_cycles_completed (example_cycled 10)
               /\ heap st' !! prev v = None
               /\ heap st' !! current_frametable (example_cycled 10)
                  = Some (Version
                            (mk_version (table v) No_need_to_free NULL))))
       /\ forall v' ops st'',
            heap st' !! current_frametable st' = Some (Version v') ->
            free_prev_after_cycle v' = No_need_to_free ->
            forallb (fun o => negb (is_register o)) ops = true ->
            steps example_hash example_memory 100 ops st' st'' ->
            heap st'' = heap st'.
Proof.
  apply (marker_iff_no_predecessor example_hash example_memory 100
           (example_cycled 10)).
  exists 10%nat, [table1; 0], [Register table2; Major_cycle], (example_init 10).
  split; [vm_compute; reflexivity|].
  exists (example_registered 10). split; [vm_compute; reflexivity|].
  exists (example_cycled 10). split; [|reflexivity].
  split; [vm_compute; reflexivity | reflexivity].
Defined.

(** * Further properties of the code *)

(** ** The record parser: alignment and extent of a record *)

Lemma next_frame_descr_cursor (m : memory) (d : Z) :
  0 <= d -> spec_next_record m d < word_modulus ->
  next_frame_descr m d = spec_next_record m d.
Proof.
  intros Hd Hlt. unfold next_frame_descr, spec_next_record in *.
  unfold sizeof_uint32, sizeof_ptr, ushort_minus_one, offsetof_live_ofs in *.
  rewrite (land_pow2_testbit (frame_size m d) 1 ltac:(lia) : (Z.land _ 2 =? 0) = _).
  rewrite (land_pow2_testbit (frame_size m d) 0 ltac:(lia) : (Z.land _ 1 =? 0) = _).
  rewrite !negb_involutive.
  change (2 ^ 16 - 1) with 65535 in *.
  pose proof (load_u16_range m (d + offsetof_num_live)) as Hnl.
  fold (num_live m d) in Hnl.
  set (c0 := d + (8 + 2 + 2) + 2 * num_live m d) in *.
  replace (d + 12 + 2 * num_live m d) with c0 by (unfold c0; lia).
  assert (Hc0 : 0 <= c0) by (unfold c0; lia).
  pose proof (load_u8_range m c0) as Hna.
  pose proof (fun p => align_up_bounds p 4 ltac:(lia)) as A4.
  pose proof (fun p => align_up_bounds p 8 ltac:(lia)) as A8.
  pose proof (fun p => Align_to_pow2 p 2 ltac:(lia)) as T4.
  pose proof (fun p => Align_to_pow2 p 3 ltac:(lia)) as T8.
  change (2 ^ 2) with 4 in T4. change (2 ^ 3) with 8 in T8.
  unfold word_modulus in *.
  destruct (Z.testbit (frame_size m d) 1), (Z.testbit (frame_size m d) 0),
    (frame_size m d =? 65535); simpl in *;
    repeat match type of Hlt with
    | context [align_up ?q ?n] =>
        lazymatch goal with
        | _ : q <= align_up q n < q + n |- _ => fail
        | _ => pose proof (align_up_bounds q n ltac:(lia))
        end
    end;
    pose proof (fun p => align_up_room p 2 ltac:(lia)) as R4;
    pose proof (fun p => align_up_room p 3 ltac:(lia)) as R8;
    change (2 ^ 2) with 4 in R4; change (2 ^ 3) with 8 in R8;
    unfold word_modulus in R4, R8;
    repeat match goal with
    | |- context [uintnat ?z] => rewrite (uintnat_small z) by (unfold word_modulus; lia)
    | |- context [c0 + (?n + 1)] => replace (c0 + (n + 1)) with (c0 + 1 + n) by lia
    | |- context [Align_to ?q 4] =>
        rewrite (T4 q) by (try apply R4; lia)
    | |- context [Align_to ?q 8] =>
        rewrite (T8 q) by (try apply R8; lia)
    end;
    reflexivity.
Qed.

Lemma land_word_mask x M :
  0 <= M < word_modulus -> 0 <= Z.land x M < word_modulus.
Proof.
  intros HM. split; [apply Z.land_nonneg; right; lia|].
  assert (HMM : Z.land M (Z.ones 64) = M).
  { rewrite Z.land_ones by lia. apply Z.mod_small. exact HM. }
  rewrite <- HMM, Z.land_assoc, Z.land_ones by lia.
  apply Z.mod_pos_bound. unfold word_modulus. lia.
Qed.

Lemma Align_to_ptr_aligned p :
  Align_to p sizeof_ptr mod 8 = 0 /\ 0 <= Align_to p sizeof_ptr < word_modulus.
Proof.
  unfold Align_to, sizeof_ptr. split.
  - change 8 with (2 ^ 3) at 3. rewrite <- Z.land_ones by lia.
    rewrite <- Z.land_assoc.
    replace (Z.land (uintnat (- (8))) (Z.ones 3)) with 0 by reflexivity.
    apply Z.land_0_r.
  - apply land_word_mask. vm_compute. split; [discriminate | reflexivity].
Qed.

Lemma next_frame_descr_aligned m d :
  next_frame_descr m d mod 8 = 0 /\ 0 <= next_frame_descr m d < word_modulus.
Proof.
  unfold next_frame_descr.
  destruct (negb (Z.land (frame_size m d) 2 =? 0));
    destruct (negb (Z.land (frame_size m d) 1 =? 0)
              && negb (frame_size m d =? ushort_minus_one));
    apply Align_to_ptr_aligned.
Qed.

(** X1.  Every record the builder visits in a table that starts at a
    word-aligned address is at a word-aligned address: the first one is
    one word after the count, and the parser always returns an address
    aligned to the word. *)
Theorem records_word_aligned (m : memory) (tbl : Z) :
  tbl mod 8 = 0 ->
  Forall (fun r => r mod 8 = 0 /\ 0 <= r < word_modulus) (records_of m tbl).
Proof.
  intros Htbl. unfold records_of.
  assert (H0 : uintnat (tbl + sizeof_ptr) mod 8 = 0
               /\ 0 <= uintnat (tbl + sizeof_ptr) < word_modulus).
  { unfold uintnat, sizeof_ptr. split.
    - rewrite Z.mod_mod_divide by (exists (2 ^ 61); reflexivity).
      rewrite Z.add_mod, Htbl by lia. reflexivity.
    - apply Z.mod_pos_bound. reflexivity. }
  generalize (Z.to_nat (load_intnat m tbl)) as n.
  generalize dependent (uintnat (tbl + sizeof_ptr)).
  intros d Hd n. revert d Hd.
  induction n as [|n IH]; intros d Hd; simpl; constructor; [exact Hd|].
  apply IH. apply next_frame_descr_aligned.
Qed.

Lemma spec_next_record_bounds (m : memory) (d : Z) :
  0 <= d ->
  d + 12 + 2 * num_live m d <= spec_next_record m d
  /\ spec_next_record m d <= d + 12 + 2 * num_live m d + 1286.
Proof.
  intros Hd. unfold spec_next_record.
  pose proof (load_u16_range m (d + offsetof_num_live)) as Hnl.
  fold (num_live m d) in Hnl.
  set (c0 := d + (8 + 2 + 2) + 2 * num_live m d).
  pose proof (load_u8_range m c0) as Hna.
  assert (Hc0 : c0 = d + 12 + 2 * num_live m d) by (unfold c0; lia).
  destruct (Z.testbit (frame_size m d) 1), (Z.testbit (frame_size m d) 0),
    (frame_size m d =? 2 ^ 16 - 1); simpl;
    repeat match goal with
    | |- context [align_up ?q ?n] =>
        lazymatch goal with
        | _ : q <= align_up q n < q + n |- _ => fail
        | _ => pose proof (align_up_bounds q n ltac:(lia))
        end
    end; lia.
Qed.

(** X2.  A record that ends inside the address space ends after its
    header and live offsets, and at most 1286 bytes further: the parser
    moves strictly forward, by 12 bytes at least. *)
Theorem next_frame_descr_advances (m : memory) (d : Z) :
  0 <= d -> d + 12 + 2 * num_live m d + 1286 < word_modulus ->
  d + 12 + 2 * num_live m d <= next_frame_descr m d
  /\ next_frame_descr m d <= d + 12 + 2 * num_live m d + 1286
  /\ d < next_frame_descr m d.
Proof.
  intros Hd Hlt.
  pose proof (spec_next_record_bounds m d Hd) as [Hlo Hhi].
  rewrite (next_frame_descr_cursor m d Hd) by lia.
  pose proof (load_u16_range m (d + offsetof_num_live)) as Hnl.
  fold (num_live m d) in Hnl. lia.
Qed.

(** X3.  The all-ones size word has bit 1 set: for such a record the
    parser still reads the byte after the live offsets as a count and
    skips that many bytes, and skips no debug word. *)
Theorem next_frame_descr_sentinel_record (m : memory) (d : Z) :
  0 <= d -> d + 12 + 2 * num_live m d + 1286 < word_modulus ->
  frame_size m d = ushort_minus_one ->
  next_frame_descr m d
  = align_up (d + 12 + 2 * num_live m d + 1
              + load_u8 m (d + 12 + 2 * num_live m d)) 8.
Proof.
  intros Hd Hlt Hfs.
  pose proof (spec_next_record_bounds m d Hd) as [Hlo Hhi].
  rewrite (next_frame_descr_cursor m d Hd) by lia.
  unfold spec_next_record. rewrite Hfs. unfold ushort_minus_one.
  replace (Z.testbit 65535 1) with true by reflexivity.
  replace (Z.testbit 65535 0) with true by reflexivity.
  replace (65535 =? 2 ^ 16 - 1) with true by reflexivity.
  cbn [negb andb]. reflexivity.
Qed.

(** ** The lookup: what it returns, and how far it probes *)

Lemma find_loop_sound m fuel fds pc : forall h st d st',
  find_loop m fuel fds pc h st = Ok d st' ->
  d = NULL \/ retaddr m d = pc.
Proof.
  induction fuel as [|fuel IH]; intros h st d st'; simpl; [discriminate|].
  unfold bind, load_slot.
  destruct (heap st !! descriptors fds) as [[| l |]|]; try discriminate.
  destruct (0 <=? h); [|discriminate].
  destruct (l !! Z.to_nat h) as [v|]; [|discriminate].
  destruct (v =? 0); [intros [= <- _]; left; reflexivity|].
  destruct (retaddr m v =? pc) eqn:E; [|apply IH].
  intros [= <- _]. right. apply Z.eqb_eq. exact E.
Qed.

(** X4.  Whatever the table and the state, when the lookup returns it
    returns [NULL] or a descriptor whose return address is the program
    counter asked for, never the descriptor of another address, and it
    leaves the state as it found it. *)
Theorem find_returns_matching_descriptor
    (hash : Z -> Z) (m : memory) (fuel : nat) (fds : caml_frame_descrs)
    (pc : Z) (st : state) (d : Z) (st' : state) :
  caml_find_frame_descr hash m fuel fds pc st = Ok d st' ->
  (d = NULL \/ retaddr m d = pc) /\ st' = st.
Proof.
  unfold caml_find_frame_descr. intros H. split.
  - eapply find_loop_sound; eauto.
  - eapply find_loop_state; eauto.
Qed.

Lemma occupied_clear slots (e : nat) v :
  slots !! e = Some v -> v <> NULL ->
  occupied slots = S (occupied (<[e := NULL]> slots)).
Proof.
  revert e. induction slots as [|x slots IH]; intros e He Hv; [discriminate|].
  destruct e as [|e]; simpl in *.
  - injection He as ->. rewrite !occupied_cons.
    destruct (decide (v = NULL)), (decide (NULL = NULL)); simpl;
      (reflexivity || congruence).
  - rewrite !occupied_cons, (IH e He Hv). lia.
Qed.

(** A run of busy slots at distinct places is no longer than the number
    of occupied slots. *)
Lemma busy_run_count mask h (j : nat) : forall slots,
  (forall i : nat, (i < j)%nat -> busy slots (walk mask i h)) ->
  (forall i1 i2 : nat, (i1 < j)%nat -> (i2 < j)%nat ->
     walk mask i1 h = walk mask i2 h -> i1 = i2) ->
  (j <= occupied slots)%nat.
Proof.
  induction j as [|j IH]; intros slots Hbusy Hinj; [lia|].
  destruct (Hbusy j ltac:(lia)) as (v & Hv & Hnz).
  apply slot_at_Some in Hv as [Hpos Hv].
  rewrite (occupied_clear slots _ v Hv Hnz).
  apply le_n_S. apply IH.
  - intros i Hi. destruct (Hbusy i ltac:(lia)) as (u & Hu & Hunz).
    exists u. split; [|exact Hunz].
    rewrite slot_at_insert_ne; [exact Hu|].
    rewrite Z2Nat.id by exact Hpos. intros Heq.
    specialize (Hinj i j ltac:(lia) ltac:(lia) Heq). lia.
  - intros i1 i2 H1 H2. apply Hinj; lia.
Qed.

Lemma walk_injective k h (i1 i2 : nat) :
  0 <= k < 62 -> 0 <= h < 2 ^ k ->
  Z.of_nat i1 < 2 ^ k -> Z.of_nat i2 < 2 ^ k ->
  walk (2 ^ k - 1) i1 h = walk (2 ^ k - 1) i2 h -> i1 = i2.
Proof.
  intros Hk Hh H1 H2. rewrite !walk_mod by assumption. intros Heq.
  assert (HN : 0 < 2 ^ k) by lia.
  pose proof (Z.div_mod (h + Z.of_nat i1) (2 ^ k) ltac:(lia)) as E1.
  pose proof (Z.div_mod (h + Z.of_nat i2) (2 ^ k) ltac:(lia)) as E2.
  rewrite Heq in E1.
  set (q1 := (h + Z.of_nat i1) / 2 ^ k) in *.
  set (q2 := (h + Z.of_nat i2) / 2 ^ k) in *.
  assert (q1 = q2) by nia. subst q1. lia.
Qed.

(** The first empty slot from [h] is met after at most as many probes
    as there are occupied slots. *)
Lemma first_empty_near k slots h :
  0 <= k < 62 -> Z.of_nat (length slots) = 2 ^ k ->
  (occupied slots < length slots)%nat -> 0 <= h < 2 ^ k ->
  exists j : nat,
    (j <= occupied slots)%nat
    /\ slot_at slots (walk (2 ^ k - 1) j h) = Some NULL
    /\ forall i : nat, (i < j)%nat -> busy slots (walk (2 ^ k - 1) i h).
Proof.
  intros Hk Hlen Hocc Hh.
  destruct (first_empty k slots h Hk Hlen Hocc Hh) as (j & Hj & Hz & Hbusy).
  exists j. split; [|split; assumption].
  apply (busy_run_count (2 ^ k - 1) h j slots Hbusy).
  intros i1 i2 H1 H2. apply (walk_injective k h); try assumption; lia.
Qed.

Section More_on_the_index.
Variable hash : Z -> Z.
Variable m : memory.
Variable fuel : nat.

(** Along a run of busy slots that ends at a record with the address
    asked for, the probe stops at a record with that address. *)
Lemma slots_find_some slots mask pc (j fuel' : nat) : forall h r,
  slot_at slots (walk mask j h) = Some r -> r <> NULL -> retaddr m r = pc ->
  (forall i : nat, (i < j)%nat -> busy slots (walk mask i h)) ->
  (j < fuel')%nat ->
  exists d (i : nat),
    slots_find m fuel' slots mask pc h = Some d
    /\ d <> NULL /\ retaddr m d = pc
    /\ slot_at slots (walk mask i h) = Some d.
Proof.
  revert fuel'. induction j as [|j IH]; intros fuel' h r Hat Hr Hpc Hbusy Hfuel;
    (destruct fuel' as [|fuel']; [lia|]); cbn [slots_find].
  - change (walk mask 0 h) with h in Hat. rewrite Hat.
    pose proof Hr as Hr'. apply Z.eqb_neq in Hr'. unfold NULL in Hr'.
    rewrite Hr'. pose proof Hpc as Hpc'. apply Z.eqb_eq in Hpc'. rewrite Hpc'.
    exists r, 0%nat. auto.
  - destruct (Hbusy 0%nat ltac:(lia)) as (v & Hv & Hnz).
    change (walk mask 0 h) with h in Hv. rewrite Hv.
    pose proof Hnz as Hnz'. apply Z.eqb_neq in Hnz'. unfold NULL in Hnz'.
    rewrite Hnz'.
    destruct (retaddr m v =? pc) eqn:E.
    + apply Z.eqb_eq in E. exists v, 0%nat. auto.
    + change (Z.land (uintnat (h + 1)) mask) with (next_slot mask h).
      rewrite walk_succ in Hat.
      destruct (IH fuel' (next_slot mask h) r Hat Hr Hpc) as (d & i & H1 & H2 & H3 & H4).
      * intros i Hi. rewrite <- walk_succ. apply Hbusy. lia.
      * lia.
      * exists d, (S i). rewrite walk_succ. auto.
Qed.

(** X5.  Uniqueness of the return addresses is not needed for a hit:
    in any reachable state whose tables are well-formed, the lookup of
    the return address of a registered record returns a registered
    record with that return address, never [NULL]. *)
Theorem lookup_never_misses_registered (st : state) :
  reachable hash m fuel st ->
  wf_tables m (frametables st) = true ->
  (4 * length (chain_records m (frametables st)) + 68 <= fuel)%nat ->
  exists fds st',
    caml_get_frame_descrs st = Ok fds st'
    /\ forall r, r ∈ chain_records m (frametables st) ->
         exists d,
           caml_find_frame_descr hash m fuel fds (retaddr m r) st' = Ok d st'
           /\ d <> NULL
           /\ d ∈ chain_records m (frametables st)
           /\ retaddr m d = retaddr m r.
Proof.
  intros Hreach Hwf Hfuel.
  pose proof (manager_inv_reachable hash m fuel st Hreach) as Hinv.
  destruct (indexed_reachable hash m fuel st Hreach Hwf Hfuel)
    as (v & k & l & Hv & Hmask & Hl & Hidx & Hroom & Hk2 & Hmin).
  destruct (caml_get_frame_descrs_spec st Hinv) as (v1 & Hv1 & Hget).
  assert (v1 = v) by congruence. subst v1.
  destruct (get_keeps_current_index st v l _ _ Hinv Hv Hl Hget)
    as (_ & _ & _ & Hl' & _).
  pose proof (tblsize_le_fuel k _ fuel Hk2 Hmin Hfuel) as Hfuel'.
  pose proof (inv_size _ _ _ _ _ Hidx) as Hsize.
  eexists (table v), _. split; [exact Hget|].
  intros r Hr.
  destruct (inv_placed _ _ _ _ _ Hidx r Hr) as (j & Hj & Hat & Hbusy).
  destruct (slots_find_some l (2 ^ k - 1) (retaddr m r) j fuel _ r Hat
              (inv_nonnull _ _ _ _ _ Hidx r Hr) eq_refl Hbusy ltac:(lia))
    as (d & i & Hfind & Hnz & Hret & Hd).
  exists d. split; [|split; [exact Hnz|split; [|exact Hret]]].
  - unfold caml_find_frame_descr. rewrite Hmask.
    eapply find_loop_sim; [exact Hl'|]. rewrite Hmask. exact Hfind.
  - eapply slot_at_sound; eauto.
Qed.

(** X6.  The load factor bounds the probing: in any reachable state
    whose tables are well-formed and hold [n] records in all, the lookup
    of any program counter returns within [n + 1] turns of its loop. *)
Theorem lookup_probes_at_most_occupancy (st : state) :
  reachable hash m fuel st ->
  wf_tables m (frametables st) = true ->
  (4 * length (chain_records m (frametables st)) + 68 <= fuel)%nat ->
  exists fds st',
    caml_get_frame_descrs st = Ok fds st'
    /\ forall pc, exists d,
         caml_find_frame_descr hash m
           (S (length (chain_records m (frametables st)))) fds pc st'
         = Ok d st'.
Proof.
  intros Hreach Hwf Hfuel.
  pose proof (manager_inv_reachable hash m fuel st Hreach) as Hinv.
  destruct (indexed_reachable hash m fuel st Hreach Hwf Hfuel)
    as (v & k & l & Hv & Hmask & Hl & Hidx & Hroom & Hk2 & Hmin).
  destruct (caml_get_frame_descrs_spec st Hinv) as (v1 & Hv1 & Hget).
  assert (v1 = v) by congruence. subst v1.
  destruct (get_keeps_current_index st v l _ _ Hinv Hv Hl Hget)
    as (_ & _ & _ & Hl' & _).
  pose proof (inv_size _ _ _ _ _ Hidx) as Hsize.
  pose proof (inv_k _ _ _ _ _ Hidx) as Hk.
  pose proof (inv_occupied _ _ _ _ _ Hidx) as Hocc.
  eexists (table v), _. split; [exact Hget|].
  intros pc.
  assert (Hh0 : 0 <= Hash_retaddr hash pc (2 ^ k - 1) < 2 ^ k)
    by (apply Hash_retaddr_range; lia).
  destruct (first_empty_near k l _ Hk Hsize ltac:(lia) Hh0)
    as (j & Hj & Hz & Hbusy).
  destruct (slots_find_stop m l (2 ^ k - 1) pc j
              (S (length (chain_records m (frametables st)))) _ Hz Hbusy
              ltac:(lia)) as (d & Hfind & _).
  exists d. unfold caml_find_frame_descr. rewrite Hmask.
  eapply find_loop_sim; [exact Hl'|]. rewrite Hmask. exact Hfind.
Qed.
End More_on_the_index.

(** ** The manager: first version, chain, fetches and reclamation *)

Lemma cons_static_chain tbls : forall st st',
  cons_static tbls st = Ok tt st' ->
  frametables st' = rev (static_tables tbls) ++ frametables st.
Proof.
  induction tbls as [|tbl tbls IH]; intros st st'; simpl; [discriminate|].
  destruct (tbl =? 0); simpl.
  - intros [= <-]. reflexivity.
  - unfold bind. rewrite cons_eq. destruct (avail st); [discriminate|].
    intros H. rewrite (IH _ _ H). simpl. rewrite <- app_assoc. reflexivity.
Qed.

Section More_on_the_manager.
Variable hash : Z -> Z.
Variable m : memory.
Variable fuel : nat.

(** X7.  Initialisation puts the static tables in the chain, last one
    first, up to the null entry of the array, and publishes a version
    without predecessor whose marker is [No_need_to_free]; a fetch right
    after it returns the table of that version and frees nothing. *)
Theorem init_publishes_first_version
    (tbls : list Z) (avail : nat) (st0 : state) :
  caml_init_frame_descriptors hash m fuel tbls (initial_state avail)
  = Ok tt st0 ->
  frametables st0 = rev (static_tables tbls)
  /\ exists v,
       heap st0 !! current_frametable st0 = Some (Version v)
       /\ prev v = NULL
       /\ free_prev_after_cycle v = No_need_to_free
       /\ caml_get_frame_descrs st0 = Ok (table v) st0.
Proof.
  intros Hinit.
  pose proof (manager_inv_init hash m fuel tbls avail st0 Hinit) as Hinv.
  split.
  - rewrite init_unfold in Hinit.
    destruct (cons_static tbls (initial_state avail)) as [[] st1| | |] eqn:Hc;
      try discriminate.
    pose proof (finish_version_inversion hash m fuel (frametables st1)
                  (fun _ => No_need_to_free) 0 st1) as Hf.
    rewrite Hinit in Hf. destruct Hf as (msk & l & st4 & _ & _ & _ & ->).
    change (frametables (finished msk l No_need_to_free 0 st1))
      with (frametables st1).
    rewrite (cons_static_chain tbls _ _ Hc). simpl. apply app_nil_r.
  - destruct (caml_get_frame_descrs_spec st0 Hinv) as (v & Hv & Hget).
    exists v. split; [exact Hv|].
    pose proof (init_inversion hash m fuel tbls (initial_state avail)) as Hi.
    rewrite Hinit in Hi. destruct Hi as (done & msk & l & _ & Heq).
    assert (Hm : free_prev_after_cycle v = No_need_to_free).
    { subst st0. rewrite finished_heap in Hv.
      change (current_frametable (finished msk l No_need_to_free 0 _))
        with (alloc_addr (consed_all done (initial_state avail))) in Hv.
      rewrite lookup_insert_eq in Hv. injection Hv as <-. reflexivity. }
    split; [apply (minv_marker st0 Hinv _ _ Hv); exact Hm|].
    split; [exact Hm|].
    rewrite Hget, Hm.
    pose proof (minv_cycles st0 Hinv) as Hcyc.
    destruct (No_need_to_free <? caml_major_cycles_completed st0) eqn:E;
      [apply Z.ltb_lt in E; lia | reflexivity].
Qed.

(** X8.  A registration that fails at its first allocation changes
    nothing; one that fails later has already put the table at the head
    of the chain, in a link node that stays allocated, while the current
    version is still the one from before. *)
Theorem failed_registration_keeps_table_in_chain
    (tbl : Z) (st st' : state) :
  caml_register_frametable hash m fuel tbl st = Fatal st' ->
  (avail st = O /\ st' = st)
  \/ ((avail st = 1 \/ avail st = 2)%nat
      /\ frametables st' = tbl :: frametables st
      /\ heap st' !! alloc_addr st = Some (Link tbl)
      /\ current_frametable st' = current_frametable st).
Proof.
  intros Hreg.
  pose proof (register_inversion hash m fuel tbl st) as Hr.
  rewrite Hreg in Hr.
  destruct Hr as [[-> Ha]|[[-> Ha]|[-> Ha]]]; [left; auto|right|right].
  - split; [left; exact Ha|]. split; [reflexivity|].
    split; [simpl; apply lookup_insert_eq | reflexivity].
  - split; [right; exact Ha|]. split; [reflexivity|].
    split; [|reflexivity].
    apply alloc_state_lookup_old. simpl. apply lookup_insert_eq.
Qed.

(** X9.  Fetching the current table twice in a row: the second fetch
    returns the same table and changes nothing. *)
Theorem second_fetch_changes_nothing
    (st : state) (fds : caml_frame_descrs) (st' : state) :
  reachable hash m fuel st ->
  caml_get_frame_descrs st = Ok fds st' ->
  caml_get_frame_descrs st' = Ok fds st'.
Proof.
  intros Hreach Hget.
  pose proof (manager_inv_reachable hash m fuel st Hreach) as Hinv.
  pose proof (manager_inv_get st fds st' Hinv Hget) as Hinv'.
  destruct (caml_get_frame_descrs_spec st Hinv) as (v & Hv & Heq).
  rewrite Heq in Hget.
  destruct (free_prev_after_cycle v <? caml_major_cycles_completed st)
    eqn:Hdue; injection Hget as <- <-; [|exact Heq].
  apply Z.ltb_lt in Hdue.
  pose proof (minv_cycles st Hinv) as Hcyc.
  assert (Hnz : prev v <> NULL).
  { intros Hz. apply (minv_marker st Hinv _ _ Hv) in Hz. lia. }
  destruct (reclaimed_eq st v Hinv Hv Hnz) as (w & lw & Hw & Hlw & _ & _ & Hrec).
  destruct (caml_get_frame_descrs_spec (reclaimed st) Hinv')
    as (v' & Hv' & Heq').
  rewrite Heq'. rewrite Hrec in Hv'.
  cbn [heap with_heap current_frametable] in Hv'.
  rewrite lookup_insert_eq in Hv'. injection Hv' as <-.
  cbn [free_prev_after_cycle table].
  replace (caml_major_cycles_completed (reclaimed st))
    with (caml_major_cycles_completed st) by (rewrite Hrec; reflexivity).
  destruct (No_need_to_free <? caml_major_cycles_completed st) eqn:E;
    [apply Z.ltb_lt in E; lia | reflexivity].
Qed.

(** X10.  A fetch right after a registration returns the table built by
    that registration, an array that did not exist before, and frees
    nothing: the predecessor is kept until a major cycle completes. *)
Theorem fetch_after_registration
    (st0 st1 : state) (tbl : Z) :
  reachable hash m fuel st0 ->
  caml_register_frametable hash m fuel tbl st0 = Ok tt st1 ->
  exists v1 l1,
    heap st1 !! current_frametable st1 = Some (Version v1)
    /\ prev v1 = current_frametable st0
    /\ heap st0 !! descriptors (table v1) = None
    /\ heap st1 !! descriptors (table v1) = Some (Descrs l1)
    /\ heap st1 !! current_frametable st0 = heap st0 !! current_frametable st0
    /\ caml_get_frame_descrs st1 = Ok (table v1) st1.
Proof.
  intros Hreach Hreg.
  pose proof (manager_inv_reachable hash m fuel st0 Hreach) as Hinv0.
  pose proof (manager_inv_register hash m fuel tbl st0 st1 Hinv0 Hreg) as Hinv1.
  pose proof (register_inversion hash m fuel tbl st0) as Hr.
  rewrite Hreg in Hr. destruct Hr as (msk & l & _ & _ & ->).
  destruct (registered_facts tbl msk l st0)
    as (v1 & Hv1 & Hprev & Hmark & _ & Harr & Hfresh & _ & Hcyc & _).
  exists v1, l. split; [exact Hv1|]. split; [exact Hprev|].
  split; [exact Hfresh|]. split; [exact Harr|]. split.
  - destruct (minv_current st0 Hinv0) as (v0 & l0 & Hv0 & _).
    rewrite Hv0. apply registered_lookup_old. exact Hv0.
  - destruct (caml_get_frame_descrs_spec _ Hinv1) as (v & Hv & Hget).
    assert (v = v1) by congruence. subst v.
    rewrite Hget, Hmark, Hcyc, Z.ltb_irrefl. reflexivity.
Qed.

(** X11.  Once a major cycle has completed after a registration, the
    next fetch frees the predecessor and its index, these two blocks and
    no other, clears the link and sets the marker. *)
Theorem fetch_after_cycle_reclaims
    (st0 st1 st1' st2 : state) (tbl : Z) (fds : caml_frame_descrs) :
  reachable hash m fuel st0 ->
  caml_register_frametable hash m fuel tbl st0 = Ok tt st1 ->
  major_cycle_completes st1 st1' ->
  caml_get_frame_descrs st1' = Ok fds st2 ->
  exists v0 l0 v1,
    heap st0 !! current_frametable st0 = Some (Version v0)
    /\ heap st0 !! descriptors (table v0) = Some (Descrs l0)
    /\ heap st1 !! current_frametable st1 = Some (Version v1)
    /\ fds = table v1
    /\ heap st2
       = <[current_frametable st1 :=
             Version (mk_version (table v1) No_need_to_free NULL)]>
           (delete (current_frametable st0)
              (delete (descriptors (table v0)) (heap st1))).
Proof.
  intros Hreach Hreg Hcycle Hget.
  pose proof (manager_inv_reachable hash m fuel st0 Hreach) as Hinv0.
  pose proof (manager_inv_register hash m fuel tbl st0 st1 Hinv0 Hreg) as Hinv1.
  pose proof (manager_inv_step hash m fuel Major_cycle st1 st1' Hinv1 Hcycle)
    as Hinv1'.
  destruct (minv_current st0 Hinv0) as (v0 & l0 & Hv0 & Hl0 & _).
  pose proof (register_inversion hash m fuel tbl st0) as Hr.
  rewrite Hreg in Hr. destruct Hr as (msk & l & _ & _ & Hst1).
  destruct (registered_facts tbl msk l st0)
    as (v1 & Hv1 & Hprev & Hmark & _ & Harr & Hfresh & _ & Hcyc & _).
  rewrite <- Hst1 in Hv1, Hcyc.
  assert (Hold : heap st1 !! current_frametable st0 = Some (Version v0))
    by (rewrite Hst1; apply registered_lookup_old; exact Hv0).
  destruct Hcycle as [Hlt Hst1'].
  exists v0, l0, v1. split; [exact Hv0|]. split; [exact Hl0|].
  split; [exact Hv1|].
  destruct (caml_get_frame_descrs_spec st1' Hinv1') as (v & Hv & Heq).
  assert (v = v1) by (subst st1'; simpl in Hv; congruence). subst v.
  rewrite Heq in Hget. injection Hget as <- <-. split; [reflexivity|].
  assert (Hdue : (free_prev_after_cycle v1 <? caml_major_cycles_completed st1')
                 = true).
  { apply Z.ltb_lt. subst st1'. simpl. lia. }
  rewrite Hdue.
  assert (Hnz : prev v1 <> NULL).
  { rewrite Hprev. apply current_nonnull. exact Hinv0. }
  destruct (reclaimed_eq st1' v1 Hinv1' Hv Hnz)
    as (w & lw & Hw & _ & _ & _ & ->).
  rewrite Hprev in Hw. subst st1'. simpl in Hw.
  assert (w = v0) by congruence. subst w.
  cbn [heap with_heap with_cycles current_frametable]. rewrite Hprev.
  reflexivity.
Qed.

(** X12.  In every reachable state the pointers the manager follows
    lead to allocated blocks: the current version and its index, and,
    when the link is set, the predecessor and its index, which are not
    the current ones; [NULL] is never allocated. *)
Theorem manager_pointers_are_valid (st : state) :
  reachable hash m fuel st ->
  heap st !! NULL = None
  /\ exists v l,
       heap st !! current_frametable st = Some (Version v)
       /\ heap st !! descriptors (table v) = Some (Descrs l)
       /\ (prev v <> NULL ->
           prev v <> current_frametable st
           /\ exists w lw,
                heap st !! prev v = Some (Version w)
                /\ heap st !! descriptors (table w) = Some (Descrs lw)
                /\ descriptors (table w) <> descriptors (table v)).
Proof.
  intros Hreach.
  pose proof (manager_inv_reachable hash m fuel st Hreach) as Hinv.
  split; [apply (minv_null st Hinv) | apply (minv_current st Hinv)].
Qed.

(** X13.  The chain only grows, at its head: after any run, it is the
    tables the run registered, last one first, in front of the chain
    from before the run. *)
Theorem chain_is_registration_order_reversed
    (st0 st : state) (ops : list op) :
  reachable hash m fuel st0 ->
  steps hash m fuel ops st0 st ->
  frametables st = rev (registrations ops) ++ frametables st0.
Proof.
  intros Hreach. pose proof (manager_inv_reachable hash m fuel st0 Hreach) as Hinv.
  clear Hreach. revert st0 Hinv.
  induction ops as [|o ops IH]; intros st0 Hinv Hsteps; simpl in Hsteps.
  - subst st. reflexivity.
  - destruct Hsteps as (st1 & Hstep & Hrest).
    pose proof (manager_inv_step hash m fuel o st0 st1 Hinv Hstep) as Hinv1.
    rewrite (IH st1 Hinv1 Hrest).
    rewrite (step_frametables hash m fuel o st0 st1 Hinv Hstep).
    destruct o as [tbl| |]; simpl; [|reflexivity..].
    rewrite <- app_assoc. reflexivity.
Qed.
End More_on_the_manager.

(** ** Two registrations in a row: the version that is left behind *)

Lemma abandoned_registered V0 A0 v0 l0 tbl msk l st :
  abandoned V0 A0 v0 l0 st ->
  abandoned V0 A0 v0 l0 (registered tbl msk l st).
Proof.
  intros (HV0 & HA0 & Hcur & v & Hv & Hd & Hp & Hw).
  destruct (registered_facts tbl msk l st)
    as (v' & Hv' & Hprev & _ & _ & _ & Hfresh & Hfcur & _ & _).
  split; [apply registered_lookup_old; exact HV0|].
  split; [apply registered_lookup_old; exact HA0|].
  split; [intros Heq; rewrite Heq in Hfcur; congruence|].
  exists v'. split; [exact Hv'|].
  split; [intros Heq; rewrite Heq in Hfresh; congruence|].
  split; [rewrite Hprev; exact Hcur|].
  intros w Hlw. rewrite Hprev in Hlw.
  rewrite (registered_lookup_old tbl msk l st _ _ Hv) in Hlw.
  injection Hlw as <-. exact Hd.
Qed.

Lemma abandoned_reclaimed V0 A0 v0 l0 st :
  manager_inv st -> manager_inv (reclaimed st) ->
  forall v, heap st !! current_frametable st = Some (Version v) ->
  prev v <> NULL ->
  abandoned V0 A0 v0 l0 st ->
  abandoned V0 A0 v0 l0 (reclaimed st).
Proof.
  intros Hinv Hinv' v Hv Hnz (HV0 & HA0 & Hcur & v' & Hv' & Hd & Hp & Hw).
  assert (v' = v) by congruence. subst v'.
  destruct (reclaimed_eq st v Hinv Hv Hnz)
    as (w & lw & Hlw & Hllw & _ & _ & Hrec).
  pose proof (minv_null _ Hinv') as Hnull.
  rewrite Hrec in Hnull |- *. unfold abandoned.
  cbn [heap with_heap current_frametable] in Hnull |- *.
  split.
  { rewrite lookup_insert_ne by exact Hcur.
    rewrite lookup_delete_ne by exact Hp.
    rewrite lookup_delete_ne by congruence. exact HV0. }
  split.
  { rewrite lookup_insert_ne by congruence.
    rewrite lookup_delete_ne by congruence.
    rewrite lookup_delete_ne by (apply (Hw w Hlw)). exact HA0. }
  split; [exact Hcur|].
  exists (mk_version (table v) No_need_to_free NULL).
  split; [apply lookup_insert_eq|]. split; [exact Hd|].
  cbn [prev]. split; [intros Heq; rewrite <- Heq in HV0;
                      rewrite (minv_null _ Hinv) in HV0; discriminate|].
  intros w' Hw'. rewrite Hnull in Hw'. discriminate.
Qed.

Section Abandoned.
Variable hash : Z -> Z.
Variable m : memory.
Variable fuel : nat.

Lemma abandoned_step V0 A0 v0 l0 o st st' :
  manager_inv st ->
  step hash m fuel o st st' ->
  abandoned V0 A0 v0 l0 st ->
  abandoned V0 A0 v0 l0 st'.
Proof.
  intros Hinv Hstep Hab.
  pose proof (manager_inv_step hash m fuel o st st' Hinv Hstep) as Hinv'.
  destruct o as [tbl| |]; simpl in Hstep.
  - pose proof (register_inversion hash m fuel tbl st) as Hr.
    rewrite Hstep in Hr. destruct Hr as (msk & l & _ & _ & ->).
    apply abandoned_registered. exact Hab.
  - destruct Hstep as (fds & Hget).
    destruct (caml_get_frame_descrs_spec st Hinv) as (v & Hv & Heq).
    rewrite Heq in Hget.
    destruct (free_prev_after_cycle v <? caml_major_cycles_completed st)
      eqn:Hdue; injection Hget as _ <-; [|exact Hab].
    apply Z.ltb_lt in Hdue. pose proof (minv_cycles st Hinv) as Hcyc.
    apply (abandoned_reclaimed V0 A0 v0 l0 st Hinv Hinv' v Hv); [|exact Hab].
    intros Hz. apply (minv_marker st Hinv _ _ Hv) in Hz. lia.
  - destruct Hstep as [_ ->]. exact Hab.
Qed.

Lemma abandoned_steps V0 A0 v0 l0 ops : forall st st',
  manager_inv st ->
  steps hash m fuel ops st st' ->
  abandoned V0 A0 v0 l0 st ->
  abandoned V0 A0 v0 l0 st'.
Proof.
  induction ops as [|o ops IH]; intros st st' Hinv Hsteps Hab;
    simpl in Hsteps.
  - subst st'. exact Hab.
  - destruct Hsteps as (st1 & Hstep & Hrest).
    apply (IH st1 st'); [| exact Hrest |].
    + apply (manager_inv_step hash m fuel o st st1 Hinv Hstep).
    + apply (abandoned_step V0 A0 v0 l0 o st st1 Hinv Hstep Hab).
Qed.

(** X14.  When one registration directly follows another, the version
    that was current before them and its index are never freed
    afterwards: whatever the later registrations, fetches and major
    cycles, both blocks stay allocated and unchanged, and neither the
    current version nor its predecessor link leads to them. *)
Theorem version_skipped_by_two_registrations_is_never_freed
    (st0 st1 st2 st3 : state) (tbl1 tbl2 : Z) (ops : list op) :
  reachable hash m fuel st0 ->
  caml_register_frametable hash m fuel tbl1 st0 = Ok tt st1 ->
  caml_register_frametable hash m fuel tbl2 st1 = Ok tt st2 ->
  steps hash m fuel ops st2 st3 ->
  exists v0 l0,
    heap st0 !! current_frametable st0 = Some (Version v0)
    /\ heap st0 !! descriptors (table v0) = Some (Descrs l0)
    /\ heap st3 !! current_frametable st0 = Some (Version v0)
    /\ heap st3 !! descriptors (table v0) = Some (Descrs l0)
    /\ current_frametable st3 <> current_frametable st0
    /\ forall v, heap st3 !! current_frametable st3 = Some (Version v) ->
                 prev v <> current_frametable st0.
Proof.
  intros Hreach Hreg1 Hreg2 Hsteps.
  pose proof (manager_inv_reachable hash m fuel st0 Hreach) as Hinv0.
  pose proof (manager_inv_register hash m fuel tbl1 st0 st1 Hinv0 Hreg1)
    as Hinv1.
  pose proof (manager_inv_register hash m fuel tbl2 st1 st2 Hinv1 Hreg2)
    as Hinv2.
  destruct (minv_current st0 Hinv0) as (v0 & l0 & Hv0 & Hl0 & _).
  exists v0, l0. split; [exact Hv0|]. split; [exact Hl0|].
  assert (Hab : abandoned (current_frametable st0) (descriptors (table v0))
                  v0 l0 st2).
  { pose proof (register_inversion hash m fuel tbl1 st0) as Hr1.
    rewrite Hreg1 in Hr1. destruct Hr1 as (msk1 & l1 & _ & _ & Hst1).
    pose proof (register_inversion hash m fuel tbl2 st1) as Hr2.
    rewrite Hreg2 in Hr2. destruct Hr2 as (msk2 & l2 & _ & _ & Hst2).
    destruct (registered_facts tbl1 msk1 l1 st0)
      as (v1 & Hv1 & Hprev1 & _ & _ & _ & Hfresh1 & Hfcur1 & _ & _).
    rewrite <- Hst1 in Hv1, Hfcur1.
    destruct (registered_facts tbl2 msk2 l2 st1)
      as (v2 & Hv2 & Hprev2 & _ & _ & _ & Hfresh2 & Hfcur2 & _ & _).
    rewrite <- Hst2 in Hv2, Hfcur2.
    assert (HV1 : heap st1 !! current_frametable st0 = Some (Version v0))
      by (rewrite Hst1; apply registered_lookup_old; exact Hv0).
    assert (HA1 : heap st1 !! descriptors (table v0) = Some (Descrs l0))
      by (rewrite Hst1; apply registered_lookup_old; exact Hl0).
    split; [rewrite Hst2; apply registered_lookup_old; exact HV1|].
    split; [rewrite Hst2; apply registered_lookup_old; exact HA1|].
    split; [intros Heq; rewrite Heq in Hfcur2; congruence|].
    exists v2. split; [exact Hv2|].
    split; [intros Heq; rewrite Heq in Hfresh2; congruence|].
    split; [rewrite Hprev2; intros Heq; rewrite Heq in Hfcur1; congruence|].
    intros w Hw. rewrite Hprev2 in Hw.
    rewrite Hst2 in Hw.
    rewrite (registered_lookup_old tbl2 msk2 l2 st1 _ _ Hv1) in Hw.
    injection Hw as <-.
    intros Heq; rewrite Heq in Hfresh1; congruence. }
  destruct (abandoned_steps _ _ _ _ ops st2 st3 Hinv2 Hsteps Hab)
    as (HV & HA & Hcur & v & Hv & _ & Hp & _).
  split; [exact HV|]. split; [exact HA|]. split; [exact Hcur|].
  intros v' Hv'. assert (v' = v) by congruence. subst v'. exact Hp.
Qed.
End Abandoned.

(** ** The lookup of an address that was never registered *)

Section Lookup_miss.
Variable hash : Z -> Z.
Variable m : memory.
Variable fuel : nat.

(** X15.  In any reachable state whose tables are well-formed, with or
    without repeated return addresses, the lookup returns [NULL] exactly
    for the program counters that are the return address of no
    registered record. *)
Theorem lookup_null_iff_unregistered (st : state) :
  reachable hash m fuel st ->
  wf_tables m (frametables st) = true ->
  (4 * length (chain_records m (frametables st)) + 68 <= fuel)%nat ->
  exists fds st',
    caml_get_frame_descrs st = Ok fds st'
    /\ forall pc,
         caml_find_frame_descr hash m fuel fds pc st' = Ok NULL st'
         <-> forall r, r ∈ chain_records m (frametables st) ->
                       retaddr m r <> pc.
Proof.
  intros Hreach Hwf Hfuel.
  pose proof (manager_inv_reachable hash m fuel st Hreach) as Hinv.
  destruct (indexed_reachable hash m fuel st Hreach Hwf Hfuel)
    as (v & k & l & Hv & Hmask & Hl & Hidx & Hroom & Hk2 & Hmin).
  destruct (caml_get_frame_descrs_spec st Hinv) as (v1 & Hv1 & Hget).
  assert (v1 = v) by congruence. subst v1.
  destruct (get_keeps_current_index st v l _ _ Hinv Hv Hl Hget)
    as (_ & _ & _ & Hl' & _).
  pose proof (tblsize_le_fuel k _ fuel Hk2 Hmin Hfuel) as Hfuel'.
  pose proof (inv_size _ _ _ _ _ Hidx) as Hsize.
  pose proof (inv_k _ _ _ _ _ Hidx) as Hk.
  pose proof (inv_occupied _ _ _ _ _ Hidx) as Hocc.
  eexists (table v), _. split; [exact Hget|].
  intros pc. split.
  - intros Hfind r Hr Hpc.
    destruct (inv_placed _ _ _ _ _ Hidx r Hr) as (j & Hj & Hat & Hbusy).
    rewrite Hpc in Hat, Hbusy.
    destruct (slots_find_some m l (2 ^ k - 1) pc j fuel _ r Hat
                (inv_nonnull _ _ _ _ _ Hidx r Hr) Hpc Hbusy ltac:(lia))
      as (d & i & Hfind' & Hnz & _).
    unfold caml_find_frame_descr in Hfind. rewrite Hmask in Hfind.
    rewrite (find_loop_sim m fuel (table v) pc _ l _ d Hl') in Hfind
      by (rewrite Hmask; exact Hfind').
    congruence.
  - intros Hnone.
    assert (Hh0 : 0 <= Hash_retaddr hash pc (2 ^ k - 1) < 2 ^ k)
      by (apply Hash_retaddr_range; lia).
    destruct (first_empty_near k l _ Hk Hsize ltac:(lia) Hh0)
      as (j & Hj & Hz & Hbusy).
    destruct (slots_find_stop m l (2 ^ k - 1) pc j fuel _ Hz Hbusy
                ltac:(lia)) as (d & Hfind & Hd).
    assert (d = NULL).
    { destruct Hd as [Hd|(i & Hat & Hnz & Hret)]; [exact Hd|].
      exfalso. apply (Hnone d); [|exact Hret].
      eapply slot_at_sound; eauto. }
    subst d. unfold caml_find_frame_descr. rewrite Hmask.
    eapply find_loop_sim; [exact Hl'|]. rewrite Hmask. exact Hfind.
Qed.
End Lookup_miss.

(** ** Records with the same return address: the first of the chain wins *)

Section Order.
Variable hash : Z -> Z.
Variable m : memory.

Lemma ordered_empty mask slots : ordered hash m mask slots [].
Proof. intros pre d post H. destruct pre; discriminate. Qed.

Lemma slots_insert_ordered k slots recs d :
  index_inv hash m k slots recs ->
  ordered hash m (2 ^ k - 1) slots recs ->
  (length recs < length slots)%nat -> d <> NULL ->
  exists slots',
    (forall fuel : nat, 2 ^ k <= Z.of_nat fuel ->
       slots_insert hash m fuel (2 ^ k - 1) slots d = Some slots')
    /\ index_inv hash m k slots' (recs ++ [d])
    /\ ordered hash m (2 ^ k - 1) slots' (recs ++ [d]).
Proof.
  intros Hinv Hord Hroom Hd.
  destruct (slots_insert_inv hash m k slots recs d Hinv Hroom Hd)
    as (slots1 & Hins1 & Hinv1).
  pose proof Hinv as [Hsize Hk Hplaced Hsound Hnonnull Hocc].
  set (h0 := Hash_retaddr hash (retaddr m d) (2 ^ k - 1)).
  assert (Hh0 : 0 <= h0 < 2 ^ k) by (apply Hash_retaddr_range; lia).
  destruct (first_empty k slots h0 Hk Hsize ltac:(lia) Hh0)
    as (j & Hj & Hz & Hbusy).
  pose proof (walk_range k j h0 Hk Hh0) as Hrange.
  set (e := walk (2 ^ k - 1) j h0) in *.
  assert (Hpow : 0 < 2 ^ k) by (apply Z.pow_pos_nonneg; lia).
  assert (Hslots1 : slots1 = <[Z.to_nat e := d]> slots).
  { specialize (Hins1 (Z.to_nat (2 ^ k)) ltac:(lia)).
    unfold slots_insert in Hins1. fold h0 in Hins1.
    rewrite (slots_probe_empty_path slots (2 ^ k - 1) j _ h0 Hz Hbusy)
      in Hins1 by lia.
    fold e in Hins1. congruence. }
  exists slots1. split; [exact Hins1|]. split; [exact Hinv1|].
  subst slots1.
  assert (He : slots !! Z.to_nat e = Some NULL)
    by (apply slot_at_Some in Hz; tauto).
  assert (Hkeep : forall h v, slot_at slots h = Some v -> v <> NULL ->
                    slot_at (<[Z.to_nat e := d]> slots) h = Some v).
  { intros h v Hv Hnz. rewrite slot_at_insert_ne; [exact Hv|].
    intros ->. apply slot_at_Some in Hv as [_ Hv].
    rewrite Nat2Z.id in Hv. congruence. }
  intros pre d0 post Heq.
  destruct (decide (post = [])) as [->|Hpost].
  - apply app_inj_tail in Heq as [<- <-].
    exists j. rewrite length_insert. split; [lia|]. fold h0. split.
    + fold e. apply slot_at_insert_eq. lia.
    + intros i Hi. destruct (Hbusy i Hi) as (v & Hv & Hnz).
      exists v. split; [apply Hkeep; assumption|].
      apply (slot_at_sound hash m k slots recs _ v Hinv Hv Hnz).
  - destruct (exists_last Hpost) as (post0 & x & ->).
    rewrite app_comm_cons, app_assoc in Heq.
    apply app_inj_tail in Heq as [Hrecs _].
    destruct (Hord pre d0 post0 Hrecs) as (j0 & Hj0 & Hat0 & Hpre).
    exists j0. rewrite length_insert. split; [exact Hj0|]. split.
    + apply Hkeep; [exact Hat0|]. apply Hnonnull. rewrite Hrecs.
      apply elem_of_app. right. apply elem_of_cons. left. reflexivity.
    + intros i Hi. destruct (Hpre i Hi) as (v & Hv & Hin).
      exists v. split; [|exact Hin]. apply Hkeep; [exact Hv|].
      apply Hnonnull. rewrite Hrecs. apply elem_of_app. left. exact Hin.
Qed.

Lemma slots_fill_ordered k new : forall slots recs,
  index_inv hash m k slots recs ->
  ordered hash m (2 ^ k - 1) slots recs ->
  (length recs + length new < length slots)%nat ->
  Forall (fun d => d <> NULL) new ->
  exists slots',
    (forall fuel : nat, 2 ^ k <= Z.of_nat fuel ->
       slots_fill hash m fuel (2 ^ k - 1) slots new = Some slots')
    /\ index_inv hash m k slots' (recs ++ new)
    /\ ordered hash m (2 ^ k - 1) slots' (recs ++ new).
Proof.
  induction new as [|d new IH]; intros slots recs Hinv Hord Hroom Hnn.
  - exists slots. rewrite app_nil_r. auto.
  - apply Forall_cons in Hnn as [Hd Hnn]. simpl in Hroom.
    destruct (slots_insert_ordered k slots recs d Hinv Hord ltac:(lia) Hd)
      as (slots1 & Hins & Hinv1 & Hord1).
    assert (Hlen : length slots1 = length slots).
    { apply Nat2Z.inj. rewrite (inv_size _ _ _ _ _ Hinv1).
      rewrite (inv_size _ _ _ _ _ Hinv). reflexivity. }
    destruct (IH slots1 (recs ++ [d]) Hinv1 Hord1)
      as (slots' & Hfill & Hinv' & Hord');
      [rewrite length_app; simpl; lia | exact Hnn |].
    exists slots'. split.
    + intros fuel Hfuel. simpl. rewrite (Hins fuel Hfuel). apply Hfill, Hfuel.
    + rewrite <- app_assoc in Hinv', Hord'. auto.
Qed.

(** The builder, once more, with the order of the records in the
    array. *)
Lemma build_frame_descriptors_ordered chain :
  wf_tables m chain = true ->
  exists k l,
    2 <= k <= 60
    /\ (k = 2 \/ 2 ^ (k - 1) < 2 * Z.of_nat (length (chain_records m chain)))
    /\ ordered hash m (2 ^ k - 1) l (chain_records m chain)
    /\ forall (fuel : nat) st n,
         2 ^ k + 64 <= Z.of_nat fuel -> avail st = S n ->
         build_frame_descriptors hash m fuel chain st
         = Ok (mk_frame_descrs (alloc_addr st) (2 ^ k - 1))
             (mk_state (<[alloc_addr st := Descrs l]> (heap st)) n
                (frametables st) (current_frametable st)
                (caml_major_cycles_completed st)).
Proof.
  intros Hwf. apply wf_tables_unpack in Hwf as (Hcounts & Hlen & Hnn).
  set (recs := chain_records m chain) in *.
  assert (Hcount : count_descrs m chain 0 = Z.of_nat (length recs)).
  { rewrite count_descrs_spec by (try assumption; fold recs; lia).
    fold recs. lia. }
  destruct (grow_tblsize_spec (Z.of_nat (length recs)) ltac:(lia))
    as (k & Hk & Hge & Hmin & Hgrow).
  pose proof (pow2_le_mono 2 k ltac:(lia)) as Hk2.
  pose proof (pow2_lt_mono k 61 ltac:(lia)) as Hk61.
  change (2 ^ 2) with 4 in Hk2.
  destruct (slots_fill_ordered k recs
              (replicate (Z.to_nat (2 ^ k)) NULL) [])
    as (l & Hfill & _ & Hord).
  { apply index_inv_empty. lia. }
  { apply ordered_empty. }
  { rewrite length_replicate. simpl. lia. }
  { exact Hnn. }
  exists k, l. split; [exact Hk|]. split; [exact Hmin|].
  split; [exact Hord|].
  intros fuel st n Hfuel Havail.
  unfold build_frame_descriptors.
  rewrite Hcount, (Hgrow fuel) by lia.
  unfold bind at 1. unfold caml_stat_alloc. rewrite Havail.
  unfold sizeof_ptr.
  rewrite uintnat_small
    by (unfold word_modulus; change (2 ^ 61) with 2305843009213693952 in *; lia).
  rewrite Z.div_mul by lia.
  set (a := alloc_addr st).
  set (st1 := mk_state _ n _ _ _).
  assert (Ha1 : heap st1 !! a
                = Some (Descrs ([] ++ replicate (Z.to_nat (2 ^ k)) uninit)))
    by (unfold st1; simpl; apply lookup_insert_eq).
  unfold bind at 1.
  pose proof (clear_slots_spec a (Z.to_nat (2 ^ k)) st1 [] _ Ha1
                (length_replicate _ _)) as Hclear.
  change (Z.of_nat (length [])) with 0 in Hclear.
  rewrite Hclear. simpl app.
  unfold bind at 1.
  rewrite (fill_chain_sim hash m fuel (mk_frame_descrs a (2 ^ k - 1)) (2 ^ k)
             chain _ _ l (set_array_lookup _ _ _) eq_refl).
  2: { simpl mask. apply Hfill. lia. }
  unfold ret. f_equal. simpl descriptors.
  rewrite set_array_twice. unfold set_array, with_heap, st1. simpl.
  rewrite insert_insert_eq. reflexivity.
Qed.
End Order.

Section Order_of_the_current_index.
Variable hash : Z -> Z.
Variable m : memory.
Variable fuel : nat.

Lemma ordered_finished chain msk l marker old st1 :
  wf_tables m chain = true ->
  (4 * length (chain_records m chain) + 68 <= fuel)%nat ->
  frametables st1 = chain ->
  build_frame_descriptors hash m fuel chain
    (alloc_state (Version uninit_version) st1)
  = Ok (mk_frame_descrs
          (alloc_addr (alloc_state (Version uninit_version) st1)) msk)
      (alloc_state (Descrs l) (alloc_state (Version uninit_version) st1)) ->
  indexed_in_order hash m (finished msk l marker old st1).
Proof.
  intros Hwf Hfuel Hchain Hbuild.
  set (st2 := alloc_state (Version uninit_version) st1) in *.
  set (a := alloc_addr st2) in *.
  destruct (build_frame_descriptors_ordered hash m chain Hwf)
    as (k & ls & Hk & Hmin & Hord & Hspec).
  pose proof (tblsize_le_fuel k _ fuel ltac:(lia) Hmin Hfuel) as Hfuel'.
  pose proof (build_frame_descriptors_inversion hash m fuel chain st2) as Hb.
  rewrite Hbuild in Hb. destruct Hb as (_ & Hav & _).
  destruct (avail st2) as [|n] eqn:Havail; [contradiction|].
  rewrite (Hspec fuel st2 n Hfuel' Havail) in Hbuild.
  injection Hbuild as Hmsk Hheap _.
  assert (Hl : ls = l).
  { apply (f_equal (fun h : gmap Z block => h !! alloc_addr st2)) in Hheap.
    rewrite !lookup_insert_eq in Hheap. congruence. }
  subst ls.
  exists (mk_version (mk_frame_descrs a msk) marker old), l.
  change (current_frametable (finished msk l marker old st1))
    with (alloc_addr st1).
  change (frametables (finished msk l marker old st1)) with (frametables st1).
  rewrite Hchain. cbn [table descriptors mask].
  assert (Hne : a <> alloc_addr st1).
  { intros Heq. pose proof (alloc_addr_fresh st2) as Hf. fold a in Hf.
    rewrite Heq in Hf. unfold st2 in Hf. simpl in Hf.
    rewrite lookup_insert_eq in Hf. discriminate. }
  rewrite finished_heap. fold st2. fold a.
  split; [apply lookup_insert_eq|].
  split; [rewrite lookup_insert_ne by congruence; apply lookup_insert_eq|].
  rewrite <- Hmsk. exact Hord.
Qed.

Lemma ordered_step o st st' :
  manager_inv st ->
  step hash m fuel o st st' ->
  (wf_tables m (frametables st) = true ->
   (4 * length (chain_records m (frametables st)) + 68 <= fuel)%nat ->
   indexed_in_order hash m st) ->
  wf_tables m (frametables st') = true ->
  (4 * length (chain_records m (frametables st')) + 68 <= fuel)%nat ->
  indexed_in_order hash m st'.
Proof.
  intros Hinv Hstep IH Hwf Hfuel. destruct o as [tbl| |]; simpl in Hstep.
  - pose proof (register_inversion hash m fuel tbl st) as Hr.
    rewrite Hstep in Hr. destruct Hr as (msk & l & _ & Hbuild & ->).
    rewrite registered_finished in *.
    apply (ordered_finished (tbl :: frametables st)); try assumption.
    reflexivity.
  - destruct Hstep as [fds Hget].
    destruct (minv_current st Hinv) as (v0 & l0 & Hv0 & Hl0 & _).
    destruct (get_keeps_current_index st v0 l0 fds st' Hinv Hv0 Hl0 Hget)
      as (_ & Hft & Hcur & _ & _).
    rewrite Hft in Hwf, Hfuel.
    destruct (IH Hwf Hfuel) as (v & l & Hv & Hl & Hord).
    destruct (get_keeps_current_index st v l fds st' Hinv Hv Hl Hget)
      as (_ & _ & _ & Hl' & v' & Hv' & Htab).
    exists v', l. rewrite Hcur, Hft, Htab. auto.
  - destruct Hstep as [_ ->]. apply IH; assumption.
Qed.

Lemma ordered_steps ops : forall st st',
  manager_inv st ->
  steps hash m fuel ops st st' ->
  (wf_tables m (frametables st) = true ->
   (4 * length (chain_records m (frametables st)) + 68 <= fuel)%nat ->
   indexed_in_order hash m st) ->
  wf_tables m (frametables st') = true ->
  (4 * length (chain_records m (frametables st')) + 68 <= fuel)%nat ->
  indexed_in_order hash m st'.
Proof.
  induction ops as [|o ops IH]; intros st st' Hinv Hsteps Hst Hwf Hfuel;
    simpl in Hsteps.
  - subst st'. apply Hst; assumption.
  - destruct Hsteps as (st1 & Hstep & Hsteps).
    pose proof (manager_inv_step hash m fuel o st st1 Hinv Hstep) as Hinv1.
    apply (IH st1 st' Hinv1 Hsteps); try assumption.
    apply (ordered_step o st st1 Hinv Hstep Hst).
Qed.

Lemma ordered_reachable st :
  reachable hash m fuel st ->
  wf_tables m (frametables st) = true ->
  (4 * length (chain_records m (frametables st)) + 68 <= fuel)%nat ->
  indexed_in_order hash m st.
Proof.
  intros (avail & tbls & ops & st0 & Hinit & Hsteps).
  apply (ordered_steps ops st0 st); try assumption.
  - eapply manager_inv_init; eauto.
  - intros Hwf Hfuel.
    pose proof (init_inversion hash m fuel tbls (initial_state avail)) as Hi.
    rewrite Hinit in Hi. destruct Hi as (done & msk & l & Hbuild & ->).
    apply (ordered_finished
             (frametables (consed_all done (initial_state avail))));
      try assumption.
    reflexivity.
Qed.

(** X16.  When several registered records have the same return address,
    the lookup returns the one that comes first in the chain, that is,
    the one of the table registered last: in any reachable state whose
    tables are well-formed, a record whose return address is that of no
    record before it in the chain is the result of the lookup of its
    return address. *)
Theorem lookup_returns_first_in_chain (st : state) :
  reachable hash m fuel st ->
  wf_tables m (frametables st) = true ->
  (4 * length (chain_records m (frametables st)) + 68 <= fuel)%nat ->
  exists fds st',
    caml_get_frame_descrs st = Ok fds st'
    /\ forall pre d post,
         chain_records m (frametables st) = pre ++ d :: post ->
         (forall r, r ∈ pre -> retaddr m r <> retaddr m d) ->
         caml_find_frame_descr hash m fuel fds (retaddr m d) st' = Ok d st'.
Proof.
  intros Hreach Hwf Hfuel.
  pose proof (manager_inv_reachable hash m fuel st Hreach) as Hinv.
  destruct (indexed_reachable hash m fuel st Hreach Hwf Hfuel)
    as (v & k & l & Hv & Hmask & Hl & Hidx & Hroom & Hk2 & Hmin).
  destruct (ordered_reachable st Hreach Hwf Hfuel)
    as (v2 & l2 & Hv2 & Hl2 & Hord).
  assert (v2 = v) by congruence. subst v2.
  assert (l2 = l) by congruence. subst l2.
  destruct (caml_get_frame_descrs_spec st Hinv) as (v1 & Hv1 & Hget).
  assert (v1 = v) by congruence. subst v1.
  destruct (get_keeps_current_index st v l _ _ Hinv Hv Hl Hget)
    as (_ & _ & _ & Hl' & _).
  pose proof (tblsize_le_fuel k _ fuel Hk2 Hmin Hfuel) as Hfuel'.
  pose proof (inv_size _ _ _ _ _ Hidx) as Hsize.
  eexists (table v), _. split; [exact Hget|].
  intros pre d post Hrecs Hfirst.
  destruct (Hord pre d post Hrecs) as (j & Hj & Hat & Hpre).
  assert (Hin : forall r, r ∈ pre -> r ∈ chain_records m (frametables st)).
  { intros r Hr. rewrite Hrecs. apply elem_of_app. left. exact Hr. }
  unfold caml_find_frame_descr.
  eapply find_loop_sim; [exact Hl'|].
  apply (slots_find_path m l _ _ j); try assumption.
  - apply (inv_nonnull _ _ _ _ _ Hidx). rewrite Hrecs.
    apply elem_of_app. right. apply elem_of_cons. left. reflexivity.
  - reflexivity.
  - intros i Hi. destruct (Hpre i Hi) as (x & Hx & Hxpre).
    exists x. split; [exact Hx|].
    split; [apply (inv_nonnull _ _ _ _ _ Hidx), Hin, Hxpre|].
    intros Heq. exfalso. apply (Hfirst x Hxpre Heq).
  - lia.
Qed.
End Order_of_the_current_index.

(** ** The further properties on the memory image *)

Lemma records_word_aligned_witness :
  Forall (fun r => r mod 8 = 0 /\ 0 <= r < word_modulus)
    (records_of example_memory table4).
Proof.
  apply (records_word_aligned example_memory table4). reflexivity.
Defined.

Lemma next_frame_descr_advances_witness :
  0x10a8 + 12 + 2 * num_live example_memory 0x10a8
  <= next_frame_descr example_memory 0x10a8
  /\ next_frame_descr example_memory 0x10a8
     <= 0x10a8 + 12 + 2 * num_live example_memory 0x10a8 + 1286
  /\ 0x10a8 < next_frame_descr example_memory 0x10a8.
Proof.
  apply (next_frame_descr_advances example_memory 0x10a8);
    [lia | vm_compute; reflexivity].
Defined.

Lemma next_frame_descr_sentinel_record_witness :
  next_frame_descr example_memory 0x1098
  = align_up
      (0x1098 + 12 + 2 * num_live example_memory 0x1098 + 1
       + load_u8 example_memory
           (0x1098 + 12 + 2 * num_live example_memory 0x1098)) 8.
Proof.
  apply (next_frame_descr_sentinel_record example_memory 0x1098);
    [lia | vm_compute; reflexivity | vm_compute; reflexivity].
Defined.

Lemma find_returns_matching_descriptor_witness :
  (0x1008 = NULL \/ retaddr example_memory 0x1008 = 0x5010)
  /\ example_registered_again 10 = example_registered_again 10.
Proof.
  apply (find_returns_matching_descriptor example_hash example_memory 100
           (mk_frame_descrs 9 15) 0x5010 (example_registered_again 10)
           0x1008 (example_registered_again 10)).
  vm_compute. reflexivity.
Defined.

Lemma lookup_never_misses_registered_witness :
  exists fds st',
    caml_get_frame_descrs (example_registered_again 10) = Ok fds st'
    /\ forall r,
         r ∈ chain_records example_memory
               (frametables (example_registered_again 10)) ->
         exists d,
           caml_find_frame_descr example_hash example_memory 100 fds
             (retaddr example_memory r) st' = Ok d st'
           /\ d <> NULL
           /\ d ∈ chain_records example_memory
                    (frametables (example_registered_again 10))
           /\ retaddr example_memory d = retaddr example_memory r.
Proof.
  apply (lookup_never_misses_registered example_hash example_memory 100
           (example_registered_again 10)).
  - exists 10%nat, [table1; 0], [Register table2; Register table3],
      (example_init 10).
    split; [vm_compute; reflexivity|].
    exists (example_registered 10). split; [vm_compute; reflexivity|].
    exists (example_registered_again 10).
    split; [vm_compute; reflexivity | reflexivity].
  - vm_compute. reflexivity.
  - vm_compute. lia.
Defined.

Lemma lookup_probes_at_most_occupancy_witness :
  exists fds st',
    caml_get_frame_descrs (example_registered_again 10) = Ok fds st'
    /\ forall pc, exists d,
         caml_find_frame_descr example_hash example_memory
           (S (length (chain_records example_memory
                         (frametables (example_registered_again 10)))))
           fds pc st'
         = Ok d st'.
Proof.
  apply (lookup_probes_at_most_occupancy example_hash example_memory 100
           (example_registered_again 10)).
  - exists 10%nat, [table1; 0], [Register table2; Register table3],
      (example_init 10).
    split; [vm_compute; reflexivity|].
    exists (example_registered 10). split; [vm_compute; reflexivity|].
    exists (example_registered_again 10).
    split; [vm_compute; reflexivity | reflexivity].
  - vm_compute. reflexivity.
  - vm_compute. lia.
Defined.

Lemma init_publishes_first_version_witness :
  frametables (example_init 10) = rev (static_tables [table1; 0])
  /\ exists v,
       heap (example_init 10) !! current_frametable (example_init 10)
       = Some (Version v)
       /\ prev v = NULL
       /\ free_prev_after_cycle v = No_need_to_free
       /\ caml_get_frame_descrs (example_init 10)
          = Ok (table v) (example_init 10).
Proof.
  apply (init_publishes_first_version example_hash example_memory 100
           [table1; 0] 10 (example_init 10)).
  vm_compute. reflexivity.
Defined.

Lemma failed_registration_keeps_table_in_chain_witness :
  (avail (example_init 5) = O /\ example_registered 5 = example_init 5)
  \/ ((avail (example_init 5) = 1 \/ avail (example_init 5) = 2)%nat
      /\ frametables (example_registered 5)
         = table2 :: frametables (example_init 5)
      /\ heap (example_registered 5) !! alloc_addr (example_init 5)
         = Some (Link table2)
      /\ current_frametable (example_registered 5)
         = current_frametable (example_init 5)).
Proof.
  apply (failed_registration_keeps_table_in_chain example_hash example_memory
           100 table2 (example_init 5) (example_registered 5)).
  vm_compute. reflexivity.
Defined.

Lemma second_fetch_changes_nothing_witness :
  caml_get_frame_descrs (example_fetched 10)
  = Ok (mk_frame_descrs 6 7) (example_fetched 10).
Proof.
  apply (second_fetch_changes_nothing example_hash example_memory 100
           (example_cycled 10) (mk_frame_descrs 6 7) (example_fetched 10)).
  - exists 10%nat, [table1; 0], [Register table2; Major_cycle],
      (example_init 10).
    split; [vm_compute; reflexivity|].
    exists (example_registered 10). split; [vm_compute; reflexivity|].
    exists (example_cycled 10). split; [|reflexivity].
    split; [vm_compute; reflexivity | reflexivity].
  - vm_compute. reflexivity.
Defined.

Lemma fetch_after_registration_witness :
  exists v1 l1,
    heap (example_registered 10) !! current_frametable (example_registered 10)
    = Some (Version v1)
    /\ prev v1 = current_frametable (example_init 10)
    /\ heap (example_init 10) !! descriptors (table v1) = None
    /\ heap (example_registered 10) !! descriptors (table v1)
       = Some (Descrs l1)
    /\ heap (example_registered 10) !! current_frametable (example_init 10)
       = heap (example_init 10) !! current_frametable (example_init 10)
    /\ caml_get_frame_descrs (example_registered 10)
       = Ok (table v1) (example_registered 10).
Proof.
  apply (fetch_after_registration example_hash example_memory 100
           (example_init 10) (example_registered 10) table2).
  - exists 10%nat, [table1; 0], [], (example_init 10).
    split; [vm_compute; reflexivity | reflexivity].
  - vm_compute. reflexivity.
Defined.

Lemma fetch_after_cycle_reclaims_witness :
  exists v0 l0 v1,
    heap (example_init 10) !! current_frametable (example_init 10)
    = Some (Version v0)
    /\ heap (example_init 10) !! descriptors (table v0) = Some (Descrs l0)
    /\ heap (example_registered 10) !! current_frametable (example_registered 10)
       = Some (Version v1)
    /\ mk_frame_descrs 6 7 = table v1
    /\ heap (example_fetched 10)
       = <[current_frametable (example_registered 10) :=
             Version (mk_version (table v1) No_need_to_free NULL)]>
           (delete (current_frametable (example_init 10))
              (delete (descriptors (table v0))
                 (heap (example_registered 10)))).
Proof.
  apply (fetch_after_cycle_reclaims example_hash example_memory 100
           (example_init 10) (example_registered 10) (example_cycled 10)
           (example_fetched 10) table2 (mk_frame_descrs 6 7)).
  - exists 10%nat, [table1; 0], [], (example_init 10).
    split; [vm_compute; reflexivity | reflexivity].
  - vm_compute. reflexivity.
  - split; [vm_compute; reflexivity | reflexivity].
  - vm_compute. reflexivity.
Defined.

Lemma version_skipped_by_two_registrations_is_never_freed_witness :
  exists v0 l0,
    heap (example_init 10) !! current_frametable (example_init 10)
    = Some (Version v0)
    /\ heap (example_init 10) !! descriptors (table v0) = Some (Descrs l0)
    /\ heap (example_fetched_again 10) !! current_frametable (example_init 10)
       = Some (Version v0)
    /\ heap (example_fetched_again 10) !! descriptors (table v0)
       = Some (Descrs l0)
    /\ current_frametable (example_fetched_again 10)
       <> current_frametable (example_init 10)
    /\ forall v,
         heap (example_fetched_again 10)
           !! current_frametable (example_fetched_again 10)
         = Some (Version v) ->
         prev v <> current_frametable (example_init 10).
Proof.
  apply (version_skipped_by_two_registrations_is_never_freed example_hash
           example_memory 100 (example_init 10) (example_registered 10)
           (example_registered_again 10) (example_fetched_again 10)
           table2 table3 [Major_cycle; Get_frame_descrs]).
  - exists 10%nat, [table1; 0], [], (example_init 10).
    split; [vm_compute; reflexivity | reflexivity].
  - vm_compute. reflexivity.
  - vm_compute. reflexivity.
  - exists (with_cycles 1 (example_registered_again 10)). split.
    + split; [vm_compute; reflexivity | reflexivity].
    + exists (example_fetched_again 10). split; [|reflexivity].
      exists (mk_frame_descrs 9 15). vm_compute. reflexivity.
Defined.

Lemma manager_pointers_are_valid_witness :
  heap (example_registered 10) !! NULL = None
  /\ exists v l,
       heap (example_registered 10) !! current_frametable (example_registered 10)
       = Some (Version v)
       /\ heap (example_registered 10) !! descriptors (table v)
          = Some (Descrs l)
       /\ (prev v <> NULL ->
           prev v <> current_frametable (example_registered 10)
           /\ exists w lw,
                heap (example_registered 10) !! prev v = Some (Version w)
                /\ heap (example_registered 10) !! descriptors (table w)
                   = Some (Descrs lw)
                /\ descriptors (table w) <> descriptors (table v)).
Proof.
  apply (manager_pointers_are_valid example_hash example_memory 100
           (example_registered 10)).
  exists 10%nat, [table1; 0], [Register table2], (example_init 10).
  split; [vm_compute; reflexivity|].
  exists (example_registered 10).
  split; [vm_compute; reflexivity | reflexivity].
Defined.

Lemma chain_is_registration_order_reversed_witness :
  frametables (example_registered_again 10)
  = rev (registrations [Register table2; Get_frame_descrs; Register table3])
    ++ frametables (example_init 10).
Proof.
  apply (chain_is_registration_order_reversed example_hash example_memory 100
           (example_init 10) (example_registered_again 10)
           [Register table2; Get_frame_descrs; Register table3]).
  - exists 10%nat, [table1; 0], [], (example_init 10).
    split; [vm_compute; reflexivity | reflexivity].
  - exists (example_registered 10). split; [vm_compute; reflexivity|].
    exists (example_registered 10). split.
    + exists (mk_frame_descrs 6 7). vm_compute. reflexivity.
    + exists (example_registered_again 10).
      split; [vm_compute; reflexivity | reflexivity].
Defined.

Lemma lookup_null_iff_unregistered_witness :
  exists fds st',
    caml_get_frame_descrs (example_registered_again 10) = Ok fds st'
    /\ forall pc,
         caml_find_frame_descr example_hash example_memory 100 fds pc st'
         = Ok NULL st'
         <-> forall r,
               r ∈ chain_records example_memory
                     (frametables (example_registered_again 10)) ->
               retaddr example_memory r <> pc.
Proof.
  apply (lookup_null_iff_unregistered example_hash example_memory 100
           (example_registered_again 10)).
  - exists 10%nat, [table1; 0], [Register table2; Register table3],
      (example_init 10).
    split; [vm_compute; reflexivity|].
    exists (example_registered 10). split; [vm_compute; reflexivity|].
    exists (example_registered_again 10).
    split; [vm_compute; reflexivity | reflexivity].
  - vm_compute. reflexivity.
  - vm_compute. lia.
Defined.

(** On the second image the chain has two records with the return
    address [0x9010]; the lookup returns the one of the table registered
    last. *)
Example lookup_of_repeated_address :
  chain_records shadow_memory (frametables (shadow_registered 10))
  = [0x2030; 0x2008; 0x2018]
  /\ map (retaddr shadow_memory) [0x2030; 0x2008; 0x2018]
     = [0x9010; 0x9010; 0x9020]
  /\ exists fds,
       caml_get_frame_descrs (shadow_registered 10)
       = Ok fds (shadow_registered 10)
       /\ caml_find_frame_descr example_hash shadow_memory 100 fds 0x9010
            (shadow_registered 10)
          = Ok 0x2030 (shadow_registered 10).
Proof.
  split; [vm_compute; reflexivity|]. split; [vm_compute; reflexivity|].
  exists (mk_frame_descrs 6 7). split; vm_compute; reflexivity.
Qed.

Lemma lookup_returns_first_in_chain_witness :
  unique_retaddrs shadow_memory (frametables (shadow_registered 10)) = false
  /\ exists fds st',
       caml_get_frame_descrs (shadow_registered 10) = Ok fds st'
       /\ forall pre d post,
            chain_records shadow_memory (frametables (shadow_registered 10))
            = pre ++ d :: post ->
            (forall r, r ∈ pre ->
               retaddr shadow_memory r <> retaddr shadow_memory d) ->
            caml_find_frame_descr example_hash shadow_memory 100 fds
              (retaddr shadow_memory d) st'
            = Ok d st'.
Proof.
  split; [vm_compute; reflexivity|].
  apply (lookup_returns_first_in_chain example_hash shadow_memory 100
           (shadow_registered 10)).
  - exists 10%nat, [0x2000; 0], [Register 0x2028], (shadow_init 10).
    split; [vm_compute; reflexivity|].
    exists (shadow_registered 10).
    split; [vm_compute; reflexivity | reflexivity].
  - vm_compute. reflexivity.
  - vm_compute. lia.
Defined.
